(** * Vite dev server: plugin container, dev environment and crawl-end finder

    A shallow embedding of
      - packages/vite/src/node/server/environment.ts
        (invalidateModule, setupOnCrawlEnd), and
      - packages/vite/src/node/server/pluginContainer.ts
        (Context.resolve, TransformContext, resolveId / load / transform),
    together with the properties the specification states about them. *)

From stdpp Require Import base option list strings gmap sets.
From Stdlib Require Import ZArith Lia.

Open Scope string_scope.

(** JavaScript truthiness of a string: only the empty string is falsy. *)
Definition truthy_str (s : string) : bool := negb (String.eqb s "").

(** Truthiness of an optional string (undefined is falsy). *)
Definition truthy_ostr (o : option string) : bool :=
  match o with
  | Some s => truthy_str s
  | None => false
  end.

(* ===================================================================== *)
(** * The crawl-end finder (environment.ts, setupOnCrawlEnd)              *)
(* ===================================================================== *)

Module CrawlEnd.

(** The closure state of [setupOnCrawlEnd].  The event loop is made
    explicit: [armed] holds the timers that were set and neither cleared nor
    fired, [donePending] the ids whose [done()] promise has not settled yet.
    [onCrawlEndCalls] and [doneInvoked] count the calls of the two callbacks
    the finder receives. *)
Record Finder := mkFinder {
  registeredIds : gset string;
  seenIds : gset string;
  deferredResolved : bool;
  timeoutHandle : option nat;
  armed : gset nat;
  nextHandle : nat;
  cancelled : bool;
  crawlEndCalled : bool;
  onCrawlEndCalls : nat;
  doneInvoked : list string;
  donePending : gset string
}.

Definition setupOnCrawlEnd : Finder :=
  {| registeredIds := ∅; seenIds := ∅; deferredResolved := false;
     timeoutHandle := None; armed := ∅; nextHandle := 0;
     cancelled := false; crawlEndCalled := false;
     onCrawlEndCalls := 0; doneInvoked := []; donePending := ∅ |}.

Definition cancel (f : Finder) : Finder :=
  {| registeredIds := registeredIds f; seenIds := seenIds f;
     deferredResolved := deferredResolved f;
     timeoutHandle := timeoutHandle f; armed := armed f;
     nextHandle := nextHandle f;
     cancelled := true; crawlEndCalled := crawlEndCalled f;
     onCrawlEndCalls := onCrawlEndCalls f; doneInvoked := doneInvoked f;
     donePending := donePending f |}.

(** [onCrawlEndPromiseWithResolvers.resolve()] *)
Definition resolveDeferred (f : Finder) : Finder :=
  {| registeredIds := registeredIds f; seenIds := seenIds f;
     deferredResolved := true;
     timeoutHandle := timeoutHandle f; armed := armed f;
     nextHandle := nextHandle f;
     cancelled := cancelled f; crawlEndCalled := crawlEndCalled f;
     onCrawlEndCalls := onCrawlEndCalls f; doneInvoked := doneInvoked f;
     donePending := donePending f |}.

(** [callOnCrawlEnd()].  [returns] tells how the call of [onCrawlEnd]
    ends, should this make it: when the callback throws, [crawlEndCalled]
    is set already and [resolve()] is not reached. *)
Definition callOnCrawlEnd (returns : bool) (f : Finder) : Finder :=
  if negb (cancelled f) && negb (crawlEndCalled f) then
    let f1 :=
      {| registeredIds := registeredIds f; seenIds := seenIds f;
         deferredResolved := deferredResolved f;
         timeoutHandle := timeoutHandle f; armed := armed f;
         nextHandle := nextHandle f;
         cancelled := cancelled f; crawlEndCalled := true;
         onCrawlEndCalls := S (onCrawlEndCalls f);
         doneInvoked := doneInvoked f; donePending := donePending f |} in
    if returns then resolveDeferred f1 else f1
  else resolveDeferred f.

(** [registeredIds.size > 0] *)
Definition hasRegistered (f : Finder) : bool :=
  negb (bool_decide (registeredIds f = ∅)).

Definition callOnCrawlEndWhenIdle (returns : bool) (f : Finder) : Finder :=
  if cancelled f || hasRegistered f then f else callOnCrawlEnd returns f.

Definition clearTimeout (h : nat) (f : Finder) : Finder :=
  {| registeredIds := registeredIds f; seenIds := seenIds f;
     deferredResolved := deferredResolved f;
     timeoutHandle := timeoutHandle f; armed := armed f ∖ {[h]};
     nextHandle := nextHandle f;
     cancelled := cancelled f; crawlEndCalled := crawlEndCalled f;
     onCrawlEndCalls := onCrawlEndCalls f; doneInvoked := doneInvoked f;
     donePending := donePending f |}.

(** [timeoutHandle = setTimeout(callOnCrawlEndWhenIdle, 50)] *)
Definition setTimeout (f : Finder) : Finder :=
  {| registeredIds := registeredIds f; seenIds := seenIds f;
     deferredResolved := deferredResolved f;
     timeoutHandle := Some (nextHandle f);
     armed := armed f ∪ {[nextHandle f]};
     nextHandle := S (nextHandle f);
     cancelled := cancelled f; crawlEndCalled := crawlEndCalled f;
     onCrawlEndCalls := onCrawlEndCalls f; doneInvoked := doneInvoked f;
     donePending := donePending f |}.

Definition checkIfCrawlEndAfterTimeout (f : Finder) : Finder :=
  if cancelled f || hasRegistered f then f
  else
    let f1 := match timeoutHandle f with
              | Some h => clearTimeout h f
              | None => f
              end in
    setTimeout f1.

Definition markIdAsDone (id : string) (f : Finder) : Finder :=
  if bool_decide (id ∈ registeredIds f) then
    checkIfCrawlEndAfterTimeout
      {| registeredIds := registeredIds f ∖ {[id]}; seenIds := seenIds f;
         deferredResolved := deferredResolved f;
         timeoutHandle := timeoutHandle f; armed := armed f;
         nextHandle := nextHandle f;
         cancelled := cancelled f; crawlEndCalled := crawlEndCalled f;
         onCrawlEndCalls := onCrawlEndCalls f;
         doneInvoked := doneInvoked f; donePending := donePending f |}
  else f.

(** [registerRequestProcessing(id, done)]: [done()] is called and its
    promise stays pending until the event loop settles it ([settleDone]). *)
Definition registerRequestProcessing (id : string) (f : Finder) : Finder :=
  if negb (bool_decide (id ∈ seenIds f)) then
    {| registeredIds := registeredIds f ∪ {[id]};
       seenIds := seenIds f ∪ {[id]};
       deferredResolved := deferredResolved f;
       timeoutHandle := timeoutHandle f; armed := armed f;
       nextHandle := nextHandle f;
       cancelled := cancelled f; crawlEndCalled := crawlEndCalled f;
       onCrawlEndCalls := onCrawlEndCalls f;
       doneInvoked := doneInvoked f ++ [id];
       donePending := donePending f ∪ {[id]} |}
  else f.

Definition addSeen (id : string) (f : Finder) : Finder :=
  {| registeredIds := registeredIds f; seenIds := seenIds f ∪ {[id]};
     deferredResolved := deferredResolved f;
     timeoutHandle := timeoutHandle f; armed := armed f;
     nextHandle := nextHandle f;
     cancelled := cancelled f; crawlEndCalled := crawlEndCalled f;
     onCrawlEndCalls := onCrawlEndCalls f; doneInvoked := doneInvoked f;
     donePending := donePending f |}.

(** [waitForRequestsIdle(ignoredId?)]; the promise it returns is the
    deferred, whose state is [deferredResolved]. *)
Definition waitForRequestsIdle (ignoredId : option string) (f : Finder)
  : Finder :=
  match ignoredId with
  | Some id => if truthy_str id then markIdAsDone id (addSeen id f) else f
  | None => f
  end.

(** The promise returned by [done()] for [id] settles: the [finally]
    handler runs [markIdAsDone(id)]. *)
Definition settleDone (id : string) (f : Finder) : Finder :=
  if bool_decide (id ∈ donePending f) then
    markIdAsDone id
      {| registeredIds := registeredIds f; seenIds := seenIds f;
         deferredResolved := deferredResolved f;
         timeoutHandle := timeoutHandle f; armed := armed f;
         nextHandle := nextHandle f;
         cancelled := cancelled f; crawlEndCalled := crawlEndCalled f;
         onCrawlEndCalls := onCrawlEndCalls f;
         doneInvoked := doneInvoked f;
         donePending := donePending f ∖ {[id]} |}
  else f.

(** The debounce timer [h] fires, if it is still armed. *)
Definition fireTimer (h : nat) (returns : bool) (f : Finder) : Finder :=
  if bool_decide (h ∈ armed f)
  then callOnCrawlEndWhenIdle returns (clearTimeout h f)
  else f.

(** What can happen to a finder: the three calls of its interface and the
    two moves of the event loop.  [TimerFires h returns] carries how the
    call of [onCrawlEnd] ends if this firing makes it: the callback returns
    ([true]) or throws ([false]). *)
Inductive Event :=
| Register (id : string)
| WaitIdle (ignoredId : option string)
| Cancel
| DoneSettles (id : string)
| TimerFires (h : nat) (returns : bool).

#[global] Instance Event_eq_dec : EqDecision Event.
Proof. solve_decision. Defined.

Definition step (f : Finder) (e : Event) : Finder :=
  match e with
  | Register id => registerRequestProcessing id f
  | WaitIdle ig => waitForRequestsIdle ig f
  | Cancel => cancel f
  | DoneSettles id => settleDone id f
  | TimerFires h returns => fireTimer h returns f
  end.

Definition run (evs : list Event) (f : Finder) : Finder :=
  fold_left step evs f.

(** The callback has been called once if [crawlEndCalled] is set, and never
    otherwise. *)
Definition calls_match_flag (f : Finder) : Prop :=
  onCrawlEndCalls f = if crawlEndCalled f then 1 else 0.

(** The finder does not track [id]: it is not registered, [done] was
    never called for it and no [done] promise is pending for it. *)
Definition untracked (id : string) (f : Finder) : Prop :=
  (id ∉ registeredIds f) ∧ (id ∉ doneInvoked f) ∧ (id ∉ donePending f).

End CrawlEnd.

(* ===================================================================== *)
(** * HMR invalidation (environment.ts, invalidateModule)                 *)
(* ===================================================================== *)

Module DevEnvironment.

(** A node of the module graph, with the fields [invalidateModule] reads
    and writes.  Nodes are shared objects: the graph maps several urls to
    one node, and [importers] holds references.  They live in a store and
    are named by a reference. *)
Record ModuleNode := mkNode {
  url : string;
  file : option string;
  isSelfAccepting : bool;
  lastHMRTimestamp : Z;
  lastHMRInvalidationReceived : bool;
  importers : list nat
}.

(** What [invalidateModule] does to the outside: one logger line, one call
    of [updateModules]. *)
Inductive Effect :=
| LoggerInfo (msg : string) (timestamp : bool)
| UpdateModules (file : string) (modules : list nat) (timestamp : Z)
    (afterInvalidation : bool).

Record Env := mkEnv {
  nodes : gmap nat ModuleNode;
  urlToModuleMap : gmap string nat;
  root : string;
  effects : list Effect
}.











(** ** A graph to try the listener on

    The module "/m.js", also served as "/m.js?import", is self-accepting,
    was updated at time 100 and is imported by "/i1.js". *)






End DevEnvironment.

(* ===================================================================== *)
(** * The plugin container (pluginContainer.ts)                           *)
(* ===================================================================== *)

Module PluginContainer.

(** ** Values *)

Record Error := mkError {
  err_message : string;
  err_code : option string
}.

Definition ERR_CLOSED_SERVER : string := "ERR_CLOSED_SERVER".

(** The error [throwClosedServerError()] throws. *)
Definition closedServerError : Error :=
  {| err_message :=
       "The server is being restarted or closed. Request is outdated";
     err_code := Some ERR_CLOSED_SERVER |}.

(** How a call ends: with a value, with a thrown error, or, for the
    re-entrant calls that are run with a bound on their nesting, with the
    bound used up. *)
Inductive Outcome (A : Type) : Type :=
| Ok (a : A)
| Throws (e : Error)
| OutOfFuel.
Arguments Ok {A} a.
Arguments Throws {A} e.
Arguments OutOfFuel {A}.

(** Plugin metadata: an object used as a map from keys to values. *)
Abbreviation Meta := (gmap string string).

(** [{...a, ...b}] *)
Definition spread (a b : Meta) : Meta := b ∪ a.

(** A source map object.  [version = None] stands for an object without a
    [version] key. *)
Record SourceMap := mkSourceMap {
  version : option Z;
  mappings : string;
  sources : list (option string);
  sourcesContent : option (list (option string));
  names : list string
}.

(** A member of the source-map chain: a JSON string or an object. *)
Inductive MapInput :=
| MapStr (json : string)
| MapObj (m : SourceMap).

(** The [map] property of a hook result, or the [inMap] option. *)
Inductive MapField :=
| MapUndefined
| MapNull
| MapVal (m : MapInput).

Definition truthy_map (f : MapField) : option MapInput :=
  match f with
  | MapVal (MapStr s) => if truthy_str s then Some (MapStr s) else None
  | MapVal (MapObj m) => Some (MapObj m)
  | _ => None
  end.

(** The object a [load] or [transform] hook may return; [sd_code = None] is
    an object whose [code] is undefined, [sd_meta = None] one without
    [meta] (or with [meta: null]). *)
Record SourceDescription := mkSourceDescription {
  sd_code : option string;
  sd_map : MapField;
  sd_meta : option Meta
}.

(** The object a [resolveId] hook may return: its [id] and its other
    properties. *)
Record PartialResolvedId := mkResolved {
  rid_id : string;
  rid_props : list (string * string)
}.

Inductive ResolveIdResult :=
| RNull
| RUndefined
| RFalse
| RString (s : string)
| RObject (o : PartialResolvedId).

Inductive LoadResult :=
| LNull
| LUndefined
| LString (code : string)
| LObject (o : SourceDescription).

Inductive TransformResult :=
| TNull
| TUndefined
| TString (code : string)
| TObject (o : SourceDescription).

(** ** Options *)

(** The options of [container.resolveId]. *)
Record ResolveIdOptions := mkResolveIdOptions {
  ro_attributes : option (list (string * string));
  ro_custom : option string;
  ro_skip : option (gset nat);
  ro_scan : option bool;
  ro_isEntry : option bool
}.

(** The options a [resolveId] handler receives. *)
Record ResolveHookOptions := mkResolveHookOptions {
  ho_attributes : list (string * string);
  ho_custom : option string;
  ho_isEntry : bool;
  ho_ssr : bool;
  ho_scan : bool
}.

(** The options of [this.resolve]. *)
Record ThisResolveOptions := mkThisResolveOptions {
  tr_attributes : option (list (string * string));
  tr_custom : option string;
  tr_isEntry : option bool;
  tr_skipSelf : option bool
}.

(** The options of [container.transform]. *)
Record TransformOptions := mkTransformOptions {
  to_inMap : MapField
}.

(** The options a [transform] handler receives: [{...options, ssr}]. *)
Record TransformHookOptions := mkTransformHookOptions {
  tho_inMap : MapField;
  tho_ssr : bool
}.

(** ** Plugins and their hooks

    A hook is a program that returns, throws, or calls [this.resolve] and
    goes on with what that call gave: the resolved id or null, or the error
    it threw.  These are the handlers that use their context through
    [this.resolve] only: a hook of this type cannot call [this.load],
    [this.getModuleInfo], [this.addWatchFile] or the other methods of the
    context, and what is proved for all hooks is proved for such
    handlers. *)
Inductive Hook (R : Type) : Type :=
| Ret (r : R)
| Throw (e : Error)
| ThisResolve (id : string) (importer : option string)
    (options : option ThisResolveOptions)
    (k : Error + option PartialResolvedId → Hook R).
Arguments Ret {R} r.
Arguments Throw {R} e.
Arguments ThisResolve {R} id importer options k.

(** A plugin, identified as an object by [pid]; each hook field holds the
    handler [getHookHandler] extracts, if the plugin has the hook. *)
Record Plugin := mkPlugin {
  pid : nat;
  name : string;
  resolveId : option (string → string → ResolveHookOptions → Hook ResolveIdResult);
  load : option (string → bool → Hook LoadResult);
  transform :
    option (string → string → TransformHookOptions → Hook TransformResult)
}.

Inductive HookName := HResolveId | HLoad | HTransform.

(** ** Contexts *)

(** The fields of [Context] that hooks of the three pipelines can reach. *)
Record Context := mkContext {
  _activePlugin : option nat;
  _activeId : option string;
  _activeCode : option string;
  _resolveSkips : option (gset nat);
  _scan : bool
}.

(** [new Context()] *)
Definition newContext : Context :=
  {| _activePlugin := None; _activeId := None; _activeCode := None;
     _resolveSkips := None; _scan := false |}.

Record TransformContext := mkTransformContext {
  base : Context;
  filename : string;
  originalCode : string;
  sourcemapChain : list MapInput;
  combinedMap : option SourceMap
}.

(** ** The container's surroundings *)

(** A node of the module graph as [getModuleInfo] and [_updateModuleInfo]
    use it. *)
Record ModuleInfo := mkModuleInfo {
  mi_id : string;
  mi_meta : Meta
}.

Record GraphNode := mkGraphNode {
  gn_meta : option Meta;
  gn_info : option ModuleInfo
}.

(** The mutable state one container works on: its [closed] flag and the
    module graph of its environment ([None] outside dev mode), by id. *)
Record St := mkSt {
  closed : bool;
  moduleGraph : option (gmap string GraphNode)
}.

(** The environment's constants, the sorted plugin lists
    ([createPluginHookUtils] is imported from ../plugins) and the imported
    helpers.  [defaultImporter] is [join(root, 'index.html')];
    [generateMap code source] is
    [new MagicString(code).generateMap({includeContent: true, hires: 'boundary', source})].
    [formatError], the enrichment [ctx.error] applies to an error before
    throwing it, is taken as given as well: nothing below depends on what
    it adds. *)
Record Env := mkEnv {
  recoverable : bool;
  ssr : bool;
  defaultImporter : string;
  getSortedPlugins : HookName → list Plugin;
  isExternalUrl : string → bool;
  normalizePath : string → string;
  cleanUrl : string → string;
  JSON_parse : string → Error + SourceMap;
  combineSourcemaps : string → SourceMap → SourceMap → SourceMap;
  generateMap : string → string → SourceMap;
  formatError : Error → TransformContext → Error
}.

#[local] Unset Elimination Schemes.

(** What a call of the container did: the handlers its loop invoked, in
    order, each with the calls made from inside that handler. *)
Inductive Event :=
| HookCall (hook : HookName) (plugin : nat) (args : list string)
    (inner : list Event).
#[local] Set Elimination Schemes.

Definition ev_plugin (e : Event) : nat :=
  match e with HookCall _ p _ _ => p end.

Definition ev_hook (e : Event) : HookName :=
  match e with HookCall h _ _ _ => h end.

Definition ev_inner (e : Event) : list Event :=
  match e with HookCall _ _ _ i => i end.

Section Operations.

Context (E : Env).

(** ** Module info *)

Definition getModuleById (st : St) (id : string) : option GraphNode :=
  match moduleGraph st with
  | Some g => g !! id
  | None => None
  end.

(** [module.info], created on first use from [module.meta || EMPTY_OBJECT]. *)
Definition infoOf (id : string) (n : GraphNode) : ModuleInfo :=
  match gn_info n with
  | Some i => i
  | None => {| mi_id := id; mi_meta := default ∅ (gn_meta n) |}
  end.

(** [getModuleInfo(id)]: the info of the module, and the state in which the
    module holds it. *)
Definition getModuleInfo (id : string) (st : St) : option ModuleInfo * St :=
  match moduleGraph st with
  | Some g =>
      match g !! id with
      | Some n =>
          let i := infoOf id n in
          (Some i,
           {| closed := closed st;
              moduleGraph :=
                Some (<[id := {| gn_meta := gn_meta n; gn_info := Some i |}]> g) |})
      | None => (None, st)
      end
  | None => (None, st)
  end.

(** [_updateModuleInfo(id, {meta})] *)
Definition _updateModuleInfo (id : string) (meta : option Meta) (st : St) : St :=
  match meta with
  | Some meta =>
      match moduleGraph st with
      | Some g =>
          match g !! id with
          | Some n =>
              let i := infoOf id n in
              {| closed := closed st;
                 moduleGraph :=
                   Some (<[id := {| gn_meta := gn_meta n;
                                    gn_info :=
                                      Some {| mi_id := mi_id i;
                                              mi_meta := spread (mi_meta i) meta |} |}]>
                           g) |}
          | None => st
          end
      | None => st
      end
  | None => st
  end.

(** ** Re-entry: [this.resolve] *)

(** The type of [container.resolveId]: from the state and the arguments to
    the outcome, the new state and the handlers invoked. *)
Definition ResolveFn : Type :=
  St → string → option string → option ResolveIdOptions →
  Outcome (option PartialResolvedId) * St * list Event.

(** [options?.skipSelf !== false] *)
Definition skipSelfRequested (options : option ThisResolveOptions) : bool :=
  match options with
  | Some o =>
      match tr_skipSelf o with
      | Some false => false
      | _ => true
      end
  | None => true
  end.

(** The skip set [this.resolve] hands to [container.resolveId]. *)
Definition resolveSkip (ctx : Context) (options : option ThisResolveOptions)
  : option (gset nat) :=
  match _activePlugin ctx with
  | Some p =>
      if skipSelfRequested options
      then Some (default ∅ (_resolveSkips ctx) ∪ {[p]})
      else None
  | None => None
  end.

(** The options [this.resolve] hands to [container.resolveId]. *)
Definition thisResolveOptions (ctx : Context)
    (options : option ThisResolveOptions) : ResolveIdOptions :=
  {| ro_attributes := options ≫= tr_attributes;
     ro_custom := options ≫= tr_custom;
     ro_isEntry := Some (default false (options ≫= tr_isEntry));
     ro_skip := resolveSkip ctx options;
     ro_scan := Some (_scan ctx) |}.

(** [Context.resolve(id, importer, options)].  [container.resolveId] never
    returns a string, so [out] is returned as it is. *)
Definition Context_resolve (resolve : ResolveFn) (ctx : Context) (st : St)
    (id : string) (importer : option string)
    (options : option ThisResolveOptions)
  : Outcome (option PartialResolvedId) * St * list Event :=
  resolve st id importer (Some (thisResolveOptions ctx options)).

(** Running a handler on the context [ctx]. *)
Fixpoint run_hook {R : Type} (resolve : ResolveFn) (ctx : Context)
    (h : Hook R) (st : St) : Outcome R * St * list Event :=
  match h with
  | Ret r => (Ok r, st, [])
  | Throw e => (Throws e, st, [])
  | ThisResolve id importer options k =>
      let '(out, st1, tr1) := Context_resolve resolve ctx st id importer options in
      match out with
      | Ok v =>
          let '(r, st2, tr2) := run_hook resolve ctx (k (inr v)) st1 in
          (r, st2, (tr1 ++ tr2)%list)
      | Throws e =>
          let '(r, st2, tr2) := run_hook resolve ctx (k (inl e)) st1 in
          (r, st2, (tr1 ++ tr2)%list)
      | OutOfFuel => (OutOfFuel, st1, tr1)
      end
  end.

Definition setActivePlugin (p : nat) (ctx : Context) : Context :=
  {| _activePlugin := Some p; _activeId := _activeId ctx;
     _activeCode := _activeCode ctx; _resolveSkips := _resolveSkips ctx;
     _scan := _scan ctx |}.

(** ** resolveId *)

(** [skip?.has(plugin)] *)
Definition skipHas (skip : option (gset nat)) (p : nat) : bool :=
  match skip with
  | Some s => bool_decide (p ∈ s)
  | None => false
  end.

(** The [for] loop of [resolveId] over the plugins still to visit.  It ends
    with [id] and [partial] as the [break] leaves them, or with [None] when
    it runs to its end with [id] still null. *)
Fixpoint resolveId_loop (resolve : ResolveFn) (ctx : Context)
    (rawId importer : string) (hopts : ResolveHookOptions)
    (skip : option (gset nat)) (plugins : list Plugin) (st : St)
  : Outcome (option PartialResolvedId) * St * list Event :=
  match plugins with
  | [] => (Ok None, st, [])
  | plugin :: rest =>
      if closed st && recoverable E then (Throws closedServerError, st, [])
      else
        match resolveId plugin with
        | None => resolveId_loop resolve ctx rawId importer hopts skip rest st
        | Some handler =>
            if skipHas skip (pid plugin)
            then resolveId_loop resolve ctx rawId importer hopts skip rest st
            else
              let ctx1 := setActivePlugin (pid plugin) ctx in
              let '(res, st1, inner) :=
                run_hook resolve ctx1 (handler rawId importer hopts) st in
              let ev := HookCall HResolveId (pid plugin) [rawId] inner in
              let continue :=
                let '(r, st2, tr) :=
                  resolveId_loop resolve ctx1 rawId importer hopts skip rest st1 in
                (r, st2, ev :: tr) in
              match res with
              | Ok RNull | Ok RUndefined | Ok RFalse => continue
              | Ok (RString s) =>
                  if truthy_str s
                  then (Ok (Some {| rid_id := s; rid_props := [] |}), st1, [ev])
                  else continue
              | Ok (RObject o) => (Ok (Some o), st1, [ev])
              | Throws e => (Throws e, st1, [ev])
              | OutOfFuel => (OutOfFuel, st1, [ev])
              end
        end
  end.

(** The context [resolveId] creates: [new Context()] with
    [_resolveSkips = options?.skip] and [_scan = !!options?.scan]. *)
Definition resolveIdContext (options : option ResolveIdOptions) : Context :=
  {| _activePlugin := None; _activeId := None; _activeCode := None;
     _resolveSkips := options ≫= ro_skip;
     _scan := default false (options ≫= ro_scan) |}.

(** The options [resolveId] hands to the handlers. *)
Definition resolveIdHookOptions (options : option ResolveIdOptions)
  : ResolveHookOptions :=
  {| ho_attributes := default [] (options ≫= ro_attributes);
     ho_custom := options ≫= ro_custom;
     ho_isEntry := default false (options ≫= ro_isEntry);
     ho_ssr := ssr E;
     ho_scan := default false (options ≫= ro_scan) |}.

(** The end of [resolveId]: [partial] with its normalized [id], or null. *)
Definition resolveIdReturn (found : option PartialResolvedId)
  : option PartialResolvedId :=
  match found with
  | Some partial =>
      let id := rid_id partial in
      if truthy_str id
      then Some {| rid_id := if isExternalUrl E id then id
                             else normalizePath E id;
                   rid_props := rid_props partial |}
      else None
  | None => None
  end.

(** The body of [container.resolveId], with the function to re-enter. *)
Definition resolveId_body (resolve : ResolveFn) : ResolveFn :=
  fun st rawId importer options =>
    let '(r, st1, tr) :=
      resolveId_loop resolve (resolveIdContext options) rawId
        (default (defaultImporter E) importer)
        (resolveIdHookOptions options) (options ≫= ro_skip)
        (getSortedPlugins E HResolveId) st in
    match r with
    | Ok found => (Ok (resolveIdReturn found), st1, tr)
    | Throws e => (Throws e, st1, tr)
    | OutOfFuel => (OutOfFuel, st1, tr)
    end.

(** [container.resolveId], re-entered at most [fuel] deep. *)
Fixpoint container_resolveId (fuel : nat) : ResolveFn :=
  match fuel with
  | 0 => fun st _ _ _ => (OutOfFuel, st, [])
  | S fuel' => resolveId_body (container_resolveId fuel')
  end.

(** ** load *)

(** The [for] loop of [load]; [ssr0] is the [ssr] the handlers receive in
    their options.  The table of imports added during [load] is not part of
    this development. *)
Fixpoint load_loop (resolve : ResolveFn) (ctx : Context) (id : string)
    (ssr0 : bool) (plugins : list Plugin) (st : St)
  : Outcome LoadResult * St * list Event :=
  match plugins with
  | [] => (Ok LNull, st, [])
  | plugin :: rest =>
      if closed st && recoverable E then (Throws closedServerError, st, [])
      else
        match load plugin with
        | None => load_loop resolve ctx id ssr0 rest st
        | Some handler =>
            let ctx1 := setActivePlugin (pid plugin) ctx in
            let '(res, st1, inner) := run_hook resolve ctx1 (handler id ssr0) st in
            let ev := HookCall HLoad (pid plugin) [id] inner in
            match res with
            | Ok LNull | Ok LUndefined =>
                let '(r, st2, tr) := load_loop resolve ctx1 id ssr0 rest st1 in
                (r, st2, ev :: tr)
            | Ok (LString s) => (Ok (LString s), st1, [ev])
            | Ok (LObject o) =>
                (Ok (LObject o), _updateModuleInfo id (sd_meta o) st1, [ev])
            | Throws e => (Throws e, st1, [ev])
            | OutOfFuel => (OutOfFuel, st1, [ev])
            end
        end
  end.

(** [container.load(id)], its handlers re-entering [resolveId] at most
    [fuel] deep. *)
Definition container_load (fuel : nat) (st : St) (id : string)
  : Outcome LoadResult * St * list Event :=
  load_loop (container_resolveId fuel) newContext id (ssr E)
    (getSortedPlugins E HLoad) st.

(** ** The transform context and its source-map chain *)

(** [new TransformContext(id, code, inMap)] *)
Definition newTransformContext (id code : string) (inMap : MapField)
  : TransformContext :=
  {| base := newContext; filename := id; originalCode := code;
     sourcemapChain := match truthy_map inMap with
                       | Some m => [m]
                       | None => []
                       end;
     combinedMap := None |}.

(** The object literal [{ mappings: '' }]. *)
Definition emptyMap : SourceMap :=
  {| version := None; mappings := ""; sources := [];
     sourcesContent := None; names := [] |}.

(** [!('version' in m) && m.mappings === ''] *)
Definition isEmptyMap (m : SourceMap) : bool :=
  match version m with
  | None => String.eqb (mappings m) ""
  | Some _ => false
  end.

(** [sm.sources.length === 1 && !sm.sources[0]] *)
Definition hasBlankSource (sm : SourceMap) : bool :=
  match sources sm with
  | [s] => negb (truthy_ostr s)
  | _ => false
  end.

(** [{...sm, sources: [filename], sourcesContent: [originalCode]}] *)
Definition withSource (sm : SourceMap) (file code : string) : SourceMap :=
  {| version := version sm; mappings := mappings sm;
     sources := [Some file]; sourcesContent := Some [Some code];
     names := names sm |}.

(** [typeof m === 'string' ? JSON.parse(m) : m] *)
Definition parsed (m : MapInput) : Error + SourceMap :=
  match m with
  | MapStr s => JSON_parse E s
  | MapObj o => inr o
  end.

(** The [for] loop of [_getCombinedSourcemap] over the members still to
    visit.  [cur] is the local [combinedMap]; [same] tells whether it is
    still the object [this.combinedMap] holds, which it is until the loop
    assigns to it: the objects assigned are new ones, or a member of the
    chain at a point where [this.combinedMap] is null. *)
Fixpoint combineChain (file code : string) (chain : list MapInput)
    (cur : option SourceMap) (same : bool)
  : Outcome (option SourceMap * bool) :=
  match chain with
  | [] => Ok (cur, same)
  | m :: rest =>
      match parsed m with
      | inl e => Throws e
      | inr m =>
          match version m with
          | None =>
              if String.eqb (mappings m) "" then Ok (Some emptyMap, false)
              else Ok (None, false)
          | Some _ =>
              match cur with
              | None =>
                  let sm := m in
                  combineChain file code rest
                    (Some (if hasBlankSource sm then withSource sm file code
                           else sm))
                    false
              | Some c =>
                  combineChain file code rest
                    (Some (combineSourcemaps E (cleanUrl E file) m c)) false
              end
          end
      end
  end.

(** [combinedMap !== this.combinedMap] after the loop. *)
Definition differs (cur : option SourceMap) (same : bool)
    (stored : option SourceMap) : bool :=
  match cur with
  | None => bool_decide (is_Some stored)
  | Some _ => negb same
  end.

Definition setChain (chain : list MapInput) (ctx : TransformContext)
  : TransformContext :=
  {| base := base ctx; filename := filename ctx;
     originalCode := originalCode ctx;
     sourcemapChain := chain; combinedMap := combinedMap ctx |}.

Definition setCombinedMap (m : option SourceMap) (ctx : TransformContext)
  : TransformContext :=
  {| base := base ctx; filename := filename ctx;
     originalCode := originalCode ctx;
     sourcemapChain := sourcemapChain ctx; combinedMap := m |}.

Definition _getCombinedSourcemap (ctx : TransformContext)
  : Outcome (option SourceMap) * TransformContext :=
  let stored := combinedMap ctx in
  if match stored with Some c => isEmptyMap c | None => false end
  then (Ok stored, setChain [] ctx)
  else
    match combineChain (filename ctx) (originalCode ctx) (sourcemapChain ctx)
            stored true with
    | Ok (cur, same) =>
        if differs cur same stored
        then (Ok cur, setChain [] (setCombinedMap cur ctx))
        else (Ok stored, ctx)
    | Throws e => (Throws e, ctx)
    | OutOfFuel => (OutOfFuel, ctx)
    end.

Definition getCombinedSourcemap (ctx : TransformContext)
  : Outcome SourceMap * TransformContext :=
  let '(r, ctx1) := _getCombinedSourcemap ctx in
  match r with
  | Ok (Some map) =>
      if isEmptyMap map
      then (Ok (generateMap E (originalCode ctx1) (cleanUrl E (filename ctx1))),
            ctx1)
      else (Ok map, ctx1)
  | Ok None =>
      (Ok (generateMap E (originalCode ctx1) (cleanUrl E (filename ctx1))), ctx1)
  | Throws e => (Throws e, ctx1)
  | OutOfFuel => (OutOfFuel, ctx1)
  end.

(** ** transform *)

Definition activate (p : nat) (id code : string) (ctx : TransformContext)
  : TransformContext :=
  {| base := {| _activePlugin := Some p; _activeId := Some id;
                _activeCode := Some code;
                _resolveSkips := _resolveSkips (base ctx);
                _scan := _scan (base ctx) |};
     filename := filename ctx; originalCode := originalCode ctx;
     sourcemapChain := sourcemapChain ctx; combinedMap := combinedMap ctx |}.

(** [ctx.sourcemapChain.push(map)] *)
Definition pushMap (m : MapInput) (ctx : TransformContext) : TransformContext :=
  setChain (sourcemapChain ctx ++ [m]) ctx.

(** The [for] loop of [transform] over the plugins still to visit, from the
    running [code]; it ends with the context and the code. *)
Fixpoint transform_loop (resolve : ResolveFn) (ctx : TransformContext)
    (code id : string) (hopts : TransformHookOptions)
    (plugins : list Plugin) (st : St)
  : Outcome (TransformContext * string) * St * list Event :=
  match plugins with
  | [] => (Ok (ctx, code), st, [])
  | plugin :: rest =>
      if closed st && recoverable E then (Throws closedServerError, st, [])
      else
        match transform plugin with
        | None => transform_loop resolve ctx code id hopts rest st
        | Some handler =>
            let ctx1 := activate (pid plugin) id code ctx in
            let '(res, st1, inner) :=
              run_hook resolve (base ctx1) (handler code id hopts) st in
            let ev := HookCall HTransform (pid plugin) [code; id] inner in
            let continue ctx2 code2 st2 :=
              let '(r, st3, tr) :=
                transform_loop resolve ctx2 code2 id hopts rest st2 in
              (r, st3, ev :: tr) in
            match res with
            | Ok TNull | Ok TUndefined => continue ctx1 code st1
            | Ok (TString s) =>
                if truthy_str s then continue ctx1 s st1
                else continue ctx1 code st1
            | Ok (TObject result) =>
                let '(code2, ctx2) :=
                  match sd_code result with
                  | Some c =>
                      (c, match truthy_map (sd_map result) with
                          | Some m => pushMap m ctx1
                          | None => ctx1
                          end)
                  | None => (code, ctx1)
                  end in
                continue ctx2 code2 (_updateModuleInfo id (sd_meta result) st1)
            | Throws e => (Throws (formatError E e ctx1), st1, [ev])
            | OutOfFuel => (OutOfFuel, st1, [ev])
            end
        end
  end.

(** What [container.transform] returns. *)
Record TransformOutput := mkTransformOutput {
  out_code : string;
  out_map : option SourceMap
}.

(** [container.transform(code, id, options)], its handlers re-entering
    [resolveId] at most [fuel] deep. *)
Definition container_transform (fuel : nat) (st : St) (code id : string)
    (options : option TransformOptions)
  : Outcome TransformOutput * St * list Event :=
  let inMap := match options with
               | Some o => to_inMap o
               | None => MapUndefined
               end in
  let ctx := newTransformContext id code inMap in
  let '(r, st1, tr) :=
    transform_loop (container_resolveId fuel) ctx code id
      {| tho_inMap := inMap; tho_ssr := ssr E |}
      (getSortedPlugins E HTransform) st in
  match r with
  | Ok (ctx1, code1) =>
      match fst (_getCombinedSourcemap ctx1) with
      | Ok map => (Ok {| out_code := code1; out_map := map |}, st1, tr)
      | Throws e => (Throws e, st1, tr)
      | OutOfFuel => (OutOfFuel, st1, tr)
      end
  | Throws e => (Throws e, st1, tr)
  | OutOfFuel => (OutOfFuel, st1, tr)
  end.

(** ** close *)

Definition setClosed (b : bool) (st : St) : St :=
  {| closed := b; moduleGraph := moduleGraph st |}.

(** [container.close()], as far as the three pipelines can tell: the flag
    is set once.  The wait for the pending hook promises and the
    [buildEnd] and [closeBundle] phases are not part of this development. *)
Definition close (st : St) : St :=
  if closed st then st else setClosed true st.

End Operations.

(** ** Vocabulary of the properties *)

(** The result of a call with [f] applied to the state it leaves. *)
Definition onState {A : Type} (f : St → St) (x : A * St * list Event)
  : A * St * list Event :=
  let '(r, st, tr) := x in (r, f st, tr).

(** [resolve] neither reads nor writes the [closed] flag. *)
Definition closed_blind (resolve : ResolveFn) : Prop :=
  ∀ b st id importer options,
    resolve (setClosed b st) id importer options
    = onState (setClosed b) (resolve st id importer options).

(** The plugins whose handlers a list of events names, in order. *)
Definition visited (tr : list Event) : list nat := map ev_plugin tr.

(** [resolveId] calls the handler of [p]: it has the hook and is not
    skipped. *)
Definition resolvable (skip : option (gset nat)) (p : Plugin) : bool :=
  match resolveId p with
  | Some _ => negb (skipHas skip (pid p))
  | None => false
  end.

(** [load] calls the handler of [p]. *)
Definition loadable (p : Plugin) : bool :=
  match load p with
  | Some _ => true
  | None => false
  end.

(** A [resolveId] result that ends the loop: [if (!result) continue]. *)
Definition truthy_resolved (r : ResolveIdResult) : option PartialResolvedId :=
  match r with
  | RString s =>
      if truthy_str s then Some {| rid_id := s; rid_props := [] |} else None
  | RObject o => Some o
  | _ => None
  end.

(** A [load] result that ends the loop: [result != null]. *)
Definition non_null_loaded (r : LoadResult) : bool :=
  match r with
  | LNull | LUndefined => false
  | _ => true
  end.

(** The plugins whose handlers an event names, at any depth: its own and
    those of the calls made from inside the handler. *)
Fixpoint reached (e : Event) : list nat :=
  match e with
  | HookCall _ p _ inner => p :: flat_map reached inner
  end.

Definition reachedAll (tr : list Event) : list nat := flat_map reached tr.

(** A hook that never asks [this.resolve] for [skipSelf: false]. *)
Inductive keepsSkips {R : Type} : Hook R → Prop :=
| keeps_ret r : keepsSkips (Ret r)
| keeps_throw e : keepsSkips (Throw e)
| keeps_resolve id importer options k :
    skipSelfRequested options = true →
    (∀ x, keepsSkips (k x)) →
    keepsSkips (ThisResolve id importer options k).

(** [resolve], called with a skip set that holds [p], reaches no handler of
    [p] at any depth. *)
Definition never_reaches (p : nat) (resolve : ResolveFn) : Prop :=
  ∀ st id importer options s,
    options ≫= ro_skip = Some s → p ∈ s →
    p ∉ reachedAll (resolve st id importer options).2.

Section SourceMapVocabulary.

Context (E : Env).

(** The member [m] of a chain reads as the map [o], which has a version. *)
Definition versioned (m : MapInput) (o : SourceMap) : Prop :=
  parsed E m = inr o ∧ is_Some (version o).

(** Merging one more map [o] into what was combined so far: the first map
    is taken as it is, with its blank source filled in; a later one is
    combined with what came before it. *)
Definition mergeStep (file code : string) (acc : option SourceMap)
    (o : SourceMap) : option SourceMap :=
  Some match acc with
       | None => if hasBlankSource o then withSource o file code else o
       | Some c => combineSourcemaps E (cleanUrl E file) o c
       end.

(** The maps merged from left to right, starting from [acc]. *)
Definition mergeAll (file code : string) (maps : list SourceMap)
    (acc : option SourceMap) : option SourceMap :=
  fold_left (mergeStep file code) maps acc.

(** The map [getCombinedSourcemap] puts in the place of a missing or empty
    one. *)
Definition identityMap (ctx : TransformContext) : SourceMap :=
  generateMap E (originalCode ctx) (cleanUrl E (filename ctx)).

End SourceMapVocabulary.

(** The stored combined map is the empty sentinel. *)
Definition storedEmpty (ctx : TransformContext) : bool :=
  match combinedMap ctx with
  | Some c => isEmptyMap c
  | None => false
  end.

End PluginContainer.

(* ===================================================================== *)
(** * Plugins and containers to run the pipelines on                      *)
(* ===================================================================== *)

Module Scenarios.

Import PluginContainer.

(** A container for the sorted plugins [ps], the same list for every hook,
    with helpers that leave paths alone and a [generateMap] that maps a
    non-empty code with one segment. *)
Definition containerOf (rec : bool) (ps : list Plugin) : Env :=
  {| recoverable := rec; ssr := false;
     defaultImporter := "/root/index.html";
     getSortedPlugins := fun _ => ps;
     isExternalUrl := fun _ => false;
     normalizePath := fun s => s;
     cleanUrl := fun s => s;
     JSON_parse := fun s =>
       inl {| err_message := "Unexpected token"; err_code := None |};
     combineSourcemaps := fun _ m c =>
       {| version := Some 3%Z; mappings := mappings m;
          sources := sources c; sourcesContent := sourcesContent c;
          names := names m |};
     generateMap := fun code source =>
       {| version := Some 3%Z;
          mappings := if truthy_str code then "AAAA" else "";
          sources := [Some source]; sourcesContent := Some [Some code];
          names := [] |};
     formatError := fun e _ => e |}.

Definition openState : St := {| closed := false; moduleGraph := Some ∅ |}.

(** A plugin with a [resolveId] hook only. *)
Definition resolver (p : nat) (nm : string)
    (h : string → string → ResolveHookOptions → Hook ResolveIdResult)
  : Plugin :=
  {| pid := p; name := nm; resolveId := Some h; load := None;
     transform := None |}.

(** A plugin with a [transform] hook only. *)
Definition transformer (p : nat) (nm : string)
    (h : string → string → TransformHookOptions → Hook TransformResult)
  : Plugin :=
  {| pid := p; name := nm; resolveId := None; load := None;
     transform := Some h |}.

(** A plugin with a [load] hook only. *)
Definition loader (p : nat) (nm : string) (h : string → bool → Hook LoadResult)
  : Plugin :=
  {| pid := p; name := nm; resolveId := None; load := Some h;
     transform := None |}.

(** Scenario A: P1 returns null, P2 "/abs/a.js", P3 "/abs/b.js". *)
Definition scenarioA : list Plugin :=
  [ resolver 1 "P1" (fun _ _ _ => Ret RNull);
    resolver 2 "P2" (fun _ _ _ => Ret (RString "/abs/a.js"));
    resolver 3 "P3" (fun _ _ _ => Ret (RString "/abs/b.js")) ].

(** A first plugin that answers [false], the value Rollup reads as
    "external", before a plugin that resolves. *)
Definition externalThenResolved : list Plugin :=
  [ resolver 1 "marks-external" (fun _ _ _ => Ret RFalse);
    resolver 2 "resolves" (fun _ _ _ => Ret (RString "/abs/b.js")) ].

(** "deps" resolves "dep" and nothing else; "main" resolves "main" by
    asking [this.resolve("dep", importer, options)] and returns what it
    gets. *)
Definition askingFor (options : option ThisResolveOptions) : list Plugin :=
  [ resolver 1 "deps"
      (fun id _ _ =>
         if String.eqb id "dep" then Ret (RString "/dep.js") else Ret RNull);
    resolver 2 "main"
      (fun id importer _ =>
         if String.eqb id "main"
         then ThisResolve "dep" (Some importer) options
                (fun r => match r with
                          | inr (Some o) => Ret (RObject o)
                          | inr None => Ret RNull
                          | inl e => Throw e
                          end)
         else Ret RNull) ].

(** A single plugin that resolves "main" to "/main.js" and every other id
    by asking [this.resolve("main", importer, options)]. *)
Definition selfAsking (options : option ThisResolveOptions) : list Plugin :=
  [ resolver 7 "self"
      (fun id importer _ =>
         if String.eqb id "main" then Ret (RString "/main.js")
         else ThisResolve "main" (Some importer) options
                (fun r => match r with
                          | inr (Some o) => Ret (RObject o)
                          | inr None => Ret RNull
                          | inl e => Throw e
                          end)) ].

(** Three loaders: the first knows nothing, the second loads an empty
    file, the third would load something else. *)
Definition emptyCodeLoaded : list Plugin :=
  [ loader 1 "L1" (fun _ _ => Ret LNull);
    loader 2 "L2" (fun _ _ => Ret (LString ""));
    loader 3 "L3" (fun _ _ => Ret (LString "export {}")) ].

Definition skipSelfFalse : option ThisResolveOptions :=
  Some {| tr_attributes := None; tr_custom := None; tr_isEntry := None;
          tr_skipSelf := Some false |}.

(** The map of scenario B. *)
Definition mapB : SourceMap :=
  {| version := Some 3%Z; mappings := "AAAA"; sources := [Some ""];
     sourcesContent := None; names := [] |}.

(** Scenario B: p1 returns [{code: "Y", map: mapB}], p2 [{code: "Z"}]. *)
Definition resultB1 : SourceDescription :=
  {| sd_code := Some "Y"; sd_map := MapVal (MapObj mapB); sd_meta := None |}.

Definition handlerB1 (code id : string) (options : TransformHookOptions)
  : Hook TransformResult :=
  Ret (TObject resultB1).

Definition pluginB1 : Plugin := transformer 1 "p1" handlerB1.

Definition pluginB2 : Plugin :=
  transformer 2 "p2"
    (fun _ _ _ => Ret (TObject {| sd_code := Some "Z";
                                  sd_map := MapUndefined;
                                  sd_meta := None |})).

Definition scenarioB : list Plugin := [pluginB1; pluginB2].

(** A plugin whose [transform] returns a map and no code:
    [{map: mapB}]. *)
Definition mapWithoutCode : list Plugin :=
  [ transformer 1 "map-only"
      (fun _ _ _ => Ret (TObject {| sd_code := None;
                                    sd_map := MapVal (MapObj mapB);
                                    sd_meta := None |})) ].

(** An object without [version] whose [mappings] are not empty. *)
Definition nullifiedMap : SourceMap :=
  {| version := None; mappings := "AAAA"; sources := [];
     sourcesContent := None; names := [] |}.

(** A versioned map whose [mappings] are empty. *)
Definition versionedEmptyMap : SourceMap :=
  {| version := Some 3%Z; mappings := ""; sources := [Some "/f.js"];
     sourcesContent := None; names := [] |}.

Definition contextWith (chain : list MapInput) (stored : option SourceMap)
  : TransformContext :=
  {| base := newContext; filename := "/f.js"; originalCode := "X";
     sourcemapChain := chain; combinedMap := stored |}.

End Scenarios.

(* ===================================================================== *)
(** * What a finder keeps from one event to the next                      *)
(* ===================================================================== *)

Module CrawlEndInvariants.

Import CrawlEnd.

(** Every registered id was seen and has work pending; [done] was called
    for the ids with pending work, once each, and only for seen ids. *)
Definition tracks_pending_work (f : Finder) : Prop :=
  (registeredIds f ⊆ seenIds f) ∧
  (registeredIds f ⊆ donePending f) ∧
  NoDup (doneInvoked f) ∧
  (∀ id, id ∈ donePending f → id ∈ doneInvoked f) ∧
  (∀ id, id ∈ doneInvoked f → id ∈ seenIds f).

(** The only timer that can be armed is the one [timeoutHandle] holds. *)
Definition one_timer (f : Finder) : Prop :=
  ∀ h, h ∈ armed f → timeoutHandle f = Some h.

(** A finder that is idle after some registration, not cancelled and not
    done, has a timer armed. *)
Definition idle_has_timer (f : Finder) : Prop :=
  cancelled f = false → crawlEndCalled f = false →
  registeredIds f = ∅ → doneInvoked f ≠ [] → armed f ≠ ∅.

End CrawlEndInvariants.

(* ===================================================================== *)
(** * The crawl-end side of DevEnvironment (environment.ts)               *)
(* ===================================================================== *)

Module DevCrawl.

Import CrawlEnd.

(** A callback given to [_onCrawlEnd]: it is named by a number, and
    [cb_returns] tells how its call ends: it returns, or it throws. *)
Record Callback := mkCallback {
  cb_name : nat;
  cb_returns : bool
}.

(** The fields of [DevEnvironment] around its crawl-end finder.
    [callbackCalls] lists the callbacks called so far, in the order of the
    calls. *)
Record CrawlEnv := mkCrawlEnv {
  _closing : bool;
  _onCrawlEndCallbacks : list Callback;
  _crawlEndFinder : Finder;
  callbackCalls : list nat
}.

(** [cbs.forEach((cb) => cb())]: the callbacks called, in order, and
    whether the loop returns.  A callback that throws ends the loop. *)
Fixpoint forEachCall (cbs : list Callback) : list nat * bool :=
  match cbs with
  | [] => ([], true)
  | cb :: rest =>
      if cb_returns cb
      then let '(called, returns) := forEachCall rest in
           (cb_name cb :: called, returns)
      else ([cb_name cb], false)
  end.

(** The constructor: no callback yet, and
    [setupOnCrawlEnd(() => this._onCrawlEndCallbacks.forEach((cb) => cb()))]. *)
Definition newCrawlEnv : CrawlEnv :=
  {| _closing := false; _onCrawlEndCallbacks := [];
     _crawlEndFinder := setupOnCrawlEnd; callbackCalls := [] |}.

(** [_onCrawlEnd(cb)] *)
Definition _onCrawlEnd (cb : Callback) (env : CrawlEnv) : CrawlEnv :=
  {| _closing := _closing env;
     _onCrawlEndCallbacks := _onCrawlEndCallbacks env ++ [cb];
     _crawlEndFinder := _crawlEndFinder env;
     callbackCalls := callbackCalls env |}.

(** An event of the finder inside the environment.  The [onCrawlEnd] the
    finder was set up with runs [forEach] over the callbacks registered at
    that time; the finder counts the calls of [onCrawlEnd], so the
    callbacks run in the step in which that count goes up. *)
Definition onFinder (e : Event) (env : CrawlEnv) : CrawlEnv :=
  let f := _crawlEndFinder env in
  let f' := step f e in
  {| _closing := _closing env;
     _onCrawlEndCallbacks := _onCrawlEndCallbacks env;
     _crawlEndFinder := f';
     callbackCalls :=
       callbackCalls env ++
       (if Nat.eqb (onCrawlEndCalls f') (S (onCrawlEndCalls f))
        then (forEachCall (_onCrawlEndCallbacks env)).1 else []) |}.

(** [close()], as far as the finder goes: [_closing] is set and the finder
    cancelled.  The hot channel, the plugin container, the optimizer and
    the pending requests it closes or waits for are not part of this
    module. *)
Definition closeEnv (env : CrawlEnv) : CrawlEnv :=
  {| _closing := true;
     _onCrawlEndCallbacks := _onCrawlEndCallbacks env;
     _crawlEndFinder := cancel (_crawlEndFinder env);
     callbackCalls := callbackCalls env |}.

(** What can happen to the environment: the calls of its interface and
    the two moves of the event loop. *)
Inductive EnvEvent :=
| RegisterRequestProcessing (id : string)
| WaitForRequestsIdle (ignoredId : option string)
| OnCrawlEnd (cb : Callback)
| Close
| RequestSettles (id : string)
| DebounceFires (h : nat).

(** When the debounce timer fires, the call of [onCrawlEnd], if the
    finder makes it, ends as the [forEach] over the callbacks does. *)
Definition envStep (env : CrawlEnv) (e : EnvEvent) : CrawlEnv :=
  match e with
  | RegisterRequestProcessing id => onFinder (Register id) env
  | WaitForRequestsIdle ig => onFinder (WaitIdle ig) env
  | OnCrawlEnd cb => _onCrawlEnd cb env
  | Close => closeEnv env
  | RequestSettles id => onFinder (DoneSettles id) env
  | DebounceFires h =>
      onFinder (TimerFires h (forEachCall (_onCrawlEndCallbacks env)).2) env
  end.

Definition envRun (evs : list EnvEvent) (env : CrawlEnv) : CrawlEnv :=
  fold_left envStep evs env.

(** The callbacks were called, if ever, together and once. *)
Definition called_together (env : CrawlEnv) : Prop :=
  onCrawlEndCalls (_crawlEndFinder env)
  = (if crawlEndCalled (_crawlEndFinder env) then 1 else 0) ∧
  callbackCalls env `prefix_of` map cb_name (_onCrawlEndCallbacks env) ∧
  (crawlEndCalled (_crawlEndFinder env) = false → callbackCalls env = []).

(** Callbacks to try the environment on. *)
Definition cb1 : Callback := {| cb_name := 1; cb_returns := true |}.
Definition cb2 : Callback := {| cb_name := 2; cb_returns := true |}.
Definition cbThrows : Callback := {| cb_name := 3; cb_returns := false |}.

End DevCrawl.

(* ===================================================================== *)
(** * Further vocabulary of the plugin container                          *)
(* ===================================================================== *)

Module ContainerFrames.

Import PluginContainer.

(** [st'] differs from [st] at most in the node of the module [id]. *)
Definition same_except (id : string) (st st' : St) : Prop :=
  closed st' = closed st ∧
  ∀ id', id' ≠ id → getModuleById st' id' = getModuleById st id'.

(** [resolve] hands the state back as it got it. *)
Definition read_only (resolve : ResolveFn) : Prop :=
  ∀ st id importer options, (resolve st id importer options).1.2 = st.

(** The maps [ms] pushed onto the chain, one after the other. *)
Definition pushAll (ms : list MapInput) (ctx : TransformContext)
  : TransformContext :=
  fold_left (λ c m, pushMap m c) ms ctx.

End ContainerFrames.

(* ===================================================================== *)
(** * Error enrichment (pluginContainer.ts, formatError)                  *)
(* ===================================================================== *)

Module ErrorFormat.

Import PluginContainer.

(** A position given to [this.error] or found on an error: an offset or a
    [{line, column}] object. *)
Inductive Position :=
| Offset (n : Z)
| LineColumn (line column : Z).

(** [err.loc]; [loc_line] and [loc_column] are [None] when the property
    is not a number. *)
Record Loc := mkLoc {
  loc_file : option string;
  loc_line : option Z;
  loc_column : option Z
}.

(** The properties of an error [formatError] reads or writes. *)
Record RollupError := mkRollupError {
  message : string;
  code : option string;
  plugin : option string;
  pluginCode : option string;
  id : option string;
  pos : option Z;
  position : option Position;
  loc : option Loc;
  frame : option string;
  line : option Z;
  column : option Z
}.

(** [new Error(e)] *)
Definition newError (msg : string) : RollupError :=
  {| message := msg; code := None; plugin := None; pluginCode := None;
     id := None; pos := None; position := None; loc := None; frame := None;
     line := None; column := None |}.

(** The context [formatError] is given: a [Context] or a
    [TransformContext]. *)
Inductive AnyContext :=
| PlainContext (c : Context)
| TransformCtx (t : TransformContext).

Definition baseOf (ctx : AnyContext) : Context :=
  match ctx with
  | PlainContext c => c
  | TransformCtx t => base t
  end.

(** Where a code frame is taken: at a position or at a [loc]. *)
Inductive FrameAt :=
| AtPosition (p : Position)
| AtLoc (l : Loc).

(** The helpers [formatError] imports, and the name of a plugin object.
    [numberToPos] gives the line and column of a position in a code, or
    the message of the error it throws; [readFileSync] gives [None] when
    it throws; [originalPositionFor m line column] is the
    [{source, line, column}] the trace of [m] gives. *)
Record ErrorImports := mkErrorImports {
  nameOf : nat → string;
  numberToPos : string → Position → string + (Z * Z);
  generateCodeFrame : string → FrameAt → string;
  readFileSync : string → option string;
  originalPositionFor : SourceMap → Z → Z → option string * option Z * option Z
}.

(** How [formatError] ends: it returns the error, throws it (when
    [numberToPos] fails), or an error of [_getCombinedSourcemap] comes
    through. *)
Inductive Formatted :=
| Returns (err : RollupError)
| ThrowsIt (err : RollupError)
| ThrowsOther (e : Error).

Definition setPlugin (v : option string) (e : RollupError) : RollupError :=
  {| message := message e; code := code e; plugin := v;
     pluginCode := pluginCode e; id := id e; pos := pos e;
     position := position e; loc := loc e; frame := frame e;
     line := line e; column := column e |}.

Definition setId (v : option string) (e : RollupError) : RollupError :=
  {| message := message e; code := code e; plugin := plugin e;
     pluginCode := pluginCode e; id := v; pos := pos e;
     position := position e; loc := loc e; frame := frame e;
     line := line e; column := column e |}.

Definition setPluginCode (v : option string) (e : RollupError) : RollupError :=
  {| message := message e; code := code e; plugin := plugin e;
     pluginCode := v; id := id e; pos := pos e;
     position := position e; loc := loc e; frame := frame e;
     line := line e; column := column e |}.

Definition setLoc (v : option Loc) (e : RollupError) : RollupError :=
  {| message := message e; code := code e; plugin := plugin e;
     pluginCode := pluginCode e; id := id e; pos := pos e;
     position := position e; loc := v; frame := frame e;
     line := line e; column := column e |}.

Definition setFrame (v : option string) (e : RollupError) : RollupError :=
  {| message := message e; code := code e; plugin := plugin e;
     pluginCode := pluginCode e; id := id e; pos := pos e;
     position := position e; loc := loc e; frame := v;
     line := line e; column := column e |}.

(** Truthiness of a number that may be missing: zero is falsy. *)
Definition truthy_num (n : option Z) : bool :=
  match n with
  | Some z => negb (Z.eqb z 0)
  | None => false
  end.

(** [err.frame = err.frame || frame] *)
Definition frameOr (new : string) (e : RollupError) : RollupError :=
  if truthy_ostr (frame e) then e else setFrame (Some new) e.

Section FormatError.

Context (E : Env) (X : ErrorImports).

(** The first lines of [formatError], after the early return:
    [err.plugin] and [err.id]. *)
Definition attribute (c : Context) (err : RollupError) : RollupError :=
  let err1 := match _activePlugin c with
              | Some p => setPlugin (Some (nameOf X p)) err
              | None => err
              end in
  if truthy_ostr (_activeId c) && negb (truthy_ostr (id err1))
  then setId (_activeId c) err1
  else err1.

(** The branch [else if (err.loc)] under an active code. *)
Definition frameFromLoc (activeCode : string) (l : Loc) (err : RollupError)
  : RollupError :=
  if truthy_ostr (frame err) then err
  else
    match loc_file l with
    | Some f =>
        if truthy_str f
        then
          let err1 := setId (Some (normalizePath E f)) err in
          let code := default activeCode (readFileSync X f) in
          setFrame (Some (generateCodeFrame X code (AtLoc l))) err1
        else setFrame (Some (generateCodeFrame X activeCode (AtLoc l))) err
    | None => setFrame (Some (generateCodeFrame X activeCode (AtLoc l))) err
    end.

(** The branch [else if (err.loc)] without an active code. *)
Definition frameFromLocAlone (l : Loc) (err : RollupError) : RollupError :=
  if truthy_ostr (frame err) then err
  else
    let code0 := pluginCode err in
    let '(err1, code1) :=
      match loc_file l with
      | Some f =>
          if truthy_str f
          then (setId (Some (normalizePath E f)) err,
                if truthy_ostr code0 then code0
                else match readFileSync X f with
                     | Some text => Some text
                     | None => code0
                     end)
          else (err, code0)
      | None => (err, code0)
      end in
    match code1 with
    | Some text =>
        if truthy_str text
        then setFrame (Some (generateCodeFrame X text (AtLoc l))) err1
        else err1
    | None => err1
    end.

(** The trace back through the combined source map, in a transform. *)
Definition traceBack (ctx : AnyContext) (err : RollupError)
  : Formatted * AnyContext :=
  match ctx with
  | PlainContext _ => (Returns err, ctx)
  | TransformCtx t =>
      match loc err with
      | Some {| loc_file := _; loc_line := Some ln; loc_column := Some col |} =>
          let '(r, t1) := _getCombinedSourcemap E t in
          match r with
          | Ok (Some rawSourceMap) =>
              match version rawSourceMap with
              | Some _ =>
                  match originalPositionFor X rawSourceMap ln col with
                  | (Some source, Some line1, Some column1) =>
                      if truthy_str source
                      then (Returns
                              (setLoc (Some {| loc_file := Some source;
                                               loc_line := Some line1;
                                               loc_column := Some column1 |})
                                 err),
                            TransformCtx t1)
                      else (Returns err, TransformCtx t1)
                  | _ => (Returns err, TransformCtx t1)
                  end
              | None => (Returns err, TransformCtx t1)
              end
          | Ok None => (Returns err, TransformCtx t1)
          | Throws e => (ThrowsOther e, TransformCtx t1)
          | OutOfFuel => (Returns err, TransformCtx t1)
          end
      | _ => (Returns err, ctx)
      end
  end.

(** The last lines: [delete err.loc] when it has no numeric column, no
    numeric line and no file. *)
Definition scrub (err : RollupError) : RollupError :=
  match loc err with
  | Some l =>
      if negb (bool_decide (is_Some (loc_column l)))
         && negb (bool_decide (is_Some (loc_line l)))
         && negb (truthy_ostr (loc_file l))
      then setLoc None err
      else err
  | None => err
  end.

(** [formatError(e, position, ctx)]: how it ends, the context as
    [_getCombinedSourcemap] leaves it, and what [logger.error] was given. *)
Definition formatError (e : string + RollupError) (position0 : option Position)
    (ctx : AnyContext) : Formatted * AnyContext * list string :=
  let err := match e with
             | inl msg => newError msg
             | inr err => err
             end in
  if truthy_ostr (pluginCode err) then (Returns err, ctx, [])
  else
    let c := baseOf ctx in
    let err := attribute c err in
    match _activeCode c with
    | Some activeCode =>
        if truthy_str activeCode
        then
          let err := setPluginCode (Some activeCode) err in
          let at_ :=
            match position0 with
            | Some p => Some p
            | None =>
                match pos err with
                | Some n => Some (Offset n)
                | None => position err
                end
            end in
          let located : RollupError + string :=
            match at_ with
            | Some p =>
                match numberToPos X activeCode p with
                | inr (ln, col) =>
                    let err1 :=
                      match loc err with
                      | Some _ => err
                      | None =>
                          setLoc (Some {| loc_file := id err;
                                          loc_line := Some ln;
                                          loc_column := Some col |}) err
                      end in
                    inl (frameOr (generateCodeFrame X activeCode (AtPosition p))
                           err1)
                | inl msg => inr msg
                end
            | None =>
                match loc err with
                | Some l => inl (frameFromLoc activeCode l err)
                | None =>
                    if truthy_num (line err) && truthy_num (column err)
                    then
                      let l := {| loc_file := id err; loc_line := line err;
                                  loc_column := column err |} in
                      inl (frameOr (generateCodeFrame X activeCode (AtLoc l))
                             (setLoc (Some l) err))
                    else inl err
                end
            end in
          match located with
          | inl err =>
              match traceBack ctx err with
              | (Returns err, ctx1) => (Returns (scrub err), ctx1, [])
              | (other, ctx1) => (other, ctx1, [])
              end
          | inr msg => (ThrowsIt err, ctx, [msg])
          end
        else
          match loc err with
          | Some l => (Returns (scrub (frameFromLocAlone l err)), ctx, [])
          | None => (Returns (scrub err), ctx, [])
          end
    | None =>
        match loc err with
        | Some l => (Returns (scrub (frameFromLocAlone l err)), ctx, [])
        | None => (Returns (scrub err), ctx, [])
        end
    end.

(** [ctx.error(e, position)]: it throws what [formatError] returns. *)
Definition Context_error (e : string + RollupError) (position0 : option Position)
    (ctx : AnyContext) : Formatted * AnyContext * list string :=
  match formatError e position0 ctx with
  | (Returns err, ctx1, logged) => (ThrowsIt err, ctx1, logged)
  | other => other
  end.

End FormatError.

(** The error a formatting ended with, if it is the formatted error. *)
Definition formattedError (f : Formatted) : option RollupError :=
  match f with
  | Returns err | ThrowsIt err => Some err
  | ThrowsOther _ => None
  end.

(** A [loc] that is worth keeping: a numeric line, a numeric column or a
    file. *)
Definition locSaysSomething (l : Loc) : Prop :=
  is_Some (loc_line l) ∨ is_Some (loc_column l) ∨
  truthy_ostr (loc_file l) = true.

(** Two errors with the same message, code, plugin code and plugin. *)
Definition sameReport (a b : RollupError) : Prop :=
  message a = message b ∧ code a = code b ∧ pluginCode a = pluginCode b ∧
  plugin a = plugin b.

(** The plugin an error is attributed to under a context. *)
Definition attributedTo (X : ErrorImports) (c : Context) (err : RollupError)
  : option string :=
  match _activePlugin c with
  | Some p => Some (nameOf X p)
  | None => plugin err
  end.

(** The error a call is about. *)
Definition errorOf (e : string + RollupError) : RollupError :=
  match e with
  | inl msg => newError msg
  | inr err => err
  end.

(** Helpers for the examples: every offset is on line 1, no file can be
    read and no map traces anything back. *)
Definition plainErrorImports : ErrorImports :=
  {| nameOf := fun p => if Nat.eqb p 1 then "vite:css" else "other";
     numberToPos := fun _ p =>
       match p with
       | Offset n => if Z.ltb n 0 then inl "out of range" else inr (1%Z, n)
       | LineColumn l c => inr (l, c)
       end;
     generateCodeFrame := fun _ _ => "> frame";
     readFileSync := fun _ => None;
     originalPositionFor := fun _ _ _ => (None, None, None) |}.

(** The context of plugin 1 transforming [/a.css]. *)
Definition cssContext : AnyContext :=
  PlainContext
    {| _activePlugin := Some 1; _activeId := Some "/a.css";
       _activeCode := Some "a { color: red }"; _resolveSkips := None;
       _scan := false |}.

(** The error of a closed server, as a plugin's nested call may meet it. *)
Definition closedError : RollupError :=
  {| message := "The server is being restarted or closed. Request is outdated";
     code := Some "ERR_CLOSED_SERVER"; plugin := Some "inner";
     pluginCode := None; id := None; pos := Some 4%Z; position := None;
     loc := None; frame := None; line := None; column := None |}.

(** That error as plugin 1 sees it formatted under [cssContext]. *)
Definition cssFormatted : RollupError :=
  {| message := "The server is being restarted or closed. Request is outdated";
     code := Some "ERR_CLOSED_SERVER"; plugin := Some "vite:css";
     pluginCode := Some "a { color: red }"; id := Some "/a.css";
     pos := Some 4%Z; position := None;
     loc := Some {| loc_file := Some "/a.css"; loc_line := Some 1%Z;
                    loc_column := Some 4%Z |};
     frame := Some "> frame"; line := None; column := None |}.

(** An error whose [loc] says nothing. *)
Definition emptyLocError : RollupError :=
  {| message := "boom"; code := None; plugin := None; pluginCode := None;
     id := None; pos := None; position := None;
     loc := Some {| loc_file := None; loc_line := None; loc_column := None |};
     frame := None; line := None; column := None |}.

End ErrorFormat.

(* ===================================================================== *)
(** * this.load (pluginContainer.ts, Context.load)                        *)
(* ===================================================================== *)

Module ContextLoad.

Import PluginContainer.

(** The keys of the [meta] of a module's info, if the graph has the
    module. *)
Definition metaKeys (st : St) (id : string) : option (gset string) :=
  (λ n, dom (mi_meta (infoOf id n))) <$> getModuleById st id.

(** The module is there before and after, or neither, and no key is lost. *)
Definition grows (a b : option (gset string)) : Prop :=
  match a, b with
  | Some x, Some y => x ⊆ y
  | None, None => True
  | _, _ => False
  end.

Definition meta_keys_grow (st st' : St) : Prop :=
  ∀ id, grows (metaKeys st id) (metaKeys st' id).

(** The module graph's [ensureEntryFromUrl] and the imported [unwrapId].
    The former is free to fail, to change the state and to resolve ids
    with the container. *)
Record GraphImports := mkGraphImports {
  unwrapId : string → string;
  ensureEntryFromUrl : string → St → Outcome unit * St * list Event
}.

(** [typeof loadResult === 'object' ? loadResult?.code : loadResult] *)
Definition codeOf (r : LoadResult) : option string :=
  match r with
  | LNull | LUndefined => None
  | LString s => Some s
  | LObject o => sd_code o
  end.

Definition failedToLoad (id : string) : Error :=
  {| err_message := "Failed to load module with id " ++ id;
     err_code := None |}.

Section Load.

Context (E : Env) (G : GraphImports).

(** The last lines of [load]: the module's info, or the failure. *)
Definition moduleInfoOrFail (id : string) (st : St) (tr : list Event)
  : Outcome ModuleInfo * St * list Event :=
  match getModuleInfo id st with
  | (Some moduleInfo, st1) => (Ok moduleInfo, st1, tr)
  | (None, st1) => (Throws (failedToLoad id), st1, tr)
  end.

(** [this.load({id, meta})], the handlers of the pipelines it runs
    re-entering [resolveId] at most [fuel] deep. *)
Definition Context_load (fuel : nat) (id : string) (meta : option Meta)
    (st : St) : Outcome ModuleInfo * St * list Event :=
  let '(ensured, st0, tr0) :=
    match moduleGraph st with
    | Some _ => ensureEntryFromUrl G (unwrapId G id) st
    | None => (Ok tt, st, [])
    end in
  match ensured with
  | Ok _ =>
      let st1 := _updateModuleInfo id meta st0 in
      let '(loaded, st2, tr1) := container_load E fuel st1 id in
      match loaded with
      | Ok loadResult =>
          match codeOf loadResult with
          | Some code =>
              let '(transformed, st3, tr2) :=
                container_transform E fuel st2 code id None in
              match transformed with
              | Ok _ => moduleInfoOrFail id st3 (tr0 ++ tr1 ++ tr2)%list
              | Throws e => (Throws e, st3, (tr0 ++ tr1 ++ tr2)%list)
              | OutOfFuel => (OutOfFuel, st3, (tr0 ++ tr1 ++ tr2)%list)
              end
          | None => moduleInfoOrFail id st2 (tr0 ++ tr1)%list
          end
      | Throws e => (Throws e, st2, (tr0 ++ tr1)%list)
      | OutOfFuel => (OutOfFuel, st2, (tr0 ++ tr1)%list)
      end
  | Throws e => (Throws e, st0, tr0)
  | OutOfFuel => (OutOfFuel, st0, tr0)
  end.

End Load.



(** A graph that already has every entry. *)
Definition settledGraph : GraphImports :=
  {| unwrapId := fun id => id;
     ensureEntryFromUrl := fun _ st => (Ok tt, st, []) |}.

(** A state whose graph has the module [/a.js], with no info yet. *)
Definition graphWithA : St :=
  {| closed := false;
     moduleGraph :=
       Some {[ "/a.js" := {| gn_meta := None; gn_info := None |} ]} |}.

(** A loader whose result carries [meta], and a transformer whose result
    carries another. *)
Definition metaPlugins : list Plugin :=
  [ {| pid := 1; name := "loads"; resolveId := None;
       load := Some (fun _ _ =>
                 Ret (LObject {| sd_code := Some "";
                                 sd_map := MapUndefined;
                                 sd_meta := Some {[ "loaded" := "yes" ]} |}));
       transform := None |};
    {| pid := 2; name := "transforms"; resolveId := None; load := None;
       transform := Some (fun _ _ _ =>
                 Ret (TObject {| sd_code := None;
                                 sd_map := MapUndefined;
                                 sd_meta := Some {[ "seen" := "yes" ]} |})) |} ].

End ContextLoad.

(* ===================================================================== *)
(** * Watch files and added imports (pluginContainer.ts)                  *)
(* ===================================================================== *)

Module WatchFiles.

(** [set.add(x)] on the elements of a [Set], in insertion order. *)
Definition setAdd (x : string) (s : list string) : list string :=
  if bool_decide (x ∈ s) then s else (s ++ [x])%list.

(** What the contexts of one container share: the [watchFiles] set, the
    [Set] objects [addWatchFile] has made, by address, the
    [moduleNodeToLoadAddedImports] map, by the id of the module node, and
    the files [ensureWatchedFile] was called with. *)
Record Store := mkStore {
  watchFiles : list string;
  sets : list (list string);
  moduleNodeToLoadAddedImports : gmap string (option nat);
  ensured : list string
}.

Definition emptyStore : Store :=
  {| watchFiles := []; sets := []; moduleNodeToLoadAddedImports := ∅;
     ensured := [] |}.

Section Methods.

(** Whether the container has a watcher, and whether the module graph has
    a node for an id. *)
Context (watcher : bool) (hasNode : string → bool).

(** [ctx.addWatchFile(id)], for a context whose [_addedImports] is the
    [Set] at [added], or null: the context's [_addedImports] afterwards,
    and the store. *)
Definition addWatchFile (id : string) (added : option nat) (s : Store)
  : option nat * Store :=
  let '(a, sets1) :=
    match added with
    | Some a => (a, alter (setAdd id) a (sets s))
    | None => (length (sets s), (sets s ++ [setAdd id []])%list)
    end in
  (Some a,
   {| watchFiles := setAdd id (watchFiles s);
      sets := sets1;
      moduleNodeToLoadAddedImports := moduleNodeToLoadAddedImports s;
      ensured := if watcher then (ensured s ++ [id])%list else ensured s |}).

(** [ctx._updateModuleLoadAddedImports(id)] *)
Definition _updateModuleLoadAddedImports (id : string) (added : option nat)
    (s : Store) : Store :=
  if hasNode id
  then {| watchFiles := watchFiles s; sets := sets s;
          moduleNodeToLoadAddedImports :=
            <[id := added]> (moduleNodeToLoadAddedImports s);
          ensured := ensured s |}
  else s.

(** The [_addedImports] a [new TransformContext(id, ...)] starts with. *)
Definition inherited (id : string) (s : Store) : option nat :=
  if hasNode id
  then default None (moduleNodeToLoadAddedImports s !! id)
  else None.

(** [ctx.getWatchFiles()] *)
Definition getWatchFiles (s : Store) : list string := watchFiles s.

(** The elements of a context's [_addedImports]. *)
Definition importsOf (added : option nat) (s : Store) : list string :=
  match added with
  | Some a => default [] (sets s !! a)
  | None => []
  end.

(** The handlers of one pipeline call [addWatchFile] with [files], in
    order, on the pipeline's context. *)
Definition addAll (files : list string) (added : option nat) (s : Store)
  : option nat * Store :=
  fold_left (λ cs file, addWatchFile file cs.1 cs.2) files (added, s).

(** A run of [container.load(id)] that returns: a new context, the calls
    of its handlers, and [_updateModuleLoadAddedImports]. *)
Definition loadRun (id : string) (files : list string) (s : Store) : Store :=
  let '(added, s1) := addAll files None s in
  _updateModuleLoadAddedImports id added s1.

(** A run of [container.transform(code, id)]: a new transform context and
    the calls of its handlers. *)
Definition transformRun (id : string) (files : list string) (s : Store)
  : Store :=
  (addAll files (inherited id s) s).2.

(** A run of handlers on a new [Context] that no map records: those of
    [resolveId], of [watchChange] and of [close] ([buildEnd] and
    [closeBundle]), and each handler of [buildStart]. *)
Definition otherRun (files : list string) (s : Store) : Store :=
  (addAll files None s).2.

Inductive Run :=
| Load (id : string) (files : list string)
| Transform (id : string) (files : list string)
| Other (files : list string).

Definition runOne (s : Store) (r : Run) : Store :=
  match r with
  | Load id files => loadRun id files s
  | Transform id files => transformRun id files s
  | Other files => otherRun files s
  end.

(** The two methods that write the store, called on a context whose
    [_addedImports] is [added]. *)
Inductive Call :=
| AddWatchFile (added : option nat) (file : string)
| UpdateModuleLoadAddedImports (id : string) (added : option nat).

Definition call (s : Store) (c : Call) : Store :=
  match c with
  | AddWatchFile added file => (addWatchFile file added s).2
  | UpdateModuleLoadAddedImports id added =>
      _updateModuleLoadAddedImports id added s
  end.

(** The store after the calls [cs], in whatever order the pipelines of
    the container made them, in a new container. *)
Definition afterCalls (cs : list Call) : Store := fold_left call cs emptyStore.

(** The store after the runs [rs], one after the other, in a new
    container. *)
Definition afterRuns (rs : list Run) : Store := fold_left runOne rs emptyStore.

End Methods.

(** The files the handlers of the runs added. *)
Definition filesOf (rs : list Run) : list string :=
  rs ≫= (λ r, match r with
              | Load _ files | Transform _ files | Other files => files
              end).

(** The files [addWatchFile] was called with. *)
Definition addedFiles (cs : list Call) : list string :=
  cs ≫= (λ c, match c with
              | AddWatchFile _ file => [file]
              | UpdateModuleLoadAddedImports _ _ => []
              end).

(** The recorded sets are objects of the store, and no two modules share
    one. *)
Definition well_formed (s : Store) : Prop :=
  (∀ id a, moduleNodeToLoadAddedImports s !! id = Some (Some a) →
           (a < length (sets s))%nat) ∧
  (∀ id id' a, moduleNodeToLoadAddedImports s !! id = Some (Some a) →
               moduleNodeToLoadAddedImports s !! id' = Some (Some a) →
               id = id').

End WatchFiles.

(* ===================================================================== *)
(** * Properties                                                          *)
(* ===================================================================== *)

Local Open Scope list_scope.
(* ===================================================================== *)
(** * Properties of the crawl-end finder                                  *)
(* ===================================================================== *)

Section CrawlEndProperties.

Import CrawlEnd.

Lemma markIdAsDone_calls id f :
  onCrawlEndCalls (markIdAsDone id f) = onCrawlEndCalls f ∧
  crawlEndCalled (markIdAsDone id f) = crawlEndCalled f.
Proof.
  unfold markIdAsDone, checkIfCrawlEndAfterTimeout.
  repeat (case_bool_decide || case_match); simpl; auto.
Qed.

Lemma step_calls_match_flag f e :
  calls_match_flag f → calls_match_flag (step f e).
Proof.
  unfold calls_match_flag. intros Hf. destruct e as [id|[id|]| |id|h ret]; simpl.
  - unfold registerRequestProcessing. case_bool_decide; simpl; auto.
  - unfold waitForRequestsIdle. destruct (truthy_str id); auto.
    destruct (markIdAsDone_calls id (addSeen id f)) as [-> ->]. auto.
  - auto.
  - auto.
  - unfold settleDone. case_bool_decide; auto.
    match goal with |- context [markIdAsDone id ?g] =>
      destruct (markIdAsDone_calls id g) as [-> ->] end. auto.
  - unfold fireTimer. case_bool_decide; auto.
    unfold callOnCrawlEndWhenIdle, callOnCrawlEnd, hasRegistered, clearTimeout.
    simpl.
    destruct (cancelled f); simpl; auto.
    case_bool_decide; simpl; auto.
    destruct (crawlEndCalled f); simpl; auto.
    destruct ret; simpl; auto.
Qed.

Lemma run_calls_match_flag evs f :
  calls_match_flag f → calls_match_flag (run evs f).
Proof.
  revert f. induction evs as [|e evs IH]; intros f Hf; simpl; auto.
  apply IH, step_calls_match_flag, Hf.
Qed.

(** C7. Whatever is done to a crawl-end finder, in whatever order -- ids
    registered, their work settling, [waitForRequestsIdle], timers firing,
    [cancel] -- [onCrawlEnd] is called at most once. *)
Theorem onCrawlEnd_at_most_once (evs : list Event) :
  (onCrawlEndCalls (run evs setupOnCrawlEnd) ≤ 1)%nat.
Proof.
  pose proof (run_calls_match_flag evs setupOnCrawlEnd eq_refl) as H.
  unfold calls_match_flag in H. rewrite H. destruct (crawlEndCalled _); lia.
Qed.

(** After [cancel] a step changes neither the count of [onCrawlEnd] calls
    nor the deferred, and the finder stays cancelled. *)
Lemma step_cancelled f e :
  cancelled f = true →
  cancelled (step f e) = true ∧
  onCrawlEndCalls (step f e) = onCrawlEndCalls f ∧
  deferredResolved (step f e) = deferredResolved f.
Proof.
  intros Hc. destruct e as [id|[id|]| |id|h ret]; simpl.
  - unfold registerRequestProcessing. case_bool_decide; simpl; auto.
  - unfold waitForRequestsIdle, markIdAsDone, checkIfCrawlEndAfterTimeout.
    destruct (truthy_str id); auto. case_bool_decide; simpl; auto.
    rewrite Hc. simpl. auto.
  - auto.
  - auto.
  - unfold settleDone, markIdAsDone, checkIfCrawlEndAfterTimeout.
    case_bool_decide; auto. simpl. case_bool_decide; simpl; auto.
    rewrite Hc. simpl. auto.
  - unfold fireTimer, callOnCrawlEndWhenIdle. case_bool_decide; auto.
    simpl. rewrite Hc. simpl. auto.
Qed.

(** C8, as the code has it. Once the finder is cancelled, nothing that
    happens afterwards calls [onCrawlEnd], and nothing resolves the
    deferred either: if it was pending at the time of the cancel, it stays
    pending. *)
Theorem cancel_suppresses_callback_and_deferred (f : Finder) (evs : list Event) :
  cancelled f = true →
  onCrawlEndCalls (run evs f) = onCrawlEndCalls f ∧
  deferredResolved (run evs f) = deferredResolved f.
Proof.
  revert f. induction evs as [|e evs IH]; intros f Hc; simpl; auto.
  destruct (step_cancelled f e Hc) as (Hc' & Hn & Hd).
  destruct (IH _ Hc') as [-> ->]. auto.
Qed.

Lemma cancel_suppresses_callback_and_deferred_witness :
  let f := run [Register "a"; DoneSettles "a"; Cancel] setupOnCrawlEnd in
  cancelled f = true ∧
  onCrawlEndCalls (run [TimerFires 0 true] f) = onCrawlEndCalls f ∧
  deferredResolved (run [TimerFires 0 true] f) = deferredResolved f.
Proof.
  split; [reflexivity|].
  apply (cancel_suppresses_callback_and_deferred
           (run [Register "a"; DoneSettles "a"; Cancel] setupOnCrawlEnd)
           [TimerFires 0 true]).
  reflexivity.
Defined.

(** C8, as the specification states it, fails: "a" is registered and
    settles, which arms timer 0; [cancel] is called; timer 0 fires with no
    id registered, the moment the callback would have been called.  The
    callback is not called, and the deferred is not resolved either, though
    the same run without the [cancel] resolves it. *)
Lemma cancel_leaves_deferred_pending :
  let f := run [Register "a"; DoneSettles "a"; Cancel] setupOnCrawlEnd in
  cancelled f = true ∧
  bool_decide (0 ∈ armed f) = true ∧
  hasRegistered f = false ∧
  onCrawlEndCalls (step f (TimerFires 0 true)) = 0 ∧
  deferredResolved (step f (TimerFires 0 true)) = false ∧
  deferredResolved
    (run [Register "a"; DoneSettles "a"; TimerFires 0 true] setupOnCrawlEnd)
  = true.
Proof. repeat split; vm_compute; reflexivity. Qed.

Lemma markIdAsDone_frame j f :
  seenIds (markIdAsDone j f) = seenIds f ∧
  doneInvoked (markIdAsDone j f) = doneInvoked f ∧
  donePending (markIdAsDone j f) = donePending f ∧
  (registeredIds (markIdAsDone j f) ⊆ registeredIds f).
Proof.
  unfold markIdAsDone, checkIfCrawlEndAfterTimeout.
  repeat (case_bool_decide || case_match); simpl; repeat split; set_solver.
Qed.

Lemma markIdAsDone_untracked id j f :
  untracked id f → untracked id (markIdAsDone j f).
Proof.
  intros (Hr & Hd & Hp).
  destruct (markIdAsDone_frame j f) as (_ & Hd' & Hp' & Hr').
  unfold untracked. rewrite Hd', Hp'. repeat split; auto.
Qed.

(** A step other than the registration of [id] leaves [id] untracked. *)
Lemma step_untracked id f e :
  e ≠ Register id → untracked id f → untracked id (step f e).
Proof.
  intros Hne Hu. destruct e as [j|[j|]| |j|h ret]; simpl; auto.
  - assert (j ≠ id) by congruence.
    unfold registerRequestProcessing. case_bool_decide; simpl; auto.
    destruct Hu as (Hr & Hd & Hp). unfold untracked; simpl.
    rewrite elem_of_app, list_elem_of_singleton. set_solver.
  - unfold waitForRequestsIdle. destruct (truthy_str j); auto.
    apply markIdAsDone_untracked. exact Hu.
  - unfold settleDone. case_bool_decide; auto.
    apply markIdAsDone_untracked.
    destruct Hu as (Hr & Hd & Hp). unfold untracked; simpl. set_solver.
  - unfold fireTimer, callOnCrawlEndWhenIdle, callOnCrawlEnd, clearTimeout.
    repeat (case_bool_decide || case_match); simpl; auto.
Qed.

(** Once [id] is seen and untracked, every step keeps it so. *)
Lemma step_seen_untracked id f e :
  id ∈ seenIds f → untracked id f →
  (id ∈ seenIds (step f e)) ∧ untracked id (step f e).
Proof.
  intros Hs Hu.
  assert (Hseen : id ∈ seenIds (step f e)).
  { destruct e as [j|[j|]| |j|h ret]; simpl; auto.
    - unfold registerRequestProcessing. case_bool_decide; simpl; set_solver.
    - unfold waitForRequestsIdle. destruct (truthy_str j); auto.
      destruct (markIdAsDone_frame j (addSeen j f)) as (-> & _). simpl.
      set_solver.
    - unfold settleDone. case_bool_decide; auto.
      match goal with |- context [markIdAsDone j ?g] =>
        destruct (markIdAsDone_frame j g) as (-> & _) end. auto.
    - unfold fireTimer, callOnCrawlEndWhenIdle, callOnCrawlEnd, clearTimeout.
      repeat (case_bool_decide || case_match); simpl; auto. }
  split; [exact Hseen|].
  destruct (decide (e = Register id)) as [->|Hne].
  - simpl. unfold registerRequestProcessing.
    rewrite bool_decide_eq_true_2 by exact Hs. exact Hu.
  - apply step_untracked; assumption.
Qed.

Lemma run_untracked id evs f :
  Register id ∉ evs → untracked id f → untracked id (run evs f).
Proof.
  revert f. induction evs as [|e evs IH]; intros f Hn Hu; simpl; auto.
  apply IH; [set_solver|]. apply step_untracked; [set_solver|exact Hu].
Qed.

Lemma run_seen_untracked id evs f :
  id ∈ seenIds f → untracked id f →
  (id ∈ seenIds (run evs f)) ∧ untracked id (run evs f).
Proof.
  revert f. induction evs as [|e evs IH]; intros f Hs Hu; simpl; auto.
  destruct (step_seen_untracked id f e Hs Hu) as [Hs' Hu']. apply IH; auto.
Qed.

(** C10, for an id that is not the empty string. If
    [waitForRequestsIdle(id)] is called before [id] was ever registered,
    then whatever happens afterwards, registrations of [id] included,
    [id] is seen, is not in the registered set, [done] is never called for
    it, no completion is pending for it, and registering it changes
    nothing. *)
Theorem ignored_id_is_never_registered
    (id : string) (before after : list Event) :
  id ≠ "" →
  Register id ∉ before →
  let f := run (before ++ WaitIdle (Some id) :: after) setupOnCrawlEnd in
  (id ∈ seenIds f) ∧ (id ∉ registeredIds f) ∧ (id ∉ doneInvoked f) ∧
  (id ∉ donePending f) ∧ registerRequestProcessing id f = f.
Proof.
  intros Hid Hbefore f.
  assert (H0 : untracked id setupOnCrawlEnd).
  { unfold untracked; simpl. set_solver. }
  pose proof (run_untracked id before _ Hbefore H0) as H1.
  set (f1 := run before setupOnCrawlEnd) in *.
  assert (Ht : truthy_str id = true).
  { unfold truthy_str. destruct (String.eqb_spec id ""); [contradiction|done]. }
  assert (H2 : (id ∈ seenIds (step f1 (WaitIdle (Some id)))) ∧
               untracked id (step f1 (WaitIdle (Some id)))).
  { simpl. rewrite Ht. split.
    - destruct (markIdAsDone_frame id (addSeen id f1)) as (-> & _). simpl.
      set_solver.
    - apply markIdAsDone_untracked. exact H1. }
  destruct H2 as [Hs Hu].
  destruct (run_seen_untracked id after _ Hs Hu) as [Hs' (Hr & Hd & Hp)].
  assert (Hf : f = run after (step f1 (WaitIdle (Some id)))).
  { unfold f, f1, run. rewrite fold_left_app. reflexivity. }
  rewrite Hf. repeat split; auto.
  unfold registerRequestProcessing.
  rewrite bool_decide_eq_true_2 by exact Hs'. reflexivity.
Qed.

Lemma ignored_id_is_never_registered_witness :
  let f := run ([Register "/b.js"] ++ WaitIdle (Some "/a.js")
                  :: [Register "/a.js"; DoneSettles "/b.js"; Register "/a.js"])
             setupOnCrawlEnd in
  ("/a.js" ∈ seenIds f) ∧ ("/a.js" ∉ registeredIds f) ∧
  ("/a.js" ∉ doneInvoked f) ∧ ("/a.js" ∉ donePending f) ∧
  registerRequestProcessing "/a.js" f = f.
Proof.
  apply (ignored_id_is_never_registered "/a.js" [Register "/b.js"]
           [Register "/a.js"; DoneSettles "/b.js"; Register "/a.js"]).
  - discriminate.
  - rewrite list_elem_of_singleton. discriminate.
Defined.

(** C10 fails for the empty string, which [if (ignoredId)] takes for no
    id at all: it is not added to [seenIds], and a later registration calls
    [done] and registers it. *)
Lemma ignored_empty_id_is_registered :
  let f := run [WaitIdle (Some ""); Register ""] setupOnCrawlEnd in
  doneInvoked f = [""] ∧ bool_decide ("" ∈ registeredIds f) = true ∧
  bool_decide ("" ∈ donePending f) = true.
Proof. repeat split; vm_compute; reflexivity. Qed.

End CrawlEndProperties.

(* ===================================================================== *)
(** * Properties of the HMR invalidation                                  *)
(* ===================================================================== *)

Section DevEnvironmentProperties.

Import DevEnvironment.








End DevEnvironmentProperties.

(* ===================================================================== *)
(** * Properties of the plugin container                                  *)
(* ===================================================================== *)

Section ClosedContainer.

Import PluginContainer.

Context (E : Env).

Lemma setClosed_closed st : closed st = true → setClosed true st = st.
Proof. destruct st as [c g]; simpl. intros ->. reflexivity. Qed.

Lemma setClosed_twice b c st : setClosed b (setClosed c st) = setClosed b st.
Proof. reflexivity. Qed.

Lemma close_sets_closed st : closed (close st) = true.
Proof. unfold close. destruct (closed st) eqn:H; auto. Qed.

Lemma updateModuleInfo_setClosed b id meta st :
  _updateModuleInfo id meta (setClosed b st)
  = setClosed b (_updateModuleInfo id meta st).
Proof.
  unfold _updateModuleInfo. destruct meta as [meta|]; [|reflexivity].
  simpl. destruct (moduleGraph st) as [g|]; [|reflexivity].
  destruct (g !! id); reflexivity.
Qed.

Lemma run_hook_blind {R : Type} (resolve : ResolveFn) ctx (h : Hook R) :
  closed_blind resolve →
  ∀ b st, run_hook resolve ctx h (setClosed b st)
          = onState (setClosed b) (run_hook resolve ctx h st).
Proof.
  intros Hb. induction h as [r|e|id importer options k IH]; intros b st;
    simpl; try reflexivity.
  unfold Context_resolve. rewrite Hb.
  destruct (resolve st id importer _) as [[out st1] tr1]. simpl.
  destruct out as [v|e|]; try reflexivity.
  - rewrite IH. destruct (run_hook resolve ctx (k (inr v)) st1) as [[r st2] tr2].
    reflexivity.
  - rewrite IH. destruct (run_hook resolve ctx (k (inl e)) st1) as [[r st2] tr2].
    reflexivity.
Qed.

Lemma resolveId_loop_blind resolve rawId importer hopts skip :
  recoverable E = false → closed_blind resolve →
  ∀ plugins ctx b st,
    resolveId_loop E resolve ctx rawId importer hopts skip plugins
      (setClosed b st)
    = onState (setClosed b)
        (resolveId_loop E resolve ctx rawId importer hopts skip plugins st).
Proof.
  intros Hrec Hb. induction plugins as [|p rest IH]; intros ctx b st; simpl;
    [reflexivity|].
  rewrite Hrec, !andb_false_r.
  destruct (resolveId p) as [handler|]; [|apply IH].
  destruct (skipHas skip (pid p)); [apply IH|].
  rewrite (run_hook_blind resolve _ _ Hb).
  destruct (run_hook resolve _ (handler rawId importer hopts) st)
    as [[res st1] inner]. simpl.
  destruct res as [[| | |s|o]|e|]; try reflexivity;
    try (rewrite IH; destruct (resolveId_loop E resolve _ _ _ _ _ rest st1)
           as [[r st2] tr]; reflexivity).
  destruct (truthy_str s); [reflexivity|].
  rewrite IH. destruct (resolveId_loop E resolve _ _ _ _ _ rest st1)
    as [[r st2] tr]. reflexivity.
Qed.

Lemma container_resolveId_blind :
  recoverable E = false → ∀ fuel, closed_blind (container_resolveId E fuel).
Proof.
  intros Hrec. induction fuel as [|fuel IH]; intros b st id importer options;
    simpl; [reflexivity|].
  unfold resolveId_body. rewrite (resolveId_loop_blind _ _ _ _ _ Hrec IH).
  destruct (resolveId_loop E _ _ _ _ _ _ _ st) as [[r st1] tr]. simpl.
  destruct r as [found|e|]; reflexivity.
Qed.

Lemma load_loop_blind resolve id ssr0 :
  recoverable E = false → closed_blind resolve →
  ∀ plugins ctx b st,
    load_loop E resolve ctx id ssr0 plugins (setClosed b st)
    = onState (setClosed b) (load_loop E resolve ctx id ssr0 plugins st).
Proof.
  intros Hrec Hb. induction plugins as [|p rest IH]; intros ctx b st; simpl;
    [reflexivity|].
  rewrite Hrec, !andb_false_r.
  destruct (load p) as [handler|]; [|apply IH].
  rewrite (run_hook_blind resolve _ _ Hb).
  destruct (run_hook resolve _ (handler id ssr0) st) as [[res st1] inner].
  simpl.
  destruct res as [[| |s|o]|e|]; try reflexivity;
    try (rewrite IH; destruct (load_loop E resolve _ _ _ rest st1)
           as [[r st2] tr]; reflexivity).
  rewrite updateModuleInfo_setClosed. reflexivity.
Qed.

Lemma transform_loop_blind resolve id hopts :
  recoverable E = false → closed_blind resolve →
  ∀ plugins ctx code b st,
    transform_loop E resolve ctx code id hopts plugins (setClosed b st)
    = onState (setClosed b)
        (transform_loop E resolve ctx code id hopts plugins st).
Proof.
  intros Hrec Hb. induction plugins as [|p rest IH]; intros ctx code b st;
    simpl; [reflexivity|].
  rewrite Hrec, !andb_false_r.
  destruct (transform p) as [handler|]; [|apply IH].
  rewrite (run_hook_blind resolve _ _ Hb).
  destruct (run_hook resolve _ (handler code id hopts) st)
    as [[res st1] inner]. simpl.
  destruct res as [[| |s|o]|e|]; try reflexivity.
  - rewrite IH. destruct (transform_loop E resolve _ _ _ _ rest st1)
      as [[r st2] tr]. reflexivity.
  - rewrite IH. destruct (transform_loop E resolve _ _ _ _ rest st1)
      as [[r st2] tr]. reflexivity.
  - destruct (truthy_str s); rewrite IH;
      destruct (transform_loop E resolve _ _ _ _ rest st1) as [[r st2] tr];
      reflexivity.
  - destruct (sd_code o) as [c|];
      [destruct (truthy_map (sd_map o))|];
      rewrite updateModuleInfo_setClosed, IH;
      destruct (transform_loop E resolve _ _ _ _ rest _) as [[r st2] tr];
      reflexivity.
Qed.

Lemma container_transform_blind fuel code id topts :
  recoverable E = false →
  ∀ b st, container_transform E fuel (setClosed b st) code id topts
          = onState (setClosed b) (container_transform E fuel st code id topts).
Proof.
  intros Hrec b st. unfold container_transform.
  rewrite (transform_loop_blind _ _ _ Hrec (container_resolveId_blind Hrec fuel)).
  destruct (transform_loop E _ _ _ _ _ _ st) as [[r st1] tr]. simpl.
  destruct r as [[ctx1 code1]|e|]; try reflexivity.
  destruct (fst (_getCombinedSourcemap E ctx1)); reflexivity.
Qed.

(** C1, as the code has it. On a closed container, when the environment
    is recoverable a call of [resolveId], [load] or [transform] whose
    sorted plugin list is not empty throws ClosedServer before any handler
    runs; when the environment is not recoverable the call goes exactly as
    on the open container: same outcome, same handlers invoked, same
    effect on the module graph. *)
Theorem closed_container_guard (fuel : nat) (st : St)
    (rawId : string) (importer : option string)
    (ropts : option ResolveIdOptions)
    (id code : string) (topts : option TransformOptions) :
  closed st = true →
  (recoverable E = true →
   (getSortedPlugins E HResolveId ≠ [] →
    container_resolveId E (S fuel) st rawId importer ropts
    = (Throws closedServerError, st, [])) ∧
   (getSortedPlugins E HLoad ≠ [] →
    container_load E fuel st id = (Throws closedServerError, st, [])) ∧
   (getSortedPlugins E HTransform ≠ [] →
    container_transform E fuel st code id topts
    = (Throws closedServerError, st, []))) ∧
  (recoverable E = false →
   container_resolveId E fuel st rawId importer ropts
   = onState (setClosed true)
       (container_resolveId E fuel (setClosed false st) rawId importer ropts) ∧
   container_load E fuel st id
   = onState (setClosed true) (container_load E fuel (setClosed false st) id) ∧
   container_transform E fuel st code id topts
   = onState (setClosed true)
       (container_transform E fuel (setClosed false st) code id topts)).
Proof.
  intros Hc. split.
  - intros Hrec. repeat split; intros Hne.
    + simpl. unfold resolveId_body.
      destruct (getSortedPlugins E HResolveId) as [|p rest]; [done|].
      simpl. rewrite Hc, Hrec. reflexivity.
    + unfold container_load.
      destruct (getSortedPlugins E HLoad) as [|p rest]; [done|].
      simpl. rewrite Hc, Hrec. reflexivity.
    + unfold container_transform.
      destruct (getSortedPlugins E HTransform) as [|p rest]; [done|].
      simpl. rewrite Hc, Hrec. reflexivity.
  - intros Hrec. repeat split.
    + rewrite <- (container_resolveId_blind Hrec fuel).
      rewrite setClosed_twice, (setClosed_closed st Hc). reflexivity.
    + unfold container_load.
      rewrite <- (load_loop_blind _ _ _ Hrec (container_resolveId_blind Hrec fuel)).
      rewrite setClosed_twice, (setClosed_closed st Hc). reflexivity.
    + rewrite <- (container_transform_blind _ _ _ _ Hrec).
      rewrite setClosed_twice, (setClosed_closed st Hc). reflexivity.
Qed.

End ClosedContainer.

Section ClosedContainerExamples.

Import PluginContainer Scenarios.

(** Scenario A on a closed container: recoverable, the call throws;
    not recoverable, it goes as on the open container. *)
Lemma closed_container_guard_witness :
  closed (close openState) = true ∧
  container_resolveId (containerOf true scenarioA) 1 (close openState)
    "a" None None
  = (Throws closedServerError, close openState, []) ∧
  container_resolveId (containerOf false scenarioA) 1 (close openState)
    "a" None None
  = onState (setClosed true)
      (container_resolveId (containerOf false scenarioA) 1
         (setClosed false (close openState)) "a" None None).
Proof.
  split; [reflexivity|]. split.
  - destruct (closed_container_guard (containerOf true scenarioA) 0
                (close openState) "a" None None "a" "" None eq_refl)
      as [H _].
    destruct (H eq_refl) as (H1 & _ & _). apply H1. discriminate.
  - destruct (closed_container_guard (containerOf false scenarioA) 1
                (close openState) "a" None None "a" "" None eq_refl)
      as [_ H].
    destruct (H eq_refl) as (H1 & _ & _). exact H1.
Defined.

(** C1, as the specification states it, fails both ways: after [close()]
    the container of a non-recoverable environment resolves "a" as
    scenario A says, and the container of a recoverable environment throws
    ClosedServer. *)
Lemma closed_container_follows_recoverable :
  closed (close openState) = true ∧
  container_resolveId (containerOf false scenarioA) 1 (close openState)
    "a" None None
  = (Ok (Some {| rid_id := "/abs/a.js"; rid_props := [] |}),
     close openState,
     [HookCall HResolveId 1 ["a"] []; HookCall HResolveId 2 ["a"] []]) ∧
  container_resolveId (containerOf true scenarioA) 1 (close openState)
    "a" None None
  = (Throws closedServerError, close openState, []) ∧
  err_code closedServerError = Some "ERR_CLOSED_SERVER".
Proof. repeat split; vm_compute; reflexivity. Qed.

End ClosedContainerExamples.

Section FirstResult.

Import PluginContainer.

Context (E : Env).

(** The loops set [_activePlugin] before every handler: the value the
    context comes with does not matter. *)
Lemma resolveId_loop_active resolve rawId importer hopts skip q :
  ∀ plugins ctx st,
    resolveId_loop E resolve (setActivePlugin q ctx) rawId importer hopts skip
      plugins st
    = resolveId_loop E resolve ctx rawId importer hopts skip plugins st.
Proof.
  induction plugins as [|p rest IH]; intros ctx st; simpl; [reflexivity|].
  destruct (closed st && recoverable E); [reflexivity|].
  destruct (resolveId p) as [handler|]; [|apply IH].
  destruct (skipHas skip (pid p)); [apply IH|].
  change (setActivePlugin (pid p) (setActivePlugin q ctx))
    with (setActivePlugin (pid p) ctx).
  reflexivity.
Qed.

Lemma load_loop_active resolve id ssr0 q :
  ∀ plugins ctx st,
    load_loop E resolve (setActivePlugin q ctx) id ssr0 plugins st
    = load_loop E resolve ctx id ssr0 plugins st.
Proof.
  induction plugins as [|p rest IH]; intros ctx st; simpl; [reflexivity|].
  destruct (closed st && recoverable E); [reflexivity|].
  destruct (load p) as [handler|]; [|apply IH].
  change (setActivePlugin (pid p) (setActivePlugin q ctx))
    with (setActivePlugin (pid p) ctx).
  reflexivity.
Qed.

(** When the loop over [pre] runs to its end without a result, the loop
    over [pre ++ post] goes on with [post]. *)
Lemma resolveId_loop_app resolve rawId importer hopts skip post :
  ∀ pre ctx st st1 tr1,
    resolveId_loop E resolve ctx rawId importer hopts skip pre st
    = (Ok None, st1, tr1) →
    resolveId_loop E resolve ctx rawId importer hopts skip (pre ++ post) st
    = let '(r, st2, tr2) :=
        resolveId_loop E resolve ctx rawId importer hopts skip post st1 in
      (r, st2, tr1 ++ tr2).
Proof.
  induction pre as [|p rest IH]; intros ctx st st1 tr1 H; simpl in *.
  - injection H as <- <-.
    destruct (resolveId_loop E resolve ctx _ _ _ _ post st) as [[r st2] tr2].
    reflexivity.
  - destruct (closed st && recoverable E); [discriminate|].
    destruct (resolveId p) as [handler|]; [|apply IH, H].
    destruct (skipHas skip (pid p)); [apply IH, H|].
    destruct (run_hook resolve _ (handler rawId importer hopts) st)
      as [[res st'] inner].
    assert (Hcont : ∀ ev,
      (let '(r, st2, tr) :=
         resolveId_loop E resolve (setActivePlugin (pid p) ctx) rawId
           importer hopts skip rest st' in (r, st2, ev :: tr))
      = (Ok None, st1, tr1) →
      (let '(r, st2, tr) :=
         resolveId_loop E resolve (setActivePlugin (pid p) ctx) rawId
           importer hopts skip (rest ++ post) st' in (r, st2, ev :: tr))
      = (let '(r, st2, tr2) :=
           resolveId_loop E resolve ctx rawId importer hopts skip post st1 in
         (r, st2, tr1 ++ tr2))).
    { intros ev Hev.
      destruct (resolveId_loop E resolve (setActivePlugin (pid p) ctx) _ _ _ _
                  rest st') as [[r0 st0] tr0] eqn:Hrest.
      injection Hev as -> -> <-.
      rewrite (IH _ _ _ _ Hrest), resolveId_loop_active.
      destruct (resolveId_loop E resolve ctx _ _ _ _ post st1)
        as [[r st2] tr2]. reflexivity. }
    destruct res as [[| | |s|o]|e|]; try discriminate; try (apply Hcont, H).
    destruct (truthy_str s); [discriminate|]. apply Hcont, H.
Qed.

Lemma load_loop_app resolve id ssr0 post :
  ∀ pre ctx st st1 tr1,
    load_loop E resolve ctx id ssr0 pre st = (Ok LNull, st1, tr1) →
    load_loop E resolve ctx id ssr0 (pre ++ post) st
    = let '(r, st2, tr2) := load_loop E resolve ctx id ssr0 post st1 in
      (r, st2, tr1 ++ tr2).
Proof.
  induction pre as [|p rest IH]; intros ctx st st1 tr1 H; simpl in *.
  - injection H as <- <-.
    destruct (load_loop E resolve ctx _ _ post st) as [[r st2] tr2].
    reflexivity.
  - destruct (closed st && recoverable E); [discriminate|].
    destruct (load p) as [handler|]; [|apply IH, H].
    destruct (run_hook resolve _ (handler id ssr0) st) as [[res st'] inner].
    assert (Hcont : ∀ ev,
      (let '(r, st2, tr) :=
         load_loop E resolve (setActivePlugin (pid p) ctx) id ssr0 rest st' in
       (r, st2, ev :: tr))
      = (Ok LNull, st1, tr1) →
      (let '(r, st2, tr) :=
         load_loop E resolve (setActivePlugin (pid p) ctx) id ssr0
           (rest ++ post) st' in (r, st2, ev :: tr))
      = (let '(r, st2, tr2) := load_loop E resolve ctx id ssr0 post st1 in
         (r, st2, tr1 ++ tr2))).
    { intros ev Hev.
      destruct (load_loop E resolve (setActivePlugin (pid p) ctx) _ _ rest st')
        as [[r0 st0] tr0] eqn:Hrest.
      injection Hev as -> -> <-.
      rewrite (IH _ _ _ _ Hrest), load_loop_active.
      destruct (load_loop E resolve ctx _ _ post st1) as [[r st2] tr2].
      reflexivity. }
    destruct res as [[| |s|o]|e|]; try discriminate; apply Hcont, H.
Qed.

(** First result of [resolveId]: when the plugins before [p] gave none and
    the handler of [p] returns a truthy result, the loop ends there, and no
    plugin after [p] is invoked. *)
Lemma resolveId_first_truthy resolve rawId importer hopts skip
    pre p post handler ctx st st1 tr1 res st2 inner partial :
  resolveId_loop E resolve ctx rawId importer hopts skip pre st
  = (Ok None, st1, tr1) →
  closed st1 && recoverable E = false →
  resolveId p = Some handler →
  skipHas skip (pid p) = false →
  run_hook resolve (setActivePlugin (pid p) ctx)
    (handler rawId importer hopts) st1 = (Ok res, st2, inner) →
  truthy_resolved res = Some partial →
  resolveId_loop E resolve ctx rawId importer hopts skip (pre ++ p :: post) st
  = (Ok (Some partial), st2,
     tr1 ++ [HookCall HResolveId (pid p) [rawId] inner]).
Proof.
  intros Hpre Hc Hh Hs Hrun Ht.
  rewrite (resolveId_loop_app _ _ _ _ _ _ _ _ _ _ _ Hpre). simpl.
  rewrite Hc, Hh, Hs, Hrun.
  destruct res as [| | |s|o]; simpl in Ht; try discriminate.
  - destruct (truthy_str s); [|discriminate]. injection Ht as <-.
    reflexivity.
  - injection Ht as <-. reflexivity.
Qed.

(** First result of [load]: when the plugins before [p] gave none and the
    handler of [p] returns a result other than null and undefined, the
    loop ends there, and no plugin after [p] is invoked. *)
Lemma load_first_non_null resolve id ssr0
    pre p post handler ctx st st1 tr1 res st2 inner :
  load_loop E resolve ctx id ssr0 pre st = (Ok LNull, st1, tr1) →
  closed st1 && recoverable E = false →
  load p = Some handler →
  run_hook resolve (setActivePlugin (pid p) ctx) (handler id ssr0) st1
  = (Ok res, st2, inner) →
  non_null_loaded res = true →
  load_loop E resolve ctx id ssr0 (pre ++ p :: post) st
  = (Ok res,
     match res with
     | LObject o => _updateModuleInfo id (sd_meta o) st2
     | _ => st2
     end,
     tr1 ++ [HookCall HLoad (pid p) [id] inner]).
Proof.
  intros Hpre Hc Hh Hrun Ht.
  rewrite (load_loop_app _ _ _ _ _ _ _ _ _ Hpre). simpl.
  rewrite Hc, Hh, Hrun.
  destruct res as [| |s|o]; simpl in Ht; try discriminate; reflexivity.
Qed.

(** The handlers are invoked in the order of the sorted list. *)
Lemma resolveId_loop_order resolve rawId importer hopts skip :
  ∀ plugins ctx st,
    visited (resolveId_loop E resolve ctx rawId importer hopts skip
               plugins st).2
    `prefix_of` map pid (List.filter (resolvable skip) plugins).
Proof.
  induction plugins as [|p rest IH]; intros ctx st; simpl;
    [apply prefix_nil|].
  destruct (closed st && recoverable E); [apply prefix_nil|].
  unfold resolvable at 1.
  destruct (resolveId p) as [handler|]; [|apply IH].
  destruct (skipHas skip (pid p)); simpl; [apply IH|].
  destruct (run_hook resolve _ (handler rawId importer hopts) st)
    as [[res st'] inner].
  pose proof (IH (setActivePlugin (pid p) ctx) st') as IH'.
  destruct (resolveId_loop E resolve (setActivePlugin (pid p) ctx) _ _ _ _
              rest st') as [[r0 st0] tr0]. simpl in IH'.
  assert (Hone : [pid p] `prefix_of`
                 pid p :: map pid (List.filter (resolvable skip) rest)).
  { apply (prefix_cons (pid p) []), prefix_nil. }
  destruct res as [[| | |s|o]|e|]; simpl; try exact Hone;
    try (apply prefix_cons, IH').
  destruct (truthy_str s); simpl; [exact Hone|apply prefix_cons, IH'].
Qed.

Lemma load_loop_order resolve id ssr0 :
  ∀ plugins ctx st,
    visited (load_loop E resolve ctx id ssr0 plugins st).2
    `prefix_of` map pid (List.filter loadable plugins).
Proof.
  induction plugins as [|p rest IH]; intros ctx st; simpl;
    [apply prefix_nil|].
  destruct (closed st && recoverable E); [apply prefix_nil|].
  unfold loadable at 1.
  destruct (load p) as [handler|]; [|apply IH]. simpl.
  destruct (run_hook resolve _ (handler id ssr0) st) as [[res st'] inner].
  pose proof (IH (setActivePlugin (pid p) ctx) st') as IH'.
  destruct (load_loop E resolve (setActivePlugin (pid p) ctx) _ _ rest st')
    as [[r0 st0] tr0]. simpl in IH'.
  assert (Hone : [pid p] `prefix_of`
                 pid p :: map pid (List.filter loadable rest)).
  { apply (prefix_cons (pid p) []), prefix_nil. }
  destruct res as [[| |s|o]|e|]; simpl; try exact Hone;
    apply prefix_cons, IH'.
Qed.

(** A loop that ends without a result has invoked every handler. *)
Lemma resolveId_loop_null resolve rawId importer hopts skip :
  ∀ plugins ctx st st1 tr,
    resolveId_loop E resolve ctx rawId importer hopts skip plugins st
    = (Ok None, st1, tr) →
    visited tr = map pid (List.filter (resolvable skip) plugins).
Proof.
  induction plugins as [|p rest IH]; intros ctx st st1 tr H; simpl in *.
  - injection H as <- <-. reflexivity.
  - destruct (closed st && recoverable E); [discriminate|].
    unfold resolvable at 1.
    destruct (resolveId p) as [handler|]; [|apply (IH _ _ _ _ H)].
    destruct (skipHas skip (pid p)); simpl; [apply (IH _ _ _ _ H)|].
    destruct (run_hook resolve _ (handler rawId importer hopts) st)
      as [[res st'] inner].
    destruct (resolveId_loop E resolve (setActivePlugin (pid p) ctx) _ _ _ _
                rest st') as [[r0 st0] tr0] eqn:Hrest.
    destruct res as [[| | |s|o]|e|]; try discriminate;
      try (injection H as -> -> <-; simpl; f_equal; apply (IH _ _ _ _ Hrest)).
    destruct (truthy_str s); [discriminate|].
    injection H as -> -> <-; simpl; f_equal; apply (IH _ _ _ _ Hrest).
Qed.

Lemma load_loop_null resolve id ssr0 :
  ∀ plugins ctx st st1 tr,
    load_loop E resolve ctx id ssr0 plugins st = (Ok LNull, st1, tr) →
    visited tr = map pid (List.filter loadable plugins).
Proof.
  induction plugins as [|p rest IH]; intros ctx st st1 tr H; simpl in *.
  - injection H as <- <-. reflexivity.
  - destruct (closed st && recoverable E); [discriminate|].
    unfold loadable at 1.
    destruct (load p) as [handler|]; [|apply (IH _ _ _ _ H)]. simpl.
    destruct (run_hook resolve _ (handler id ssr0) st) as [[res st'] inner].
    destruct (load_loop E resolve (setActivePlugin (pid p) ctx) _ _ rest st')
      as [[r0 st0] tr0] eqn:Hrest.
    destruct res as [[| |s|o]|e|]; try discriminate;
      injection H as -> -> <-; simpl; f_equal; apply (IH _ _ _ _ Hrest).
Qed.

(** No handler of a skipped plugin is invoked by the loop. *)
Lemma resolveId_loop_skips resolve rawId importer hopts skip :
  ∀ plugins ctx st,
    Forall (λ ev, skipHas skip (ev_plugin ev) = false)
      (resolveId_loop E resolve ctx rawId importer hopts skip plugins st).2.
Proof.
  induction plugins as [|p rest IH]; intros ctx st; simpl; [constructor|].
  destruct (closed st && recoverable E); [constructor|].
  destruct (resolveId p) as [handler|]; [|apply IH].
  destruct (skipHas skip (pid p)) eqn:Hs; [apply IH|].
  destruct (run_hook resolve _ (handler rawId importer hopts) st)
    as [[res st'] inner].
  pose proof (IH (setActivePlugin (pid p) ctx) st') as IH'.
  destruct (resolveId_loop E resolve (setActivePlugin (pid p) ctx) _ _ _ _
              rest st') as [[r0 st0] tr0]. simpl in IH'.
  destruct res as [[| | |s|o]|e|]; simpl;
    try (constructor; [exact Hs|constructor]);
    try (constructor; [exact Hs|exact IH']).
  destruct (truthy_str s); simpl; constructor; try exact Hs;
    [constructor|exact IH'].
Qed.

End FirstResult.

Section FirstResultExamples.

Import PluginContainer Scenarios.

(** Scenario A of the specification: P2 resolves "a", P3 is not invoked. *)
Example scenario_A :
  container_resolveId (containerOf false scenarioA) 1 openState "a" None None
  = (Ok (Some {| rid_id := "/abs/a.js"; rid_props := [] |}), openState,
     [HookCall HResolveId 1 ["a"] []; HookCall HResolveId 2 ["a"] []]).
Proof. vm_compute. reflexivity. Qed.

(** C2 at a first plugin that answers [false]. [false] is a result other
    than null, yet [resolveId] goes on: the handler of the second plugin is
    invoked and its answer is what the call returns. *)
Theorem resolveId_goes_on_after_false :
  container_resolveId (containerOf false externalThenResolved) 1 openState
    "a" None None
  = (Ok (Some {| rid_id := "/abs/b.js"; rid_props := [] |}), openState,
     [HookCall HResolveId 1 ["a"] []; HookCall HResolveId 2 ["a"] []]).
Proof. vm_compute. reflexivity. Qed.

(** [load] stops at an empty string, which is not null: the third plugin
    is not invoked. *)
Example load_stops_at_empty_string :
  container_load (containerOf false emptyCodeLoaded) 1 openState "/a.js"
  = (Ok (LString ""), openState,
     [HookCall HLoad 1 ["/a.js"] []; HookCall HLoad 2 ["/a.js"] []]).
Proof. vm_compute. reflexivity. Qed.

End FirstResultExamples.

Section ThisResolve.

Import PluginContainer.

Context (E : Env).

Lemma resolveId_body_trace resolve st rawId importer options :
  (resolveId_body E resolve st rawId importer options).2
  = (resolveId_loop E resolve (resolveIdContext options) rawId
       (default (defaultImporter E) importer)
       (resolveIdHookOptions E options) (options ≫= ro_skip)
       (getSortedPlugins E HResolveId) st).2.
Proof.
  unfold resolveId_body.
  destruct (resolveId_loop E resolve _ _ _ _ _ _ st) as [[r st1] tr].
  destruct r; reflexivity.
Qed.

(** C5, as the code has it. A context with active plugin [p] calls
    [this.resolve(id, importer, options)].  Unless [options.skipSelf] is
    [false], the call is [container.resolveId] with the skip set made of
    the accumulated skips and [p], and the loop of that call invokes no
    handler of [p] nor of an accumulated skip.  With [skipSelf: false] the
    call is [container.resolveId] without a skip set, the accumulated
    skips dropped as well, and the handler of [p] is invoked again
    provided the loop gets to it: the sorted plugins before [p] give no
    result and the container does not throw ClosedServer at [p]. *)
Theorem this_resolve_skip_self (fuel : nat) (ctx : Context) (p : nat)
    (st : St) (id : string) (importer : option string)
    (options : option ThisResolveOptions) :
  _activePlugin ctx = Some p →
  let ropts := thisResolveOptions ctx options in
  let call :=
    Context_resolve (container_resolveId E (S fuel)) ctx st id importer
      options in
  call = container_resolveId E (S fuel) st id importer (Some ropts) ∧
  (skipSelfRequested options = true →
   ro_skip ropts = Some (default ∅ (_resolveSkips ctx) ∪ {[p]}) ∧
   ∀ q, q = p ∨ q ∈ default ∅ (_resolveSkips ctx) → q ∉ visited call.2) ∧
  (skipSelfRequested options = false →
   ro_skip ropts = None ∧
   ∀ pre plugin post handler st1 tr1,
     getSortedPlugins E HResolveId = pre ++ plugin :: post →
     pid plugin = p →
     resolveId plugin = Some handler →
     resolveId_loop E (container_resolveId E fuel)
       (resolveIdContext (Some ropts)) id
       (default (defaultImporter E) importer)
       (resolveIdHookOptions E (Some ropts)) None pre st
     = (Ok None, st1, tr1) →
     closed st1 && recoverable E = false →
     ∃ inner rest, call.2 = tr1 ++ HookCall HResolveId p [id] inner :: rest).
Proof.
  intros Hp ropts call.
  assert (Hskip : ro_skip ropts = resolveSkip ctx options) by reflexivity.
  unfold resolveSkip in Hskip. rewrite Hp in Hskip.
  split; [reflexivity|]. split.
  - intros Hreq. rewrite Hreq in Hskip. split; [exact Hskip|].
    intros q Hq Hin.
    unfold call, Context_resolve in Hin. simpl in Hin.
    rewrite resolveId_body_trace in Hin.
    pose proof (resolveId_loop_skips E (container_resolveId E fuel) id
                  (default (defaultImporter E) importer)
                  (resolveIdHookOptions E (Some ropts))
                  (Some ropts ≫= ro_skip)
                  (getSortedPlugins E HResolveId)
                  (resolveIdContext (Some ropts)) st) as Hall.
    unfold visited in Hin. apply list_elem_of_fmap in Hin.
    destruct Hin as (ev & -> & Hev).
    rewrite Forall_forall in Hall. specialize (Hall ev Hev).
    change (Some ropts ≫= ro_skip) with (ro_skip ropts) in Hall.
    rewrite Hskip in Hall. simpl in Hall.
    apply bool_decide_eq_false in Hall. apply Hall.
    destruct Hq as [->|Hq]; set_solver.
  - intros Hreq. rewrite Hreq in Hskip. split; [exact Hskip|].
    intros pre plugin post handler st1 tr1 Hsorted Hpid Hh Hpre Hc.
    unfold call, Context_resolve. simpl.
    rewrite resolveId_body_trace. unfold ropts in *.
    change (Some (thisResolveOptions ctx options) ≫= ro_skip)
      with (ro_skip (thisResolveOptions ctx options)).
    rewrite Hskip, Hsorted.
    rewrite (resolveId_loop_app E _ _ _ _ _ _ _ _ _ _ _ Hpre). simpl.
    rewrite Hc, Hh, Hpid.
    destruct (run_hook _ _ (handler id _ _) st1) as [[res st2] inner].
    destruct (resolveId_loop E _ (setActivePlugin p _) _ _ _ _ post st2)
      as [[r0 st0] tr0].
    destruct res as [[| | |s|o]|e|]; simpl; eauto.
    destruct (truthy_str s); simpl; eauto.
Qed.

Lemma reachedAll_app tr1 tr2 :
  reachedAll (tr1 ++ tr2) = reachedAll tr1 ++ reachedAll tr2.
Proof. apply flat_map_app. Qed.

Lemma reachedAll_cons h q args inner tr :
  reachedAll (HookCall h q args inner :: tr)
  = q :: reachedAll inner ++ reachedAll tr.
Proof. reflexivity. Qed.

Lemma run_hook_never_reaches {R : Type} p resolve (h : Hook R) :
  never_reaches p resolve → keepsSkips h →
  ∀ ctx q s st,
    _activePlugin ctx = Some q → _resolveSkips ctx = Some s → p ∈ s →
    p ∉ reachedAll (run_hook resolve ctx h st).2.
Proof.
  intros Hres Hk. induction Hk as [r|e|id importer options k Hreq _ IH];
    intros ctx q s st Hq Hs Hp; simpl; try apply not_elem_of_nil.
  assert (Hcall : p ∉ reachedAll
                        (Context_resolve resolve ctx st id importer options).2).
  { unfold Context_resolve.
    apply (Hres _ _ _ _ (s ∪ {[q]})); [|set_solver].
    simpl. unfold resolveSkip. rewrite Hq, Hreq, Hs. reflexivity. }
  destruct (Context_resolve resolve ctx st id importer options)
    as [[out st1] tr1]. simpl in Hcall.
  destruct out as [v|e|]; simpl; [| |exact Hcall].
  - specialize (IH (inr v) ctx q s st1 Hq Hs Hp).
    destruct (run_hook resolve ctx (k (inr v)) st1) as [[r st2] tr2].
    simpl in *. rewrite reachedAll_app, elem_of_app. tauto.
  - specialize (IH (inl e) ctx q s st1 Hq Hs Hp).
    destruct (run_hook resolve ctx (k (inl e)) st1) as [[r st2] tr2].
    simpl in *. rewrite reachedAll_app, elem_of_app. tauto.
Qed.

Lemma resolveId_loop_never_reaches p resolve rawId importer hopts s :
  never_reaches p resolve → p ∈ s →
  ∀ plugins ctx st,
    Forall (λ plugin, ∀ handler a b c,
              resolveId plugin = Some handler → keepsSkips (handler a b c))
      plugins →
    _resolveSkips ctx = Some s →
    p ∉ reachedAll
          (resolveId_loop E resolve ctx rawId importer hopts (Some s)
             plugins st).2.
Proof.
  intros Hres Hp. induction plugins as [|plugin rest IH];
    intros ctx st Hall Hs; simpl; [apply not_elem_of_nil|].
  inversion Hall as [|? ? Hk Hrest]; subst.
  destruct (closed st && recoverable E); [apply not_elem_of_nil|].
  destruct (resolveId plugin) as [handler|] eqn:Hh; [|apply IH; assumption].
  destruct (bool_decide (pid plugin ∈ s)) eqn:Hin; [apply IH; assumption|].
  apply bool_decide_eq_false in Hin.
  pose proof (run_hook_never_reaches p resolve (handler rawId importer hopts)
                Hres (Hk _ _ _ _ eq_refl)
                (setActivePlugin (pid plugin) ctx) (pid plugin) s st
                eq_refl Hs Hp) as Hinner.
  destruct (run_hook resolve _ (handler rawId importer hopts) st)
    as [[res st'] inner]. simpl in Hinner.
  pose proof (IH (setActivePlugin (pid plugin) ctx) st' Hrest Hs) as IH'.
  destruct (resolveId_loop E resolve (setActivePlugin (pid plugin) ctx) _ _ _ _
              rest st') as [[r0 st0] tr0]. simpl in IH'.
  assert (Hne : p ≠ pid plugin) by (intros ->; contradiction).
  assert (Hone : p ∉ reachedAll [HookCall HResolveId (pid plugin) [rawId] inner]).
  { rewrite reachedAll_cons, elem_of_cons, elem_of_app.
    intros [?|[?|H]]; [done|done|]. revert H. apply not_elem_of_nil. }
  assert (Hmore : p ∉ reachedAll
                        (HookCall HResolveId (pid plugin) [rawId] inner :: tr0)).
  { rewrite reachedAll_cons, elem_of_cons, elem_of_app. tauto. }
  destruct res as [[| | |x|o]|e|]; simpl; try exact Hone; try exact Hmore.
  destruct (truthy_str x); simpl; [exact Hone|exact Hmore].
Qed.

(** When no [resolveId] handler of the container asks for
    [skipSelf: false], a plugin in the skip set of a [resolveId] call is
    not invoked during that call at any depth: the calls made from inside
    the handlers carry the skip set on. *)
Lemma skipped_plugin_never_reached p :
  Forall (λ plugin, ∀ handler a b c,
            resolveId plugin = Some handler → keepsSkips (handler a b c))
    (getSortedPlugins E HResolveId) →
  ∀ fuel, never_reaches p (container_resolveId E fuel).
Proof.
  intros Hall. induction fuel as [|fuel IH];
    intros st id importer options s Hs Hp; simpl; [apply not_elem_of_nil|].
  rewrite resolveId_body_trace, Hs.
  apply resolveId_loop_never_reaches; assumption.
Qed.

End ThisResolve.

Section ThisResolveExamples.

Import PluginContainer Scenarios.

(** The plugin "self" asking for "main" from inside its own handler: by
    default its handler is not invoked by the call; with [skipSelf: false]
    it is. *)
Lemma this_resolve_skip_self_witness :
  let ctx := setActivePlugin 7 (resolveIdContext None) in
  (7 ∉ visited
         (Context_resolve
            (container_resolveId (containerOf false (selfAsking None)) 2)
            ctx openState "main" None None).2) ∧
  ∃ inner rest,
    (Context_resolve
       (container_resolveId (containerOf false (selfAsking skipSelfFalse)) 2)
       ctx openState "main" None skipSelfFalse).2
    = [] ++ HookCall HResolveId 7 ["main"] inner :: rest.
Proof.
  intros ctx. split.
  - destruct (this_resolve_skip_self (containerOf false (selfAsking None)) 1
                ctx 7 openState "main" None None eq_refl) as (_ & H & _).
    destruct (H eq_refl) as [_ H']. apply H'. left. reflexivity.
  - destruct (this_resolve_skip_self
                (containerOf false (selfAsking skipSelfFalse)) 1
                ctx 7 openState "main" None skipSelfFalse eq_refl)
      as (_ & _ & H).
    destruct (H eq_refl) as [_ H'].
    apply (H' [] _ [] _ openState [] eq_refl eq_refl eq_refl eq_refl eq_refl).
Defined.

(** C5, as the specification states it, fails in its last part: the plugin
    "main" (2) calls [this.resolve("dep", importer, {skipSelf: false})];
    the plugin "deps" (1), sorted before it, resolves "dep", and the
    handler of "main" is not invoked again. *)
Lemma this_resolve_unskipped_not_reentered :
  let E := containerOf false (askingFor skipSelfFalse) in
  let ctx := setActivePlugin 2 (resolveIdContext None) in
  _activePlugin ctx = Some 2 ∧
  skipSelfRequested skipSelfFalse = false ∧
  Context_resolve (container_resolveId E 1) ctx openState "dep"
    (Some "/root/index.html") skipSelfFalse
  = (Ok (Some {| rid_id := "/dep.js"; rid_props := [] |}), openState,
     [HookCall HResolveId 1 ["dep"] []]) ∧
  container_resolveId E 2 openState "main" None None
  = (Ok (Some {| rid_id := "/dep.js"; rid_props := [] |}), openState,
     [HookCall HResolveId 1 ["main"] [];
      HookCall HResolveId 2 ["main"] [HookCall HResolveId 1 ["dep"] []]]).
Proof. repeat split; vm_compute; reflexivity. Qed.

End ThisResolveExamples.

Section TransformResults.

Import PluginContainer.

Context (E : Env).

(** [_updateModuleInfo] with a [meta]: the info of a known module gets the
    properties of [meta] on top of its own. *)
Lemma updateModuleInfo_meta id meta st g n :
  moduleGraph st = Some g → g !! id = Some n →
  (getModuleInfo id (_updateModuleInfo id (Some meta) st)).1
  = Some {| mi_id := mi_id (infoOf id n);
            mi_meta := spread (mi_meta (infoOf id n)) meta |}.
Proof.
  intros Hg Hn. unfold _updateModuleInfo, getModuleInfo. rewrite Hg, Hn.
  simpl. rewrite lookup_insert_eq. reflexivity.
Qed.

(** [_updateModuleInfo] without a [meta] changes nothing. *)
Lemma updateModuleInfo_none id st : _updateModuleInfo id None st = st.
Proof. reflexivity. Qed.

(** C3, as the code has it. When the handler of [plugin] returns an
    object, the loop goes on with the running code replaced by
    [result.code] only if that is not undefined; with [result.map] pushed
    onto the chain only if [result.code] is not undefined and the map is
    truthy; and with [_updateModuleInfo(id, result)] applied. *)
Theorem transform_object_result (resolve : ResolveFn) (ctx : TransformContext)
    (code id : string) (hopts : TransformHookOptions)
    (plugin : Plugin) (rest : list Plugin) (st st1 : St)
    (handler : string → string → TransformHookOptions → Hook TransformResult)
    (result : SourceDescription) (inner : list Event) :
  closed st && recoverable E = false →
  transform plugin = Some handler →
  run_hook resolve (base (activate (pid plugin) id code ctx))
    (handler code id hopts) st = (Ok (TObject result), st1, inner) →
  ∃ ctx2 code2,
    transform_loop E resolve ctx code id hopts (plugin :: rest) st
    = (let '(r, st3, tr) :=
         transform_loop E resolve ctx2 code2 id hopts rest
           (_updateModuleInfo id (sd_meta result) st1) in
       (r, st3, HookCall HTransform (pid plugin) [code; id] inner :: tr)) ∧
    code2 = default code (sd_code result) ∧
    sourcemapChain ctx2
    = match sd_code result, truthy_map (sd_map result) with
      | Some _, Some m => sourcemapChain ctx ++ [m]
      | _, _ => sourcemapChain ctx
      end ∧
    combinedMap ctx2 = combinedMap ctx ∧
    filename ctx2 = filename ctx ∧
    originalCode ctx2 = originalCode ctx.
Proof.
  intros Hc Hh Hrun. simpl. simpl in Hrun. rewrite Hc, Hh, Hrun.
  destruct (sd_code result) as [c|] eqn:Hcode.
  - destruct (truthy_map (sd_map result)) as [m|] eqn:Hmap.
    + exists (pushMap m (activate (pid plugin) id code ctx)), c.
      repeat split.
    + exists (activate (pid plugin) id code ctx), c. repeat split.
  - exists (activate (pid plugin) id code ctx), code. repeat split.
Qed.

End TransformResults.

Section TransformResultsExamples.

Import PluginContainer Scenarios.

(** Scenario B of the specification. *)
Example scenario_B :
  (container_transform (containerOf false scenarioB) 1 openState
     "X" "/f.js" None).1.1
  = Ok {| out_code := "Z";
          out_map := Some {| version := Some 3%Z; mappings := "AAAA";
                             sources := [Some "/f.js"];
                             sourcesContent := Some [Some "X"];
                             names := [] |} |}.
Proof. vm_compute. reflexivity. Qed.

(** The first plugin of scenario B: code "Y" and the map pushed. *)
Lemma transform_object_result_witness :
  let E := containerOf false scenarioB in
  let ctx := newTransformContext "/f.js" "X" MapUndefined in
  let hopts := {| tho_inMap := MapUndefined; tho_ssr := false |} in
  ∃ ctx2 code2,
    transform_loop E (container_resolveId E 1) ctx "X" "/f.js" hopts
      (pluginB1 :: [pluginB2]) openState
    = (let '(r, st3, tr) :=
         transform_loop E (container_resolveId E 1) ctx2 code2 "/f.js" hopts
           [pluginB2] (_updateModuleInfo "/f.js" (sd_meta resultB1) openState) in
       (r, st3, HookCall HTransform (pid pluginB1) ["X"; "/f.js"] [] :: tr)) ∧
    code2 = default "X" (sd_code resultB1) ∧
    sourcemapChain ctx2
    = match sd_code resultB1, truthy_map (sd_map resultB1) with
      | Some _, Some m => sourcemapChain ctx ++ [m]
      | _, _ => sourcemapChain ctx
      end ∧
    combinedMap ctx2 = combinedMap ctx ∧
    filename ctx2 = filename ctx ∧
    originalCode ctx2 = originalCode ctx.
Proof.
  intros E ctx hopts.
  apply (transform_object_result E (container_resolveId E 1) ctx "X" "/f.js"
           hopts pluginB1 [pluginB2] openState openState handlerB1 resultB1 []);
    reflexivity.
Defined.

(** C3, as the specification states it, fails in its last part: a plugin
    returns [{map: mapB}], a map and no code; the chain stays empty and
    [transform] returns no map. *)
Lemma map_without_code_is_dropped :
  let E := containerOf false mapWithoutCode in
  let ctx := newTransformContext "/f.js" "X" MapUndefined in
  (transform_loop E (container_resolveId E 1) ctx "X" "/f.js"
     {| tho_inMap := MapUndefined; tho_ssr := false |}
     mapWithoutCode openState).1.1
  = Ok (activate 1 "/f.js" "X" ctx, "X") ∧
  sourcemapChain (activate 1 "/f.js" "X" ctx) = [] ∧
  container_transform E 1 openState "X" "/f.js" None
  = (Ok {| out_code := "X"; out_map := None |}, openState,
     [HookCall HTransform 1 ["X"; "/f.js"] []]).
Proof. repeat split; vm_compute; reflexivity. Qed.

End TransformResultsExamples.

Section SourceMapChain.

Import PluginContainer.

Context (E : Env).

Lemma mergeAll_cons file code o maps acc :
  mergeAll E file code (o :: maps) acc
  = mergeAll E file code maps (mergeStep E file code acc o).
Proof. reflexivity. Qed.

Lemma mergeAll_is_Some file code maps acc :
  maps ≠ [] → is_Some (mergeAll E file code maps acc).
Proof.
  revert acc. induction maps as [|o maps IH]; intros acc Hne; [done|].
  rewrite mergeAll_cons. destruct maps as [|o' maps'].
  - simpl. eexists. reflexivity.
  - apply IH. discriminate.
Qed.

(** Over versioned members the loop merges from left to right. *)
Lemma combineChain_versioned file code rest pre maps :
  Forall2 (versioned E) pre maps →
  ∀ cur same,
    combineChain E file code (pre ++ rest) cur same
    = combineChain E file code rest (mergeAll E file code maps cur)
        (match pre with [] => same | _ => false end).
Proof.
  induction 1 as [|m o pre maps [Hp [v Hv]] _ IH]; intros cur same;
    [reflexivity|].
  rewrite mergeAll_cons. simpl. rewrite Hp, Hv.
  destruct cur as [c|]; rewrite IH; unfold mergeStep; destruct pre;
    reflexivity.
Qed.

(** A chain is versioned throughout, or has a first member that is not:
    one that does not parse, or one without a version. *)
Lemma chain_cases (chain : list MapInput) :
  (∃ maps, Forall2 (versioned E) chain maps) ∨
  (∃ pre maps m post,
     chain = pre ++ m :: post ∧ Forall2 (versioned E) pre maps ∧
     ((∃ e, parsed E m = inl e) ∨
      (∃ o, parsed E m = inr o ∧ version o = None))).
Proof.
  induction chain as [|m chain IH].
  - left. exists []. constructor.
  - destruct (parsed E m) as [e|o] eqn:Hp.
    + right. exists [], [], m, chain. split; [reflexivity|].
      split; [constructor|]. left. eauto.
    + destruct (version o) as [v|] eqn:Hv.
      * assert (Hm : versioned E m o) by (split; [exact Hp|rewrite Hv; eauto]).
        destruct IH as [[maps H]|(pre & maps & m' & post & -> & H & Hm')].
        -- left. exists (o :: maps). constructor; assumption.
        -- right. exists (m :: pre), (o :: maps), m', post.
           split; [reflexivity|]. split; [constructor; assumption|exact Hm'].
      * right. exists [], [], m, chain. split; [reflexivity|].
        split; [constructor|]. right. eauto.
Qed.

(** C4, as the code has it. If the stored combined map is the empty
    sentinel, it is returned and the chain is emptied.  Otherwise the
    first member of the chain without a version decides: if its mappings
    are empty, the combined map becomes the sentinel and the chain is
    emptied; if not, the result is null, and the stored map is set to null
    and the chain emptied only if a combined map was stored.  A chain of
    versioned maps is merged from left to right into the stored map, and a
    non-empty one is emptied. *)
Theorem combined_sourcemap_collapse (ctx : TransformContext) :
  (storedEmpty ctx = true →
   _getCombinedSourcemap E ctx = (Ok (combinedMap ctx), setChain [] ctx)) ∧
  (storedEmpty ctx = false →
   ∀ pre maps,
     Forall2 (versioned E) pre maps →
     (∀ m o post,
        sourcemapChain ctx = pre ++ m :: post →
        parsed E m = inr o → version o = None →
        (mappings o = "" →
         _getCombinedSourcemap E ctx
         = (Ok (Some emptyMap),
            setChain [] (setCombinedMap (Some emptyMap) ctx))) ∧
        (mappings o ≠ "" →
         _getCombinedSourcemap E ctx
         = (Ok None,
            match combinedMap ctx with
            | Some _ => setChain [] (setCombinedMap None ctx)
            | None => ctx
            end))) ∧
     (sourcemapChain ctx = pre →
      let merged :=
        mergeAll E (filename ctx) (originalCode ctx) maps (combinedMap ctx) in
      _getCombinedSourcemap E ctx
      = (Ok merged,
         match pre with
         | [] => ctx
         | _ => setChain [] (setCombinedMap merged ctx)
         end))).
Proof.
  split.
  - intros Hs. unfold _getCombinedSourcemap. unfold storedEmpty in Hs.
    rewrite Hs. reflexivity.
  - intros Hs pre maps Hv. unfold storedEmpty in Hs. split.
    + intros m o post Hchain Hp Hver. split; intros Hm;
        unfold _getCombinedSourcemap; rewrite Hs, Hchain,
          (combineChain_versioned _ _ _ _ _ Hv); simpl; rewrite Hp, Hver.
      * rewrite Hm. reflexivity.
      * destruct (String.eqb_spec (mappings o) ""); [contradiction|].
        simpl. destruct (combinedMap ctx); reflexivity.
    + intros Hchain merged. unfold _getCombinedSourcemap.
      rewrite Hs, Hchain.
      rewrite <- (app_nil_r pre) at 1.
      rewrite (combineChain_versioned _ _ _ _ _ Hv). simpl.
      destruct Hv as [|m o pre maps Hm Hv].
      * simpl in *. unfold merged, differs. simpl.
        destruct (combinedMap ctx); reflexivity.
      * destruct (mergeAll_is_Some (filename ctx) (originalCode ctx)
                    (o :: maps) (combinedMap ctx)) as [x Hx]; [discriminate|].
        unfold merged. rewrite Hx. reflexivity.
Qed.

End SourceMapChain.

Section SourceMapChainExamples.

Import PluginContainer Scenarios.

(** A versioned map followed by the sentinel: the combined map becomes the
    sentinel and the chain is emptied. *)
Lemma combined_sourcemap_collapse_witness :
  let ctx := contextWith [MapObj mapB; MapObj emptyMap] None in
  _getCombinedSourcemap (containerOf false []) ctx
  = (Ok (Some emptyMap), setChain [] (setCombinedMap (Some emptyMap) ctx)).
Proof.
  intros ctx.
  destruct (combined_sourcemap_collapse (containerOf false []) ctx)
    as [_ H].
  destruct (H eq_refl [MapObj mapB] [mapB]) as [H1 _].
  - constructor; [|constructor]. split; [reflexivity|]. eexists. reflexivity.
  - destruct (H1 (MapObj emptyMap) emptyMap [] eq_refl eq_refl eq_refl)
      as [H2 _].
    apply H2. reflexivity.
Defined.

(** C4, as the specification states it, fails.  A chain that holds
    nothing but a nullified map, with no combined map stored: the result
    is null and the chain is not emptied.  A chain whose first member is a
    nullified map and whose second is the sentinel: a member is the
    sentinel and yet the combined map is null.  The same two members in the
    other order: a member is null and yet the combined map is the
    sentinel. *)
Lemma first_invalid_member_decides :
  isEmptyMap emptyMap = true ∧
  isEmptyMap nullifiedMap = false ∧ version nullifiedMap = None ∧
  _getCombinedSourcemap (containerOf false [])
    (contextWith [MapObj nullifiedMap] None)
  = (Ok None, contextWith [MapObj nullifiedMap] None) ∧
  _getCombinedSourcemap (containerOf false [])
    (contextWith [MapObj nullifiedMap; MapObj emptyMap] None)
  = (Ok None, contextWith [MapObj nullifiedMap; MapObj emptyMap] None) ∧
  _getCombinedSourcemap (containerOf false [])
    (contextWith [MapObj emptyMap; MapObj nullifiedMap] None)
  = (Ok (Some emptyMap), contextWith [] (Some emptyMap)).
Proof. repeat split; vm_compute; reflexivity. Qed.

End SourceMapChainExamples.

Section PublicSourceMap.

Import PluginContainer.

Context (E : Env).

Lemma combineChain_not_OutOfFuel file code :
  ∀ chain cur same, combineChain E file code chain cur same ≠ OutOfFuel.
Proof.
  induction chain as [|m chain IH]; intros cur same; simpl; [discriminate|].
  destruct (parsed E m) as [e|o]; [discriminate|].
  destruct (version o); [destruct cur; apply IH|].
  destruct (String.eqb (mappings o) ""); discriminate.
Qed.

Lemma combineChain_parses file code :
  ∀ chain cur same,
    Forall (λ m, ∃ o, parsed E m = inr o) chain →
    ∃ r, combineChain E file code chain cur same = Ok r.
Proof.
  induction chain as [|m chain IH]; intros cur same H; simpl; [eauto|].
  inversion H as [|? ? [o Ho] Hrest]; subst. rewrite Ho.
  destruct (version o); [destruct cur; apply IH, Hrest|].
  destruct (String.eqb (mappings o) ""); eauto.
Qed.

Lemma getCombinedSourcemap_frame ctx :
  filename (_getCombinedSourcemap E ctx).2 = filename ctx ∧
  originalCode (_getCombinedSourcemap E ctx).2 = originalCode ctx.
Proof.
  unfold _getCombinedSourcemap.
  destruct (match combinedMap ctx with Some c => isEmptyMap c | None => false end);
    [split; reflexivity|].
  destruct (combineChain E _ _ _ _ _) as [[cur same]|e|]; try (split; reflexivity).
  destruct (differs cur same (combinedMap ctx)); split; reflexivity.
Qed.

Lemma getCombinedSourcemap_not_OutOfFuel ctx :
  (_getCombinedSourcemap E ctx).1 ≠ OutOfFuel.
Proof.
  unfold _getCombinedSourcemap.
  destruct (match combinedMap ctx with Some c => isEmptyMap c | None => false end);
    [discriminate|].
  pose proof (combineChain_not_OutOfFuel (filename ctx) (originalCode ctx)
                (sourcemapChain ctx) (combinedMap ctx) true) as H.
  destruct (combineChain E _ _ _ _ _) as [[cur same]|e|]; try done.
  destruct (differs cur same (combinedMap ctx)); discriminate.
Qed.

Lemma getCombinedSourcemap_parses ctx :
  Forall (λ m, ∃ o, parsed E m = inr o) (sourcemapChain ctx) →
  ∃ r, (_getCombinedSourcemap E ctx).1 = Ok r.
Proof.
  intros H. unfold _getCombinedSourcemap.
  destruct (match combinedMap ctx with Some c => isEmptyMap c | None => false end);
    [eauto|].
  destruct (combineChain_parses (filename ctx) (originalCode ctx)
              (sourcemapChain ctx) (combinedMap ctx) true H) as [[cur same] ->].
  destruct (differs cur same (combinedMap ctx)); eauto.
Qed.

Lemma isEmptyMap_versioned m : is_Some (version m) → isEmptyMap m = false.
Proof. intros [v Hv]. unfold isEmptyMap. rewrite Hv. reflexivity. Qed.

Lemma isEmptyMap_false_empty_mappings m :
  isEmptyMap m = false → mappings m = "" → is_Some (version m).
Proof.
  unfold isEmptyMap. destruct (version m); [eauto|].
  intros H Hm. rewrite Hm in H. discriminate.
Qed.

(** C9, as the code has it, with MagicString's [generateMap] giving a
    versioned map whose mappings are not empty when the code is not.
    [getCombinedSourcemap] returns a map whenever the members of the chain
    parse; the map is never the empty sentinel; it is the identity map of
    the original code when the combined map is missing or the sentinel,
    and the combined map itself otherwise.  For a non-empty original code
    its mappings are not empty, except when the combined map is a
    versioned map whose own mappings are empty: that map is returned as it
    is. *)
Theorem public_sourcemap_fallback (ctx : TransformContext) :
  (∀ code source, is_Some (version (generateMap E code source))) →
  (∀ code source, code ≠ "" → mappings (generateMap E code source) ≠ "") →
  (Forall (λ m, ∃ o, parsed E m = inr o) (sourcemapChain ctx) →
   ∃ m, (getCombinedSourcemap E ctx).1 = Ok m) ∧
  (getCombinedSourcemap E ctx).1 ≠ OutOfFuel ∧
  ∀ m, (getCombinedSourcemap E ctx).1 = Ok m →
    isEmptyMap m = false ∧
    ((_getCombinedSourcemap E ctx).1 = Ok None ∨
     (∃ c, (_getCombinedSourcemap E ctx).1 = Ok (Some c) ∧ isEmptyMap c = true) →
     m = identityMap E ctx) ∧
    ((∃ c, (_getCombinedSourcemap E ctx).1 = Ok (Some c) ∧ isEmptyMap c = false) →
     (_getCombinedSourcemap E ctx).1 = Ok (Some m)) ∧
    (originalCode ctx ≠ "" → mappings m = "" →
     (_getCombinedSourcemap E ctx).1 = Ok (Some m) ∧ is_Some (version m)).
Proof.
  intros Hver Hmap.
  pose proof (getCombinedSourcemap_frame ctx) as [Hfile Hcode].
  pose proof (getCombinedSourcemap_not_OutOfFuel ctx) as Hfuel.
  pose proof (getCombinedSourcemap_parses ctx) as Hparse.
  unfold getCombinedSourcemap, identityMap.
  destruct (_getCombinedSourcemap E ctx) as [r ctx1]. simpl in *.
  rewrite <- Hfile, <- Hcode.
  destruct r as [[c|]|e|]; simpl.
  - destruct (isEmptyMap c) eqn:Hc; simpl.
    + split; [eauto|]. split; [discriminate|].
      intros m [= <-]. split; [apply isEmptyMap_versioned, Hver|].
      split; [reflexivity|]. split.
      * intros (c' & [= <-] & Hc'). congruence.
      * intros Hne Hm. exfalso. exact (Hmap _ _ Hne Hm).
    + split; [eauto|]. split; [discriminate|].
      intros m [= <-]. split; [exact Hc|]. split.
      * intros [H|(c' & [= <-] & Hc')]; congruence.
      * split; [reflexivity|]. intros _ Hm. split; [reflexivity|].
        apply isEmptyMap_false_empty_mappings; assumption.
  - split; [eauto|]. split; [discriminate|].
    intros m [= <-]. split; [apply isEmptyMap_versioned, Hver|].
    split; [reflexivity|]. split.
    + intros (c' & H & _). discriminate.
    + intros Hne Hm. exfalso. exact (Hmap _ _ Hne Hm).
  - split.
    + intros H. destruct (Hparse H) as [r Hr]. discriminate.
    + split; [discriminate|]. intros m H. discriminate.
  - contradiction.
Qed.

End PublicSourceMap.

Section PublicSourceMapExamples.

Import PluginContainer Scenarios.

Lemma containerOf_generateMap_versioned rec ps code source :
  is_Some (version (generateMap (containerOf rec ps) code source)).
Proof. eexists. reflexivity. Qed.

Lemma containerOf_generateMap_mappings rec ps code source :
  code ≠ "" → mappings (generateMap (containerOf rec ps) code source) ≠ "".
Proof.
  intros Hne. simpl. unfold truthy_str.
  destruct (String.eqb_spec code ""); [contradiction|discriminate].
Qed.

(** A context whose chain holds the sentinel: [getCombinedSourcemap]
    returns the identity map of the original code "X". *)
Lemma public_sourcemap_fallback_witness :
  let E := containerOf false [] in
  let ctx := contextWith [MapObj emptyMap] None in
  ∃ m, (getCombinedSourcemap E ctx).1 = Ok m ∧
       isEmptyMap m = false ∧ m = identityMap E ctx.
Proof.
  intros E ctx.
  destruct (public_sourcemap_fallback E ctx
              (containerOf_generateMap_versioned false [])
              (containerOf_generateMap_mappings false []))
    as (Hret & _ & Hmap).
  destruct Hret as [m Hm].
  - constructor; [|constructor]. eexists. reflexivity.
  - exists m. split; [exact Hm|].
    destruct (Hmap m Hm) as (H1 & H2 & _). split; [exact H1|].
    apply H2. right. exists emptyMap. split; reflexivity.
Defined.

(** C9, as the specification states it, fails in its last part: the
    original code "X" is not empty, the chain holds one versioned map whose
    mappings are empty, and [getCombinedSourcemap] returns that map. *)
Lemma versioned_empty_map_is_returned :
  let E := containerOf false [] in
  let ctx := contextWith [MapObj versionedEmptyMap] None in
  originalCode ctx = "X" ∧
  (getCombinedSourcemap E ctx).1 = Ok versionedEmptyMap ∧
  mappings versionedEmptyMap = "".
Proof. repeat split; vm_compute; reflexivity. Qed.

End PublicSourceMapExamples.

(* ===================================================================== *)
(** * Further properties of the crawl-end finder                          *)
(* ===================================================================== *)

Section CrawlEndMore.

Import CrawlEnd CrawlEndInvariants.

(** A property of the new finder that every step keeps holds after every
    run. *)
Lemma run_invariant (P : Finder → Prop) :
  P setupOnCrawlEnd → (∀ f e, P f → P (step f e)) →
  ∀ evs, P (run evs setupOnCrawlEnd).
Proof.
  intros H0 Hstep evs. unfold run.
  generalize setupOnCrawlEnd H0. induction evs as [|e evs IH]; intros f Hf;
    simpl; auto.
Qed.

Lemma markIdAsDone_registered j f :
  registeredIds (markIdAsDone j f) = registeredIds f ∖ {[j]}.
Proof.
  unfold markIdAsDone, checkIfCrawlEndAfterTimeout.
  repeat (case_bool_decide || case_match); simpl; set_solver.
Qed.

Lemma step_tracks_pending_work f e :
  tracks_pending_work f → tracks_pending_work (step f e).
Proof.
  intros H. pose proof H as (Hrs & Hrp & Hnd & Hpd & Hds).
  destruct e as [id|[id|]| |id|h ret]; simpl.
  - unfold registerRequestProcessing. case_bool_decide as Hseen; simpl;
      [exact H|].
    unfold tracks_pending_work; split_and!; simpl.
    + set_solver.
    + set_solver.
    + apply NoDup_app. split_and!; [exact Hnd| |apply NoDup_singleton].
      intros x Hx Hx'. apply list_elem_of_singleton in Hx'. subst.
      apply Hseen, Hds, Hx.
    + intros x Hx. rewrite elem_of_app, list_elem_of_singleton.
      apply elem_of_union in Hx as [Hx|Hx]; [left; auto|right; set_solver].
    + intros x Hx. rewrite elem_of_app, list_elem_of_singleton in Hx.
      destruct Hx as [Hx | ->]; set_solver.
  - unfold waitForRequestsIdle. destruct (truthy_str id);
      [|exact H].
    destruct (markIdAsDone_frame id (addSeen id f)) as (Hs & Hd & Hp & _).
    unfold tracks_pending_work.
    rewrite markIdAsDone_registered, Hs, Hd, Hp. simpl.
    split_and!; try assumption; set_solver.
  - exact H.
  - exact H.
  - unfold settleDone. case_bool_decide as Hpend; [|exact H].
    match goal with |- tracks_pending_work (markIdAsDone id ?g) =>
      destruct (markIdAsDone_frame id g) as (Hs & Hd & Hp & _);
      unfold tracks_pending_work;
      rewrite (markIdAsDone_registered id g), Hs, Hd, Hp end.
    simpl. split_and!; try assumption; set_solver.
  - unfold fireTimer, callOnCrawlEndWhenIdle, callOnCrawlEnd, clearTimeout.
    repeat (case_bool_decide || case_match); simpl; exact H.
Qed.

Lemma step_doneInvoked f e id :
  id ∈ doneInvoked (step f e) → id ∈ doneInvoked f ∨ e = Register id.
Proof.
  destruct e as [j|[j|]| |j|h ret]; simpl; auto.
  - unfold registerRequestProcessing. case_bool_decide; simpl; auto.
    rewrite elem_of_app, list_elem_of_singleton. intros [?| ->]; auto.
  - unfold waitForRequestsIdle. destruct (truthy_str j); auto.
    destruct (markIdAsDone_frame j (addSeen j f)) as (_ & -> & _). auto.
  - unfold settleDone. case_bool_decide; auto.
    match goal with |- context [markIdAsDone j ?g] =>
      destruct (markIdAsDone_frame j g) as (_ & -> & _) end. auto.
  - unfold fireTimer, callOnCrawlEndWhenIdle, callOnCrawlEnd, clearTimeout.
    repeat (case_bool_decide || case_match); simpl; auto.
Qed.

Lemma run_doneInvoked id evs :
  ∀ f, id ∈ doneInvoked (run evs f) → id ∈ doneInvoked f ∨ Register id ∈ evs.
Proof.
  induction evs as [|e evs IH]; intros f; simpl; auto.
  intros H. destruct (IH _ H) as [H1|H1]; [|right; set_solver].
  destruct (step_doneInvoked f e id H1) as [?| ->]; [auto|right; set_solver].
Qed.

(** X1. In every state a finder can reach, each registered id has been seen
    and still has its work pending, and [done] has been called at most once
    per id, and only for ids given to [registerRequestProcessing]: an id
    that was only given to [waitForRequestsIdle] never has its [done]
    called. *)
Theorem finder_tracks_pending_work (evs : list Event) :
  tracks_pending_work (run evs setupOnCrawlEnd) ∧
  ∀ id, id ∈ doneInvoked (run evs setupOnCrawlEnd) → Register id ∈ evs.
Proof.
  split.
  - apply run_invariant; [|apply step_tracks_pending_work].
    split_and!; simpl; try set_solver. constructor.
  - intros id H. destruct (run_doneInvoked id evs _ H) as [H0|H0]; [|done].
    simpl in H0. set_solver.
Qed.

Lemma markIdAsDone_one_timer j f : one_timer f → one_timer (markIdAsDone j f).
Proof.
  unfold one_timer, markIdAsDone, checkIfCrawlEndAfterTimeout, setTimeout,
    clearTimeout.
  intros H. repeat (case_bool_decide || case_match); simpl in *; auto;
    intros h Hh.
  - apply elem_of_union in Hh as [Hh|Hh]; [|set_solver].
    apply elem_of_difference in Hh as [Hh Hne]. specialize (H h Hh).
    simplify_eq. set_solver.
  - apply elem_of_union in Hh as [Hh|Hh]; [|set_solver].
    specialize (H h Hh). congruence.
Qed.

Lemma step_one_timer f e : one_timer f → one_timer (step f e).
Proof.
  intros H. destruct e as [id|[id|]| |id|h ret]; simpl; auto.
  - unfold registerRequestProcessing. case_bool_decide; auto.
  - unfold waitForRequestsIdle. destruct (truthy_str id); auto.
    apply markIdAsDone_one_timer. exact H.
  - unfold settleDone. case_bool_decide; auto.
    apply markIdAsDone_one_timer. exact H.
  - unfold fireTimer, callOnCrawlEndWhenIdle, callOnCrawlEnd, clearTimeout.
    unfold one_timer in *.
    repeat (case_bool_decide || case_match); simpl; auto;
      intros h' Hh'; apply H; set_solver.
Qed.

(** X2. At most one debounce timer is armed at any time, the one
    [timeoutHandle] holds: arming a new timer clears the one before. *)
Theorem at_most_one_timer (evs : list Event) (h1 h2 : nat) :
  h1 ∈ armed (run evs setupOnCrawlEnd) →
  h2 ∈ armed (run evs setupOnCrawlEnd) →
  h1 = h2 ∧ timeoutHandle (run evs setupOnCrawlEnd) = Some h1.
Proof.
  assert (H : one_timer (run evs setupOnCrawlEnd)).
  { apply run_invariant; [|apply step_one_timer]. intros h Hh.
    simpl in Hh. set_solver. }
  intros H1 H2. pose proof (H _ H1). pose proof (H _ H2).
  split; congruence.
Qed.

Lemma at_most_one_timer_witness :
  0 = 0 ∧
  timeoutHandle (run [Register "a"; DoneSettles "a"] setupOnCrawlEnd) = Some 0.
Proof.
  apply (at_most_one_timer [Register "a"; DoneSettles "a"] 0 0);
    apply (bool_decide_unpack _); vm_compute; exact I.
Defined.

Lemma markIdAsDone_flags j f :
  deferredResolved (markIdAsDone j f) = deferredResolved f ∧
  crawlEndCalled (markIdAsDone j f) = crawlEndCalled f ∧
  cancelled (markIdAsDone j f) = cancelled f ∧
  onCrawlEndCalls (markIdAsDone j f) = onCrawlEndCalls f.
Proof.
  unfold markIdAsDone, checkIfCrawlEndAfterTimeout.
  repeat (case_bool_decide || case_match); simpl; auto.
Qed.

Lemma step_resolved_after_call f e :
  (deferredResolved f = true → crawlEndCalled f = true) →
  deferredResolved (step f e) = true → crawlEndCalled (step f e) = true.
Proof.
  intros H. destruct e as [id|[id|]| |id|h ret]; simpl; auto.
  - unfold registerRequestProcessing. case_bool_decide; auto.
  - unfold waitForRequestsIdle. destruct (truthy_str id); auto.
    destruct (markIdAsDone_flags id (addSeen id f)) as (-> & -> & _). auto.
  - unfold settleDone. case_bool_decide; auto.
    match goal with |- context [markIdAsDone id ?g] =>
      destruct (markIdAsDone_flags id g) as (-> & -> & _) end. auto.
  - unfold fireTimer, callOnCrawlEndWhenIdle, callOnCrawlEnd, clearTimeout.
    case_bool_decide; auto. simpl.
    destruct (cancelled f); simpl; auto.
    destruct (hasRegistered _); simpl; auto.
    destruct (crawlEndCalled f); simpl; auto.
    destruct ret; simpl; auto.
Qed.

Lemma step_resolved_with_call f e :
  (∀ h, e ≠ TimerFires h false) →
  deferredResolved f = crawlEndCalled f →
  deferredResolved (step f e) = crawlEndCalled (step f e).
Proof.
  intros He H. destruct e as [id|[id|]| |id|h ret]; simpl; auto.
  - unfold registerRequestProcessing. case_bool_decide; auto.
  - unfold waitForRequestsIdle. destruct (truthy_str id); auto.
    destruct (markIdAsDone_flags id (addSeen id f)) as (-> & -> & _). auto.
  - unfold settleDone. case_bool_decide; auto.
    match goal with |- context [markIdAsDone id ?g] =>
      destruct (markIdAsDone_flags id g) as (-> & -> & _) end. auto.
  - destruct ret; [|by destruct (He h)].
    unfold fireTimer, callOnCrawlEndWhenIdle, callOnCrawlEnd, clearTimeout.
    case_bool_decide; auto. simpl.
    destruct (cancelled f); simpl; auto.
    destruct (hasRegistered _); simpl; auto.
    destruct (crawlEndCalled f); simpl; auto.
Qed.

Lemma run_resolved_with_call evs :
  ∀ f, (∀ h, TimerFires h false ∉ evs) →
       deferredResolved f = crawlEndCalled f →
       deferredResolved (run evs f) = crawlEndCalled (run evs f).
Proof.
  induction evs as [|e evs IH]; intros f He H; simpl; auto.
  apply IH; [intros h Hh; apply (He h); set_solver|].
  apply step_resolved_with_call; [|exact H].
  intros h ->. apply (He h). set_solver.
Qed.

(** X3. In every state a finder can reach, the promise
    [waitForRequestsIdle] returns is resolved only if [onCrawlEnd] has
    been called; and for a callback that returns whenever a timer calls
    it, the promise is resolved exactly when [onCrawlEnd] has been
    called. *)
Theorem deferred_resolved_after_callback (evs : list Event) :
  (deferredResolved (run evs setupOnCrawlEnd) = true →
   crawlEndCalled (run evs setupOnCrawlEnd) = true) ∧
  ((∀ h, TimerFires h false ∉ evs) →
   deferredResolved (run evs setupOnCrawlEnd)
   = crawlEndCalled (run evs setupOnCrawlEnd)).
Proof.
  split.
  - apply (run_invariant
             (λ f, deferredResolved f = true → crawlEndCalled f = true));
      [discriminate|].
    intros f e. apply step_resolved_after_call.
  - intros He. by apply run_resolved_with_call.
Qed.

Lemma deferred_resolved_after_callback_witness :
  deferredResolved
    (run [Register "a"; DoneSettles "a"; TimerFires 0 true] setupOnCrawlEnd)
  = crawlEndCalled
      (run [Register "a"; DoneSettles "a"; TimerFires 0 true]
         setupOnCrawlEnd).
Proof.
  apply (deferred_resolved_after_callback
           [Register "a"; DoneSettles "a"; TimerFires 0 true]).
  intros h Hin.
  repeat (apply elem_of_cons in Hin as [Hin|Hin]; [discriminate Hin|]).
  by apply elem_of_nil in Hin.
Defined.

(** A callback that throws leaves the promise pending although
    [crawlEndCalled] is set; the next timer that fires on the idle finder
    resolves it, without a second call of the callback. *)
Example throwing_callback_leaves_promise_pending :
  let f := run [Register "a"; DoneSettles "a"; TimerFires 0 false]
             setupOnCrawlEnd in
  crawlEndCalled f = true ∧ deferredResolved f = false ∧
  let f' := run [Register "b"; DoneSettles "b"; TimerFires 1 true] f in
  deferredResolved f' = true ∧ onCrawlEndCalls f' = 1.
Proof. vm_compute. repeat split. Qed.

Lemma step_calls_change (f : Finder) (e : Event) :
  (onCrawlEndCalls (step f e) ≠ onCrawlEndCalls f ↔
   ∃ h ret, e = TimerFires h ret ∧ h ∈ armed f ∧ registeredIds f = ∅ ∧
            cancelled f = false ∧ crawlEndCalled f = false) ∧
  (onCrawlEndCalls (step f e) = onCrawlEndCalls f ∨
   onCrawlEndCalls (step f e) = S (onCrawlEndCalls f)).
Proof.
  destruct e as [id|[id|]| |id|h ret]; simpl.
  - unfold registerRequestProcessing.
    case_bool_decide; simpl; (split; [split; [done|]|auto]);
      intros (h & r & ? & _); discriminate.
  - unfold waitForRequestsIdle. destruct (truthy_str id).
    + destruct (markIdAsDone_flags id (addSeen id f)) as (_ & _ & _ & ->).
      simpl. split; [split; [done|]|auto].
      intros (h & r & ? & _); discriminate.
    + split; [split; [done|]|auto]. intros (h & r & ? & _); discriminate.
  - split; [split; [done|]|auto]. intros (h & r & ? & _); discriminate.
  - split; [split; [done|]|auto]. intros (h & r & ? & _); discriminate.
  - unfold settleDone. case_bool_decide.
    + match goal with |- context [markIdAsDone id ?g] =>
        destruct (markIdAsDone_flags id g) as (_ & _ & _ & ->) end.
      simpl. split; [split; [done|]|auto].
      intros (h & r & ? & _); discriminate.
    + split; [split; [done|]|auto]. intros (h & r & ? & _); discriminate.
  - unfold fireTimer, callOnCrawlEndWhenIdle, callOnCrawlEnd, clearTimeout,
      hasRegistered.
    case_bool_decide as Harmed; simpl.
    + destruct (cancelled f) eqn:Hc; simpl.
      { split; [split; [done|]|auto].
        intros (h' & r & _ & _ & _ & ? & _); discriminate. }
      case_bool_decide as Hreg; simpl.
      * destruct (crawlEndCalled f) eqn:Hcc; simpl.
        { split; [split; [done|]|auto].
          intros (h' & r & _ & _ & _ & _ & ?); discriminate. }
        destruct ret; simpl; (split; [|auto]); (split; [|lia]);
          intros _; eexists h, _; auto.
      * split; [split; [done|]|auto].
        intros (h' & r & _ & _ & ? & _); contradiction.
    + split; [split; [done|]|auto].
      intros (h' & r & [= <- _] & ? & _); contradiction.
Qed.


(** X4. The only event that calls [onCrawlEnd] is the firing of an armed
    timer on a finder with no id registered, not cancelled and whose
    callback was not called before; every other event leaves the count of
    calls as it is. *)
Theorem callback_only_from_idle_timer (f : Finder) (e : Event) :
  (onCrawlEndCalls (step f e) ≠ onCrawlEndCalls f ↔
   ∃ h ret, e = TimerFires h ret ∧ h ∈ armed f ∧ registeredIds f = ∅ ∧
            cancelled f = false ∧ crawlEndCalled f = false) ∧
  (onCrawlEndCalls (step f e) = onCrawlEndCalls f ∨
   onCrawlEndCalls (step f e) = S (onCrawlEndCalls f)).
Proof. exact (step_calls_change f e). Qed.

Lemma markIdAsDone_idle_has_timer j f :
  j ∈ registeredIds f → idle_has_timer (markIdAsDone j f).
Proof.
  intros Hj. unfold idle_has_timer, markIdAsDone,
    checkIfCrawlEndAfterTimeout, setTimeout, clearTimeout, hasRegistered.
  rewrite bool_decide_eq_true_2 by exact Hj. simpl.
  destruct (cancelled f) eqn:Hc; simpl; [discriminate|].
  case_bool_decide as Hreg; simpl.
  - destruct (timeoutHandle f); simpl; intros; set_solver.
  - intros _ _ Hempty. contradiction.
Qed.

Lemma step_idle_has_timer f e : idle_has_timer f → idle_has_timer (step f e).
Proof.
  intros H. destruct e as [id|[id|]| |id|h ret]; simpl; auto.
  - unfold registerRequestProcessing. case_bool_decide; simpl; auto.
    intros _ _ Hempty. set_solver.
  - unfold waitForRequestsIdle. destruct (truthy_str id); auto.
    destruct (decide (id ∈ registeredIds f)) as [Hin|Hout].
    + apply markIdAsDone_idle_has_timer. exact Hin.
    + unfold markIdAsDone. simpl. rewrite bool_decide_eq_false_2 by exact Hout.
      exact H.
  - intros ?. discriminate.
  - unfold settleDone. case_bool_decide; auto.
    destruct (decide (id ∈ registeredIds f)) as [Hin|Hout].
    + apply markIdAsDone_idle_has_timer. exact Hin.
    + unfold markIdAsDone. simpl. rewrite bool_decide_eq_false_2 by exact Hout.
      exact H.
  - unfold fireTimer, callOnCrawlEndWhenIdle, callOnCrawlEnd, clearTimeout,
      hasRegistered.
    case_bool_decide; auto. simpl.
    destruct (cancelled f) eqn:Hc; simpl.
    { intros ?. simpl in *. congruence. }
    case_bool_decide as Hreg; simpl.
    + destruct (crawlEndCalled f); simpl; [intros _ ?; discriminate|].
      destruct ret; simpl; intros _ ?; discriminate.
    + intros _ _ ?. contradiction.
Qed.

(** X5. No lost wake-up. When a finder that has registered some request
    is idle, not cancelled and its callback has not been called, exactly
    one timer is armed and the promise of [waitForRequestsIdle] is
    pending; when that timer fires, [onCrawlEnd] is called, for the first
    time, and the promise resolves if the callback returns and stays
    pending if it throws. *)
Theorem idle_finder_ends_crawl (evs : list Event) :
  let f := run evs setupOnCrawlEnd in
  cancelled f = false → crawlEndCalled f = false →
  registeredIds f = ∅ → doneInvoked f ≠ [] →
  deferredResolved f = false ∧
  ∃ h, armed f = {[h]} ∧ timeoutHandle f = Some h ∧
       ∀ ret, onCrawlEndCalls (step f (TimerFires h ret)) = 1 ∧
              crawlEndCalled (step f (TimerFires h ret)) = true ∧
              deferredResolved (step f (TimerFires h ret)) = ret.
Proof.
  intros f Hc Hcc Hreg Hdone.
  assert (Hidle : idle_has_timer f).
  { apply run_invariant; [|apply step_idle_has_timer]. intros _ _ _ ?. done. }
  assert (Hone : one_timer f).
  { apply run_invariant; [|apply step_one_timer]. intros h Hh.
    simpl in Hh. set_solver. }
  assert (Hpending : deferredResolved f = false).
  { assert (deferredResolved f = true → crawlEndCalled f = true) as Hres.
    { apply (run_invariant
               (λ f, deferredResolved f = true → crawlEndCalled f = true));
        [discriminate|].
      intros g e. apply step_resolved_after_call. }
    destruct (deferredResolved f); [|done]. rewrite Hres in Hcc; done. }
  split; [exact Hpending|].
  pose proof (run_calls_match_flag evs setupOnCrawlEnd eq_refl) as Hcalls.
  fold f in Hcalls. unfold calls_match_flag in Hcalls. rewrite Hcc in Hcalls.
  specialize (Hidle Hc Hcc Hreg Hdone).
  apply set_choose_L in Hidle as [h Hh]. exists h.
  pose proof (Hone h Hh) as Hhandle.
  assert (Harmed : armed f = {[h]}).
  { apply set_eq. intros h'. split; [|set_solver].
    intros Hh'. pose proof (Hone h' Hh'). set_solver. }
  split_and!; auto.
  intros ret. simpl.
  unfold fireTimer, callOnCrawlEndWhenIdle, callOnCrawlEnd, clearTimeout,
    hasRegistered.
  rewrite bool_decide_eq_true_2 by exact Hh. simpl.
  rewrite Hc, Hcc. simpl. rewrite bool_decide_eq_true_2 by exact Hreg.
  simpl. destruct ret; simpl; rewrite ?Hcalls, ?Hpending; done.
Qed.

(** Scenario E of the specification, up to the timer: "a" and "b" are
    registered and settle. *)
Lemma idle_finder_ends_crawl_witness :
  deferredResolved
    (run [Register "a"; Register "b"; DoneSettles "a"; DoneSettles "b"]
       setupOnCrawlEnd) = false ∧
  ∃ h,
    armed (run [Register "a"; Register "b"; DoneSettles "a"; DoneSettles "b"]
             setupOnCrawlEnd) = {[h]} ∧
    timeoutHandle
      (run [Register "a"; Register "b"; DoneSettles "a"; DoneSettles "b"]
         setupOnCrawlEnd) = Some h ∧
    ∀ ret,
      onCrawlEndCalls
        (step (run [Register "a"; Register "b"; DoneSettles "a";
                    DoneSettles "b"] setupOnCrawlEnd) (TimerFires h ret))
      = 1 ∧
      crawlEndCalled
        (step (run [Register "a"; Register "b"; DoneSettles "a";
                    DoneSettles "b"] setupOnCrawlEnd) (TimerFires h ret))
      = true ∧
      deferredResolved
        (step (run [Register "a"; Register "b"; DoneSettles "a";
                    DoneSettles "b"] setupOnCrawlEnd) (TimerFires h ret))
      = ret.
Proof.
  apply (idle_finder_ends_crawl
           [Register "a"; Register "b"; DoneSettles "a"; DoneSettles "b"]).
  - reflexivity.
  - reflexivity.
  - vm_compute. reflexivity.
  - discriminate.
Defined.

End CrawlEndMore.

Section DevCrawlProperties.

Import CrawlEnd DevCrawl.

Lemma forEachCall_prefix cbs :
  (forEachCall cbs).1 `prefix_of` map cb_name cbs.
Proof.
  induction cbs as [|cb rest IH]; simpl; [done|].
  destruct (cb_returns cb).
  - destruct (forEachCall rest) as [called returns]. simpl in *.
    by apply prefix_cons.
  - simpl. apply prefix_cons, prefix_nil.
Qed.

Lemma forEachCall_all_return cbs :
  Forall (λ cb, cb_returns cb = true) cbs →
  forEachCall cbs = (map cb_name cbs, true).
Proof.
  induction 1 as [|cb rest Hcb _ IH]; simpl; [done|].
  by rewrite Hcb, IH.
Qed.

Lemma forEachCall_until_throw pre cb post :
  Forall (λ cb, cb_returns cb = true) pre → cb_returns cb = false →
  forEachCall (pre ++ cb :: post) = (map cb_name (pre ++ [cb]), false).
Proof.
  intros Hpre Hcb. induction Hpre as [|c rest Hc _ IH]; simpl.
  - by rewrite Hcb.
  - by rewrite Hc, IH.
Qed.

(** The environment never hands [Cancel] to its finder except in
    [close()]: the finder events it issues keep [calls_match_flag]. *)
Lemma envStep_called_together env e :
  called_together env → called_together (envStep env e).
Proof.
  assert (Hlift : ∀ fe, called_together env →
                        called_together (onFinder fe env)).
  { intros fe (Hflag & Hpre & Hnone).
    pose proof (step_calls_match_flag (_crawlEndFinder env) fe Hflag) as Hflag'.
    unfold called_together, onFinder. simpl. split; [exact Hflag'|].
    unfold calls_match_flag in *.
    destruct (step_calls_change (_crawlEndFinder env) fe)
      as [Hiff Hor].
    destruct (Nat.eqb_spec (onCrawlEndCalls (step (_crawlEndFinder env) fe))
                (S (onCrawlEndCalls (_crawlEndFinder env)))) as [Heq|Hne].
    - assert (Hchg : onCrawlEndCalls (step (_crawlEndFinder env) fe)
                     ≠ onCrawlEndCalls (_crawlEndFinder env)) by lia.
      apply Hiff in Hchg as (h & ret & _ & _ & _ & _ & Hcc).
      rewrite (Hnone Hcc). simpl. split; [apply forEachCall_prefix|].
      intros Hcc'. rewrite Hcc' in Hflag'. rewrite Hcc in Hflag. lia.
    - rewrite app_nil_r. split; [exact Hpre|].
      intros Hcc'. apply Hnone.
      destruct (crawlEndCalled (_crawlEndFinder env)) eqn:Hcc; [|done].
      rewrite Hcc' in Hflag'. destruct Hor as [Hsame|Hs]; [|contradiction].
      rewrite Hflag in Hsame. lia. }
  intros H. destruct e; try (apply Hlift; exact H); simpl.
  - destruct H as (Hflag & Hpre & Hnone). unfold called_together. simpl.
    split; [exact Hflag|]. split; [|exact Hnone].
    rewrite map_app. apply prefix_app_r. exact Hpre.
  - destruct H as (Hflag & Hpre & Hnone). unfold called_together. simpl.
    auto.
Qed.

Lemma envRun_called_together evs env :
  called_together env → called_together (envRun evs env).
Proof.
  revert env. induction evs as [|e evs IH]; intros env H; simpl; auto.
  apply IH, envStep_called_together, H.
Qed.

(** In the step that ends the crawl the environment runs the [forEach]
    over its callbacks. *)
Lemma envStep_ends_crawl env e :
  called_together env →
  crawlEndCalled (_crawlEndFinder env) = false →
  crawlEndCalled (_crawlEndFinder (envStep env e)) = true →
  callbackCalls (envStep env e) = (forEachCall (_onCrawlEndCallbacks env)).1.
Proof.
  intros H Hcc Hcc'.
  pose proof (envStep_called_together env e H) as (Hflag' & _ & _).
  destruct H as (Hflag & _ & Hnone).
  rewrite Hcc in Hflag. rewrite Hcc' in Hflag'.
  assert (Hlift : ∀ fe,
    onCrawlEndCalls (_crawlEndFinder (onFinder fe env)) = 1 →
    callbackCalls (onFinder fe env)
    = (forEachCall (_onCrawlEndCallbacks env)).1).
  { intros fe H1. unfold onFinder in *. simpl in *.
    rewrite H1, Hflag, (Hnone Hcc). reflexivity. }
  destruct e; try (apply Hlift; exact Hflag'); simpl in *; congruence.
Qed.

(** X6. Until the crawl ends no crawl-end callback is called.  In the step
    that ends it, the callbacks registered with [_onCrawlEnd] by then are
    called in the order they were registered, each registration once, as
    [forEach] does: all of them when every callback returns, and those up
    to the first one that throws, that one included, otherwise. *)
Theorem crawl_end_callbacks_called_together
    (evs : list EnvEvent) (e : EnvEvent) :
  let env := envRun evs newCrawlEnv in
  crawlEndCalled (_crawlEndFinder env) = false →
  callbackCalls env = [] ∧
  (crawlEndCalled (_crawlEndFinder (envStep env e)) = true →
   (Forall (λ cb, cb_returns cb = true) (_onCrawlEndCallbacks env) →
    callbackCalls (envStep env e) = map cb_name (_onCrawlEndCallbacks env)) ∧
   (∀ pre cb post,
      _onCrawlEndCallbacks env = pre ++ cb :: post →
      Forall (λ cb, cb_returns cb = true) pre → cb_returns cb = false →
      callbackCalls (envStep env e) = map cb_name (pre ++ [cb]))).
Proof.
  intros env Hcc.
  assert (H : called_together env).
  { apply envRun_called_together. split; [reflexivity|].
    split; [apply prefix_nil|reflexivity]. }
  split; [by apply H|]. intros Hcc'.
  pose proof (envStep_ends_crawl env e H Hcc Hcc') as Hcalls. split.
  - intros Hall. by rewrite Hcalls, forEachCall_all_return.
  - intros pre cb post Hcbs Hpre Hcb.
    by rewrite Hcalls, Hcbs, forEachCall_until_throw.
Qed.

(** Two callbacks, and the crawl of "a" ending. *)
Lemma crawl_end_callbacks_called_together_witness :
  callbackCalls
    (envRun [OnCrawlEnd cb1; OnCrawlEnd cb2; RegisterRequestProcessing "a";
             RequestSettles "a"] newCrawlEnv) = [] ∧
  callbackCalls
    (envRun [OnCrawlEnd cb1; OnCrawlEnd cb2; RegisterRequestProcessing "a";
             RequestSettles "a"; DebounceFires 0] newCrawlEnv) = [1; 2].
Proof.
  destruct (crawl_end_callbacks_called_together
              [OnCrawlEnd cb1; OnCrawlEnd cb2; RegisterRequestProcessing "a";
               RequestSettles "a"] (DebounceFires 0) eq_refl) as [H0 H1].
  split; [exact H0|].
  destruct (H1 eq_refl) as [Hall _]. apply Hall.
  repeat constructor.
Defined.

(** A callback that throws: the callbacks after it are not called, and
    the promise of [waitForRequestsIdle] stays pending. *)
Example throwing_callback_stops_the_others :
  let env := envRun [OnCrawlEnd cb1; OnCrawlEnd cbThrows; OnCrawlEnd cb2;
                     RegisterRequestProcessing "a"; RequestSettles "a";
                     DebounceFires 0] newCrawlEnv in
  callbackCalls env = [1; 3] ∧
  crawlEndCalled (_crawlEndFinder env) = true ∧
  deferredResolved (_crawlEndFinder env) = false.
Proof. vm_compute. repeat split. Qed.

Lemma envStep_settled env e :
  crawlEndCalled (_crawlEndFinder env) = true ∨
  cancelled (_crawlEndFinder env) = true →
  (crawlEndCalled (_crawlEndFinder (envStep env e)) = true ∨
   cancelled (_crawlEndFinder (envStep env e)) = true) ∧
  callbackCalls (envStep env e) = callbackCalls env.
Proof.
  assert (Hlift : ∀ fe,
    crawlEndCalled (_crawlEndFinder env) = true ∨
    cancelled (_crawlEndFinder env) = true →
    (crawlEndCalled (_crawlEndFinder (onFinder fe env)) = true ∨
     cancelled (_crawlEndFinder (onFinder fe env)) = true) ∧
    callbackCalls (onFinder fe env) = callbackCalls env).
  { intros fe H. unfold onFinder. simpl.
    destruct (step_calls_change (_crawlEndFinder env) fe)
      as [Hiff Hor].
    assert (Hsame : onCrawlEndCalls (step (_crawlEndFinder env) fe)
                    = onCrawlEndCalls (_crawlEndFinder env)).
    { destruct Hor as [Hs|Hs]; [exact Hs|].
      assert (Hchg : onCrawlEndCalls (step (_crawlEndFinder env) fe)
                     ≠ onCrawlEndCalls (_crawlEndFinder env)) by lia.
      apply Hiff in Hchg as (h & ret & _ & _ & _ & Hc & Hcc).
      destruct H; congruence. }
    split.
    - destruct H as [Hcc|Hc].
      + left. clear Hiff Hor Hsame.
        destruct fe as [id|[id|]| |id|h ret]; simpl; auto.
        * unfold registerRequestProcessing. case_bool_decide; auto.
        * unfold waitForRequestsIdle. destruct (truthy_str id); auto.
          destruct (markIdAsDone_flags id (addSeen id (_crawlEndFinder env)))
            as (_ & -> & _). auto.
        * unfold settleDone. case_bool_decide; auto.
          match goal with |- context [markIdAsDone id ?g] =>
            destruct (markIdAsDone_flags id g) as (_ & -> & _) end. auto.
        * unfold fireTimer, callOnCrawlEndWhenIdle, callOnCrawlEnd,
            clearTimeout.
          repeat (case_bool_decide || case_match); simpl; auto.
      + right. apply (step_cancelled _ fe Hc).
    - rewrite Hsame.
      rewrite (proj2 (Nat.eqb_neq _ _)) by lia. apply app_nil_r. }
  intros H. destruct e; try (apply Hlift; exact H); simpl.
  - split; [exact H|reflexivity].
  - split; [right; reflexivity|reflexivity].
Qed.

(** X7. Once [onCrawlEnd] has been called, or once the environment has
    been closed, no crawl-end callback is called any more: a callback
    given to [_onCrawlEnd] after the crawl ended is never called, and
    [close()] before the crawl ended silences all of them. *)
Theorem late_crawl_end_callbacks_never_called
    (env : CrawlEnv) (evs : list EnvEvent) :
  crawlEndCalled (_crawlEndFinder env) = true ∨
  cancelled (_crawlEndFinder env) = true →
  callbackCalls (envRun evs env) = callbackCalls env.
Proof.
  revert env. induction evs as [|e evs IH]; intros env H; simpl; auto.
  destruct (envStep_settled env e H) as [H' Heq].
  rewrite (IH _ H'). exact Heq.
Qed.

(** A callback registered after [close()]; and one registered after the
    crawl of "a" ended. *)
Lemma late_crawl_end_callbacks_never_called_witness :
  callbackCalls
    (envRun [OnCrawlEnd cb2; RegisterRequestProcessing "a";
             RequestSettles "a"; DebounceFires 0]
       (envRun [OnCrawlEnd cb1; Close] newCrawlEnv))
  = callbackCalls (envRun [OnCrawlEnd cb1; Close] newCrawlEnv).
Proof.
  apply (late_crawl_end_callbacks_never_called
           (envRun [OnCrawlEnd cb1; Close] newCrawlEnv)).
  right. reflexivity.
Defined.

(** Scenario E of the specification with two callbacks, one registered
    before the crawl ends and one after. *)
Example crawl_end_calls_early_callback_only :
  callbackCalls
    (envRun [OnCrawlEnd cb1; RegisterRequestProcessing "a";
             RegisterRequestProcessing "b"; RequestSettles "a";
             RequestSettles "b"; DebounceFires 0; OnCrawlEnd cb2;
             RegisterRequestProcessing "c"; RequestSettles "c";
             DebounceFires 1]
       newCrawlEnv) = [1].
Proof. vm_compute. reflexivity. Qed.

End DevCrawlProperties.

(* ===================================================================== *)
(** * Further properties of the plugin container                          *)
(* ===================================================================== *)

Section ModuleInfoProperties.

Import PluginContainer.

Lemma getModuleInfo_known id st g n :
  moduleGraph st = Some g → g !! id = Some n →
  getModuleInfo id st
  = (Some (infoOf id n),
     {| closed := closed st;
        moduleGraph :=
          Some (<[id := {| gn_meta := gn_meta n;
                           gn_info := Some (infoOf id n) |}]> g) |}).
Proof. intros Hg Hn. unfold getModuleInfo. rewrite Hg, Hn. reflexivity. Qed.

(** X8. [getModuleInfo] is stable: a second call returns the same info and
    changes nothing any more, and whether the info was created before or
    not makes no difference to [_updateModuleInfo]. Without a module graph
    or for an id the graph does not know, both leave the state as it is
    and [getModuleInfo] returns null. *)
Theorem getModuleInfo_stable (id : string) (meta : option Meta) (st : St) :
  getModuleInfo id (getModuleInfo id st).2 = getModuleInfo id st ∧
  _updateModuleInfo id meta (getModuleInfo id st).2
  = (match meta with
     | Some _ => _updateModuleInfo id meta st
     | None => (getModuleInfo id st).2
     end) ∧
  (getModuleById st id = None →
   getModuleInfo id st = (None, st) ∧ _updateModuleInfo id meta st = st).
Proof.
  unfold getModuleById.
  destruct st as [c [g|]]; simpl;
    [|split_and!; [reflexivity|destruct meta; reflexivity|];
      intros _; split; [reflexivity|destruct meta; reflexivity]].
  destruct (g !! id) as [n|] eqn:Hn.
  - split_and!.
    + unfold getModuleInfo. simpl. rewrite Hn. simpl.
      rewrite lookup_insert_eq. unfold infoOf. simpl.
      rewrite insert_insert_eq. reflexivity.
    + destruct meta as [m|]; [|reflexivity].
      unfold getModuleInfo, _updateModuleInfo. simpl. rewrite Hn. simpl.
      rewrite lookup_insert_eq. unfold infoOf. simpl.
      rewrite insert_insert_eq. reflexivity.
    + discriminate.
  - split_and!.
    + unfold getModuleInfo. simpl. rewrite Hn. simpl. rewrite Hn. reflexivity.
    + destruct meta as [m|]; [|reflexivity].
      unfold getModuleInfo, _updateModuleInfo. simpl. rewrite Hn. simpl.
      rewrite Hn. reflexivity.
    + intros _. unfold getModuleInfo, _updateModuleInfo. simpl. rewrite Hn.
      split; [reflexivity|]. destruct meta; reflexivity.
Qed.

(** X9. Two [_updateModuleInfo] calls on a known module accumulate: a key
    of the info's meta reads as the later update gave it, else as the
    earlier one did, else as it was.  The [meta] the graph node itself
    holds is not written, and no other module is touched. *)
Theorem updateModuleInfo_accumulates
    (id : string) (m1 m2 : Meta) (st : St)
    (g : gmap string GraphNode) (n : GraphNode) :
  moduleGraph st = Some g → g !! id = Some n →
  let st2 := _updateModuleInfo id (Some m2) (_updateModuleInfo id (Some m1) st) in
  (∃ i, (getModuleInfo id st2).1 = Some i ∧ mi_id i = mi_id (infoOf id n) ∧
        ∀ k, mi_meta i !! k
             = match m2 !! k with
               | Some v => Some v
               | None => match m1 !! k with
                         | Some v => Some v
                         | None => mi_meta (infoOf id n) !! k
                         end
               end) ∧
  (gn_meta <$> getModuleById st2 id = Some (gn_meta n)) ∧
  (∀ id', id' ≠ id → getModuleById st2 id' = getModuleById st id') ∧
  closed st2 = closed st.
Proof.
  intros Hg Hn st2. unfold st2, _updateModuleInfo, getModuleById. simpl.
  rewrite Hg, Hn. simpl. rewrite lookup_insert_eq. simpl.
  split_and!.
  - unfold getModuleInfo. simpl. rewrite lookup_insert_eq. simpl.
    eexists. split; [reflexivity|]. split; [reflexivity|].
    intros k. simpl. unfold spread. rewrite !lookup_union.
    destruct (m2 !! k), (m1 !! k), (mi_meta (infoOf id n) !! k); reflexivity.
  - rewrite lookup_insert_eq. reflexivity.
  - intros id' Hne. rewrite !lookup_insert_ne by done. reflexivity.
  - reflexivity.
Qed.

End ModuleInfoProperties.

Section ModuleInfoExamples.

Import PluginContainer.

Lemma updateModuleInfo_accumulates_witness :
  let n := {| gn_meta := Some {[ "lang" := "ts" ]}; gn_info := None |} in
  let st := {| closed := false; moduleGraph := Some {[ "/a.ts" := n ]} |} in
  let st2 :=
    _updateModuleInfo "/a.ts" (Some {[ "lang" := "js" ]})
      (_updateModuleInfo "/a.ts" (Some {[ "vue" := "sfc" ]}) st) in
  (∃ i, (getModuleInfo "/a.ts" st2).1 = Some i ∧
        mi_id i = mi_id (infoOf "/a.ts" n) ∧
        ∀ k, mi_meta i !! k
             = match ({[ "lang" := "js" ]} : Meta) !! k with
               | Some v => Some v
               | None => match ({[ "vue" := "sfc" ]} : Meta) !! k with
                         | Some v => Some v
                         | None => mi_meta (infoOf "/a.ts" n) !! k
                         end
               end) ∧
  (gn_meta <$> getModuleById st2 "/a.ts" = Some (gn_meta n)) ∧
  (∀ id', id' ≠ "/a.ts" → getModuleById st2 id' = getModuleById st id') ∧
  closed st2 = closed st.
Proof.
  intros n st st2.
  apply (updateModuleInfo_accumulates "/a.ts" {[ "vue" := "sfc" ]}
           {[ "lang" := "js" ]} st {[ "/a.ts" := n ]} n);
    [reflexivity|apply lookup_singleton_eq].
Defined.

End ModuleInfoExamples.

Section SkipSelfTerminates.

Import PluginContainer.

Context (E : Env).








(** X11. The skip set is handed down. For [resolveId] handlers that use
    their context through [this.resolve] only and never ask it for
    [skipSelf: false], a plugin in the skip set of a [resolveId] call has
    its handler invoked at no depth of that call: not by the call's own
    loop, and not by the [this.resolve] calls made from inside the
    handlers of other plugins. *)
Theorem nested_resolves_keep_skipping (p : nat)
    (fuel : nat) (st : St) (id : string) (importer : option string)
    (options : option ResolveIdOptions) (s : gset nat) :
  Forall (λ plugin, ∀ handler a b c,
            resolveId plugin = Some handler → keepsSkips (handler a b c))
    (getSortedPlugins E HResolveId) →
  options ≫= ro_skip = Some s → p ∈ s →
  p ∉ reachedAll (container_resolveId E fuel st id importer options).2.
Proof.
  intros Hall Hs Hp.
  exact (skipped_plugin_never_reached E p Hall fuel st id importer options s
           Hs Hp).
Qed.

End SkipSelfTerminates.

Section SkipSelfExamples.

Import PluginContainer Scenarios.



(** With [skipSelf: false] a plugin that asks for the id it was asked for
    re-enters itself at every level. *)
Example unskipped_self_recursion_uses_up_any_bound :
  (container_resolveId
     (containerOf false
        [resolver 1 "loop"
           (fun id importer _ =>
              ThisResolve id (Some importer) skipSelfFalse
                (fun _ => Ret RNull))]) 5 openState "x" None None).1.1
  = OutOfFuel.
Proof. vm_compute. reflexivity. Qed.

(** The plugins "deps" and "main" keep to the default, so "main", once in
    the skip set, is reached at no depth. *)
Lemma nested_resolves_keep_skipping_witness :
  2 ∉ reachedAll
        (container_resolveId (containerOf false (askingFor None)) 3 openState
           "main" None
           (Some {| ro_attributes := None; ro_custom := None;
                    ro_skip := Some {[2]}; ro_scan := None;
                    ro_isEntry := None |})).2.
Proof.
  apply (nested_resolves_keep_skipping (containerOf false (askingFor None)) 2
           3 openState "main" None _ {[2]}); [|reflexivity|set_solver].
  constructor; [|constructor; [|constructor]].
  - intros handler a b c [= <-]. destruct (String.eqb a "dep"); constructor.
  - intros handler a b c [= <-]. destruct (String.eqb a "main");
      [|constructor].
    constructor; [reflexivity|]. intros [e|[o|]]; constructor.
Defined.

End SkipSelfExamples.

Section PipelineFrames.

Import PluginContainer ContainerFrames.

Context (E : Env).

Lemma same_except_refl id st : same_except id st st.
Proof. split; auto. Qed.

Lemma same_except_trans id st1 st2 st3 :
  same_except id st1 st2 → same_except id st2 st3 → same_except id st1 st3.
Proof.
  intros [Hc1 Hg1] [Hc2 Hg2]. split; [congruence|].
  intros id' Hne. rewrite (Hg2 id' Hne). apply Hg1, Hne.
Qed.

Lemma updateModuleInfo_same_except id meta st :
  same_except id st (_updateModuleInfo id meta st).
Proof.
  unfold _updateModuleInfo. destruct meta as [m|]; [|apply same_except_refl].
  destruct (moduleGraph st) as [g|] eqn:Hg; [|apply same_except_refl].
  destruct (g !! id) as [n|] eqn:Hn; [|apply same_except_refl].
  split; [reflexivity|]. intros id' Hne. unfold getModuleById. simpl.
  rewrite Hg, lookup_insert_ne by done. reflexivity.
Qed.

Lemma run_hook_read_only {R : Type} resolve ctx (h : Hook R) :
  read_only resolve → ∀ st, (run_hook resolve ctx h st).1.2 = st.
Proof.
  intros Hro. induction h as [r|e|id importer options k IH]; intros st; simpl;
    try reflexivity.
  pose proof (Hro st id importer (Some (thisResolveOptions ctx options)))
    as Hcall.
  unfold Context_resolve.
  destruct (resolve st id importer _) as [[out st1] tr1]. simpl in Hcall.
  subst st1. destruct out as [v|e|]; [| |reflexivity].
  - specialize (IH (inr v) st).
    destruct (run_hook resolve ctx (k (inr v)) st) as [[r st2] tr2].
    exact IH.
  - specialize (IH (inl e) st).
    destruct (run_hook resolve ctx (k (inl e)) st) as [[r st2] tr2].
    exact IH.
Qed.

Lemma resolveId_loop_read_only resolve rawId importer hopts skip :
  read_only resolve →
  ∀ plugins ctx st,
    (resolveId_loop E resolve ctx rawId importer hopts skip plugins st).1.2
    = st.
Proof.
  intros Hro. induction plugins as [|p rest IH]; intros ctx st; simpl;
    [reflexivity|].
  destruct (closed st && recoverable E); [reflexivity|].
  destruct (resolveId p) as [handler|]; [|apply IH].
  destruct (skipHas skip (pid p)); [apply IH|].
  pose proof (run_hook_read_only resolve (setActivePlugin (pid p) ctx)
                (handler rawId importer hopts) Hro st) as Hrun.
  destruct (run_hook resolve _ (handler rawId importer hopts) st)
    as [[res st'] inner]. simpl in Hrun. subst st'.
  pose proof (IH (setActivePlugin (pid p) ctx) st) as IH'.
  destruct (resolveId_loop E resolve (setActivePlugin (pid p) ctx) _ _ _ _
              rest st) as [[r0 st0] tr0]. simpl in IH'.
  destruct res as [[| | |x|o]|e|]; simpl; try reflexivity; try exact IH'.
  destruct (truthy_str x); simpl; [reflexivity|exact IH'].
Qed.

Lemma container_resolveId_read_only fuel :
  read_only (container_resolveId E fuel).
Proof.
  induction fuel as [|fuel IH]; intros st id importer options; simpl;
    [reflexivity|].
  unfold resolveId_body.
  pose proof (resolveId_loop_read_only (container_resolveId E fuel) id
                (default (defaultImporter E) importer)
                (resolveIdHookOptions E options) (options ≫= ro_skip) IH
                (getSortedPlugins E HResolveId) (resolveIdContext options) st)
    as H.
  destruct (resolveId_loop E _ _ _ _ _ _ _ st) as [[r st1] tr]. simpl in H.
  destruct r; exact H.
Qed.

(** X12. [resolveId] writes nothing itself: with handlers that use their
    context through [this.resolve] only, whatever they return and however
    deep their [this.resolve] calls nest, the call leaves the [closed]
    flag and the module graph as they were. *)
Theorem resolveId_leaves_state
    (fuel : nat) (st : St) (id : string) (importer : option string)
    (options : option ResolveIdOptions) :
  (container_resolveId E fuel st id importer options).1.2 = st.
Proof. apply container_resolveId_read_only. Qed.

Lemma load_loop_same_except resolve id ssr0 :
  read_only resolve →
  ∀ plugins ctx st,
    same_except id st (load_loop E resolve ctx id ssr0 plugins st).1.2.
Proof.
  intros Hro. induction plugins as [|p rest IH]; intros ctx st; simpl;
    [apply same_except_refl|].
  destruct (closed st && recoverable E); [apply same_except_refl|].
  destruct (load p) as [handler|]; [|apply IH].
  pose proof (run_hook_read_only resolve (setActivePlugin (pid p) ctx)
                (handler id ssr0) Hro st) as Hrun.
  destruct (run_hook resolve _ (handler id ssr0) st) as [[res st'] inner].
  simpl in Hrun. subst st'.
  pose proof (IH (setActivePlugin (pid p) ctx) st) as IH'.
  destruct (load_loop E resolve (setActivePlugin (pid p) ctx) _ _ rest st)
    as [[r0 st0] tr0]. simpl in IH'.
  destruct res as [[| |s|o]|e|]; simpl; try apply same_except_refl;
    try exact IH'.
  apply updateModuleInfo_same_except.
Qed.

Lemma transform_loop_same_except resolve id hopts :
  read_only resolve →
  ∀ plugins ctx code st,
    same_except id st
      (transform_loop E resolve ctx code id hopts plugins st).1.2.
Proof.
  intros Hro. induction plugins as [|p rest IH]; intros ctx code st; simpl;
    [apply same_except_refl|].
  destruct (closed st && recoverable E); [apply same_except_refl|].
  destruct (transform p) as [handler|]; [|apply IH].
  pose proof (run_hook_read_only resolve
                (base (activate (pid p) id code ctx))
                (handler code id hopts) Hro st) as Hrun.
  simpl in Hrun.
  destruct (run_hook resolve _ (handler code id hopts) st)
    as [[res st'] inner]. simpl in Hrun. subst st'.
  assert (Hgo : ∀ ctx2 code2 st2 ev,
    same_except id st st2 →
    same_except id st
      (let '(r, st3, tr) := transform_loop E resolve ctx2 code2 id hopts rest st2
       in (r, st3, ev :: tr)).1.2).
  { intros ctx2 code2 st2 ev H2. pose proof (IH ctx2 code2 st2) as IH'.
    destruct (transform_loop E resolve ctx2 code2 id hopts rest st2)
      as [[r0 st0] tr0]. simpl in *.
    exact (same_except_trans _ _ _ _ H2 IH'). }
  destruct res as [[| |s|o]|e|]; try apply same_except_refl;
    try (apply Hgo, same_except_refl).
  - destruct (truthy_str s); apply Hgo, same_except_refl.
  - destruct (sd_code o) as [c|]; [destruct (truthy_map (sd_map o))|];
      apply Hgo, updateModuleInfo_same_except.
Qed.

(** X13. [load] and [transform] of a module write that module only:
    with handlers that use their context through [this.resolve] only,
    whatever they return, the [closed] flag is left as it was and so is
    the graph node of every other module. *)
Theorem pipelines_touch_only_their_module
    (fuel : nat) (st : St) (id code : string)
    (topts : option TransformOptions) :
  same_except id st (container_load E fuel st id).1.2 ∧
  same_except id st (container_transform E fuel st code id topts).1.2.
Proof.
  split.
  - apply load_loop_same_except, container_resolveId_read_only.
  - unfold container_transform.
    pose proof (transform_loop_same_except (container_resolveId E fuel) id
                  {| tho_inMap := match topts with
                                  | Some o => to_inMap o
                                  | None => MapUndefined
                                  end;
                     tho_ssr := ssr E |}
                  (container_resolveId_read_only fuel)
                  (getSortedPlugins E HTransform)
                  (newTransformContext id code
                     match topts with
                     | Some o => to_inMap o
                     | None => MapUndefined
                     end) code st) as H.
    destruct (transform_loop E _ _ _ _ _ _ st) as [[r st1] tr]. simpl in H.
    destruct r as [[ctx1 code1]|e|]; simpl; try exact H.
    destruct (fst (_getCombinedSourcemap E ctx1)); exact H.
Qed.

(** The loop over [pre ++ post] is the loop over [post] from where the
    loop over [pre] ends. *)
Lemma transform_loop_app resolve id hopts post :
  ∀ pre ctx code st,
    transform_loop E resolve ctx code id hopts (pre ++ post) st
    = match transform_loop E resolve ctx code id hopts pre st with
      | (Ok (ctx1, code1), st1, tr1) =>
          let '(r, st2, tr2) :=
            transform_loop E resolve ctx1 code1 id hopts post st1 in
          (r, st2, tr1 ++ tr2)
      | failed => failed
      end.
Proof.
  induction pre as [|p rest IH]; intros ctx code st; simpl.
  - destruct (transform_loop E resolve ctx code id hopts post st)
      as [[r st2] tr2]. reflexivity.
  - destruct (closed st && recoverable E); [reflexivity|].
    destruct (transform p) as [handler|]; [|apply IH].
    destruct (run_hook resolve _ (handler code id hopts) st)
      as [[res st'] inner].
    assert (Hgo : ∀ ctx2 code2 st2 ev,
      (let '(r, st3, tr) :=
         transform_loop E resolve ctx2 code2 id hopts (rest ++ post) st2 in
       (r, st3, ev :: tr))
      = match (let '(r, st3, tr) :=
                 transform_loop E resolve ctx2 code2 id hopts rest st2 in
               (r, st3, ev :: tr)) with
        | (Ok (ctx1, code1), st1, tr1) =>
            let '(r, st2, tr2) :=
              transform_loop E resolve ctx1 code1 id hopts post st1 in
            (r, st2, tr1 ++ tr2)
        | failed => failed
        end).
    { intros ctx2 code2 st2 ev. rewrite IH.
      destruct (transform_loop E resolve ctx2 code2 id hopts rest st2)
        as [[[[ctx1 code1]|e|] st1] tr1]; try reflexivity.
      destruct (transform_loop E resolve ctx1 code1 id hopts post st1)
        as [[r st3] tr3]. reflexivity. }
    destruct res as [[| |s|o]|e|]; try reflexivity; try apply Hgo.
    + destruct (truthy_str s); apply Hgo.
    + destruct (sd_code o) as [c|]; [destruct (truthy_map (sd_map o))|];
        apply Hgo.
Qed.

(** X14. The transform pipeline composes. The plugins [pre ++ post] on a
    code give what the plugins [post] give on the code, the context with
    its source-map chain and the state the plugins [pre] leave, with the
    handlers invoked one list after the other; when a plugin of [pre]
    throws, or the container is found closed, no plugin of [post] is
    invoked and the failure is that of [pre]. *)
Theorem transform_pipeline_composes
    (resolve : ResolveFn) (id : string) (hopts : TransformHookOptions)
    (pre post : list Plugin) (ctx : TransformContext) (code : string)
    (st : St) :
  transform_loop E resolve ctx code id hopts (pre ++ post) st
  = match transform_loop E resolve ctx code id hopts pre st with
    | (Ok (ctx1, code1), st1, tr1) =>
        let '(r, st2, tr2) :=
          transform_loop E resolve ctx1 code1 id hopts post st1 in
        (r, st2, tr1 ++ tr2)
    | failed => failed
    end.
Proof. apply transform_loop_app. Qed.

End PipelineFrames.

Section CollapseProperties.

Import PluginContainer ContainerFrames.

Context (E : Env).

Lemma pushAll_setChain ms ctx :
  pushAll ms ctx = setChain (sourcemapChain ctx ++ ms) ctx.
Proof.
  revert ctx. induction ms as [|m ms IH]; intros ctx.
  - destruct ctx. unfold setChain. simpl. rewrite app_nil_r. reflexivity.
  - unfold pushAll in *. simpl. rewrite IH. unfold pushMap, setChain. simpl.
    rewrite <- app_assoc. reflexivity.
Qed.

Lemma differs_same cur : differs cur true cur = false.
Proof.
  destruct cur; reflexivity.
Qed.

(** After a call that returned [v], the context holds [v] and either an
    empty chain or the chain and the map it had. *)
Lemma getCombinedSourcemap_result ctx v ctx1 :
  _getCombinedSourcemap E ctx = (Ok v, ctx1) →
  combinedMap ctx1 = v ∧
  (sourcemapChain ctx1 = [] ∨ ctx1 = ctx).
Proof.
  unfold _getCombinedSourcemap.
  destruct (match combinedMap ctx with Some c => isEmptyMap c | None => false end).
  - intros [= <- <-]. simpl. auto.
  - destruct (combineChain E _ _ _ _ _) as [[cur same]|e|]; try discriminate.
    destruct (differs cur same (combinedMap ctx)).
    + intros [= <- <-]. simpl. auto.
    + intros [= <- <-]. auto.
Qed.

Lemma getCombinedSourcemap_again ctx v ctx1 :
  _getCombinedSourcemap E ctx = (Ok v, ctx1) →
  _getCombinedSourcemap E ctx1 = (Ok v, ctx1).
Proof.
  intros H. destruct (getCombinedSourcemap_result ctx v ctx1 H)
    as [Hv [Hchain| ->]]; [|exact H].
  unfold _getCombinedSourcemap. rewrite Hv, Hchain. simpl.
  assert (Hsame : setChain [] ctx1 = ctx1).
  { destruct ctx1. unfold setChain. simpl in *. subst. reflexivity. }
  destruct (match v with Some c => isEmptyMap c | None => false end);
    [rewrite Hsame; reflexivity|].
  rewrite differs_same. reflexivity.
Qed.

(** X15. Collapsing the chain is idempotent: a second call of
    [_getCombinedSourcemap] right after a first returns the same map and
    changes the context no more. *)
Theorem collapse_is_idempotent (ctx : TransformContext) (v : option SourceMap)
    (ctx1 : TransformContext) :
  _getCombinedSourcemap E ctx = (Ok v, ctx1) →
  _getCombinedSourcemap E ctx1 = (Ok v, ctx1) ∧ combinedMap ctx1 = v.
Proof.
  intros H. split; [exact (getCombinedSourcemap_again ctx v ctx1 H)|].
  apply (getCombinedSourcemap_result ctx v ctx1 H).
Qed.

Lemma sentinel_stays ctx c ctx1 ms :
  _getCombinedSourcemap E ctx = (Ok (Some c), ctx1) →
  isEmptyMap c = true →
  _getCombinedSourcemap E (pushAll ms ctx1) = (Ok (Some c), ctx1).
Proof.
  intros H Hc.
  assert (Hst : combinedMap ctx1 = Some c ∧ sourcemapChain ctx1 = []).
  { revert H. unfold _getCombinedSourcemap.
    destruct (match combinedMap ctx with Some c => isEmptyMap c | None => false end)
      eqn:Hs.
    - intros [= <- <-]. simpl. split; [|reflexivity].
      destruct (combinedMap ctx); [reflexivity|discriminate].
    - destruct (combineChain E _ _ _ _ _) as [[cur same]|e|]; try discriminate.
      destruct (differs cur same (combinedMap ctx)).
      + intros [= <- <-]. simpl. auto.
      + intros [= Hstored <-]. rewrite Hstored in Hs. rewrite Hc in Hs.
        discriminate. }
  destruct Hst as [Hstored Hchain].
  rewrite pushAll_setChain. unfold _getCombinedSourcemap. simpl.
  rewrite Hstored, Hc. f_equal.
  destruct ctx1. unfold setChain. simpl in *. subst. reflexivity.
Qed.

(** X16. The empty sentinel is final. Once [_getCombinedSourcemap] has
    returned a map without version and with empty mappings, whatever maps
    are pushed onto the chain afterwards, the next call returns that map
    again and throws the pushed maps away. *)
Theorem empty_sentinel_is_final (ctx : TransformContext) (c : SourceMap)
    (ctx1 : TransformContext) (ms : list MapInput) :
  _getCombinedSourcemap E ctx = (Ok (Some c), ctx1) →
  isEmptyMap c = true →
  _getCombinedSourcemap E (pushAll ms ctx1) = (Ok (Some c), ctx1).
Proof. apply sentinel_stays. Qed.

Lemma mergeAll_app file code maps1 maps2 acc :
  mergeAll E file code (maps1 ++ maps2) acc
  = mergeAll E file code maps2 (mergeAll E file code maps1 acc).
Proof. apply fold_left_app. Qed.

Lemma mergeAll_versioned file code maps acc :
  (∀ f m c, is_Some (version (combineSourcemaps E f m c))) →
  Forall (λ o, is_Some (version o)) maps →
  maps ≠ [] →
  ∃ o, mergeAll E file code maps acc = Some o ∧ is_Some (version o).
Proof.
  intros Hcomb Hall. revert acc.
  induction Hall as [|o maps Ho Hall IH]; intros acc Hne; [done|].
  rewrite mergeAll_cons.
  destruct maps as [|o' maps'].
  - simpl. unfold mergeStep. eexists. split; [reflexivity|].
    destruct acc; [apply Hcomb|].
    destruct (hasBlankSource o); [exact Ho|exact Ho].
  - apply IH. discriminate.
Qed.

Lemma collapse_versioned ctx chain maps :
  storedEmpty ctx = false →
  sourcemapChain ctx = chain →
  Forall2 (versioned E) chain maps →
  _getCombinedSourcemap E ctx
  = (Ok (mergeAll E (filename ctx) (originalCode ctx) maps (combinedMap ctx)),
     match chain with
     | [] => ctx
     | _ => setChain []
              (setCombinedMap
                 (mergeAll E (filename ctx) (originalCode ctx) maps
                    (combinedMap ctx)) ctx)
     end).
Proof.
  intros Hs Hchain Hv. unfold _getCombinedSourcemap.
  unfold storedEmpty in Hs. rewrite Hs, Hchain.
  rewrite <- (app_nil_r chain) at 1.
  rewrite (combineChain_versioned E _ _ _ _ _ Hv). simpl.
  destruct Hv as [|m o pre maps Hm Hv].
  - simpl in *. rewrite differs_same. reflexivity.
  - destruct (mergeAll_is_Some E (filename ctx) (originalCode ctx)
                (o :: maps) (combinedMap ctx)) as [x Hx]; [discriminate|].
    rewrite Hx. reflexivity.
Qed.

(** X17. Collapsing in between does not change the result for versioned
    maps. With [combineSourcemaps] giving versioned maps: for a chain of
    versioned maps, collapsing, pushing further versioned maps and
    collapsing again returns the same map as pushing them first and
    collapsing once, namely all the maps merged from left to right into
    the stored one. *)
Theorem collapse_in_between_is_harmless (ctx : TransformContext)
    (maps1 maps2 : list SourceMap) (post : list MapInput) :
  (∀ f m c, is_Some (version (combineSourcemaps E f m c))) →
  storedEmpty ctx = false →
  Forall2 (versioned E) (sourcemapChain ctx) maps1 →
  Forall2 (versioned E) post maps2 →
  let merged :=
    mergeAll E (filename ctx) (originalCode ctx) (maps1 ++ maps2)
      (combinedMap ctx) in
  (_getCombinedSourcemap E (pushAll post (_getCombinedSourcemap E ctx).2)).1
  = Ok merged ∧
  (_getCombinedSourcemap E (pushAll post ctx)).1 = Ok merged.
Proof.
  intros Hcomb Hs H1 H2 merged. split.
  - rewrite (collapse_versioned ctx _ maps1 Hs eq_refl H1). simpl.
    set (m1 := mergeAll E (filename ctx) (originalCode ctx) maps1
                 (combinedMap ctx)).
    assert (Hctx1 :
      ∃ ctx1, match sourcemapChain ctx with
              | [] => ctx
              | _ => setChain [] (setCombinedMap m1 ctx)
              end = ctx1 ∧
              combinedMap ctx1 = m1 ∧ sourcemapChain ctx1 = [] ∧
              filename ctx1 = filename ctx ∧
              originalCode ctx1 = originalCode ctx ∧
              storedEmpty ctx1 = false).
    { destruct (sourcemapChain ctx) as [|m chain] eqn:Hchain.
      - inversion H1; subst. exists ctx. unfold m1. simpl. auto 10.
      - eexists. split; [reflexivity|]. simpl. split_and!; try reflexivity.
        inversion H1 as [|? o ? maps1' [_ Ho] H1']; subst.
        assert (Hall : Forall (λ o, is_Some (version o)) (o :: maps1')).
        { constructor; [exact Ho|].
          clear -H1'. induction H1' as [|? ? ? ? [_ ?] _ IH]; constructor;
            auto. }
        destruct (mergeAll_versioned (filename ctx) (originalCode ctx)
                    (o :: maps1') (combinedMap ctx) Hcomb Hall)
          as (x & Hx & Hvx); [discriminate|].
        unfold storedEmpty. simpl. fold m1. unfold m1. rewrite Hx.
        apply isEmptyMap_versioned. exact Hvx. }
    destruct Hctx1 as (ctx1 & -> & Hm1 & Hc1 & Hf1 & Ho1 & Hs1).
    assert (Hs1' : storedEmpty (pushAll post ctx1) = false).
    { rewrite pushAll_setChain. exact Hs1. }
    rewrite (collapse_versioned (pushAll post ctx1) post maps2 Hs1').
    + simpl. rewrite pushAll_setChain. simpl. rewrite Hf1, Ho1, Hm1.
      unfold merged, m1. rewrite mergeAll_app. reflexivity.
    + rewrite pushAll_setChain. simpl. rewrite Hc1. reflexivity.
    + exact H2.
  - assert (Hs' : storedEmpty (pushAll post ctx) = false).
    { rewrite pushAll_setChain. exact Hs. }
    rewrite (collapse_versioned (pushAll post ctx)
               (sourcemapChain ctx ++ post) (maps1 ++ maps2) Hs').
    + simpl. rewrite pushAll_setChain. reflexivity.
    + rewrite pushAll_setChain. reflexivity.
    + apply Forall2_app; assumption.
Qed.

End CollapseProperties.

Section FirstResultTheorems.

Import PluginContainer.

Context (E : Env).

(** X18. [load] is first-non-null. When the plugins sorted before [p]
    return null or undefined and the handler of [p] returns anything else,
    the empty string included, [load] returns that result, applies its
    [meta] if it is an object, and invokes no plugin after [p]. *)
Theorem load_stops_at_first_result (resolve : ResolveFn) (id : string)
    (ssr0 : bool) (pre : list Plugin) (p : Plugin) (post : list Plugin)
    (handler : string → bool → Hook LoadResult) (ctx : Context)
    (st st1 : St) (tr1 : list Event) (res : LoadResult) (st2 : St)
    (inner : list Event) :
  load_loop E resolve ctx id ssr0 pre st = (Ok LNull, st1, tr1) →
  closed st1 && recoverable E = false →
  load p = Some handler →
  run_hook resolve (setActivePlugin (pid p) ctx) (handler id ssr0) st1
  = (Ok res, st2, inner) →
  non_null_loaded res = true →
  load_loop E resolve ctx id ssr0 (pre ++ p :: post) st
  = (Ok res,
     match res with
     | LObject o => _updateModuleInfo id (sd_meta o) st2
     | _ => st2
     end,
     tr1 ++ [HookCall HLoad (pid p) [id] inner]).
Proof. apply load_first_non_null. Qed.

(** X19. [resolveId] stops at the first truthy result. When the plugins
    sorted before [p] give no result and the handler of [p], which is not
    skipped, returns a non-empty string or an object, the loop ends with
    that result and invokes no plugin after [p]. *)
Theorem resolveId_stops_at_first_truthy (resolve : ResolveFn)
    (rawId importer : string) (hopts : ResolveHookOptions)
    (skip : option (gset nat)) (pre : list Plugin) (p : Plugin)
    (post : list Plugin)
    (handler : string → string → ResolveHookOptions → Hook ResolveIdResult)
    (ctx : Context) (st st1 : St) (tr1 : list Event)
    (res : ResolveIdResult) (st2 : St) (inner : list Event)
    (partial : PartialResolvedId) :
  resolveId_loop E resolve ctx rawId importer hopts skip pre st
  = (Ok None, st1, tr1) →
  closed st1 && recoverable E = false →
  resolveId p = Some handler →
  skipHas skip (pid p) = false →
  run_hook resolve (setActivePlugin (pid p) ctx)
    (handler rawId importer hopts) st1 = (Ok res, st2, inner) →
  truthy_resolved res = Some partial →
  resolveId_loop E resolve ctx rawId importer hopts skip (pre ++ p :: post) st
  = (Ok (Some partial), st2,
     tr1 ++ [HookCall HResolveId (pid p) [rawId] inner]).
Proof. apply resolveId_first_truthy. Qed.

(** X20. Handlers are invoked in sorted order. The plugins whose handlers
    a [resolveId] or [load] call invokes are a prefix of the sorted
    plugins that have the hook (and, for [resolveId], are not skipped),
    in that order; a call that runs to its end without a result has
    invoked all of them. *)
Theorem handlers_invoked_in_sorted_order (resolve : ResolveFn)
    (rawId importer : string) (hopts : ResolveHookOptions)
    (skip : option (gset nat)) (id : string) (ssr0 : bool)
    (plugins : list Plugin) (ctx : Context) (st : St) :
  visited (resolveId_loop E resolve ctx rawId importer hopts skip plugins st).2
  `prefix_of` map pid (List.filter (resolvable skip) plugins) ∧
  visited (load_loop E resolve ctx id ssr0 plugins st).2
  `prefix_of` map pid (List.filter loadable plugins) ∧
  (∀ st1 tr,
     resolveId_loop E resolve ctx rawId importer hopts skip plugins st
     = (Ok None, st1, tr) →
     visited tr = map pid (List.filter (resolvable skip) plugins)) ∧
  (∀ st1 tr,
     load_loop E resolve ctx id ssr0 plugins st = (Ok LNull, st1, tr) →
     visited tr = map pid (List.filter loadable plugins)).
Proof.
  split_and!.
  - apply resolveId_loop_order.
  - apply load_loop_order.
  - intros st1 tr. apply resolveId_loop_null.
  - intros st1 tr. apply load_loop_null.
Qed.

End FirstResultTheorems.

Section MoreExamples.

Import PluginContainer ContainerFrames Scenarios.

(** The loaders of [emptyCodeLoaded]: the second returns the empty string
    and the third is not invoked. *)
Lemma load_stops_at_first_result_witness :
  load_loop (containerOf false emptyCodeLoaded)
    (container_resolveId (containerOf false emptyCodeLoaded) 1) newContext
    "/a.js" false
    ([loader 1 "L1" (fun _ _ => Ret LNull)] ++
     loader 2 "L2" (fun _ _ => Ret (LString "")) ::
     [loader 3 "L3" (fun _ _ => Ret (LString "export {}"))]) openState
  = (Ok (LString ""), openState,
     [HookCall HLoad 1 ["/a.js"] []] ++ [HookCall HLoad 2 ["/a.js"] []]).
Proof.
  apply (load_stops_at_first_result (containerOf false emptyCodeLoaded)
           (container_resolveId (containerOf false emptyCodeLoaded) 1)
           "/a.js" false
           [loader 1 "L1" (fun _ _ => Ret LNull)]
           (loader 2 "L2" (fun _ _ => Ret (LString "")))
           [loader 3 "L3" (fun _ _ => Ret (LString "export {}"))]
           (fun _ _ => Ret (LString "")) newContext openState openState
           [HookCall HLoad 1 ["/a.js"] []] (LString "") openState []);
    reflexivity.
Defined.

(** Scenario A: P2 resolves and P3 is not invoked. *)
Lemma resolveId_stops_at_first_truthy_witness :
  resolveId_loop (containerOf false scenarioA)
    (container_resolveId (containerOf false scenarioA) 0)
    (resolveIdContext None) "a" "/root/index.html"
    (resolveIdHookOptions (containerOf false scenarioA) None) None
    ([resolver 1 "P1" (fun _ _ _ => Ret RNull)] ++
     resolver 2 "P2" (fun _ _ _ => Ret (RString "/abs/a.js")) ::
     [resolver 3 "P3" (fun _ _ _ => Ret (RString "/abs/b.js"))]) openState
  = (Ok (Some {| rid_id := "/abs/a.js"; rid_props := [] |}), openState,
     [HookCall HResolveId 1 ["a"] []] ++ [HookCall HResolveId 2 ["a"] []]).
Proof.
  apply (resolveId_stops_at_first_truthy (containerOf false scenarioA)
           (container_resolveId (containerOf false scenarioA) 0)
           "a" "/root/index.html"
           (resolveIdHookOptions (containerOf false scenarioA) None) None
           [resolver 1 "P1" (fun _ _ _ => Ret RNull)]
           (resolver 2 "P2" (fun _ _ _ => Ret (RString "/abs/a.js")))
           [resolver 3 "P3" (fun _ _ _ => Ret (RString "/abs/b.js"))]
           (fun _ _ _ => Ret (RString "/abs/a.js"))
           (resolveIdContext None) openState openState
           [HookCall HResolveId 1 ["a"] []] (RString "/abs/a.js") openState []
           {| rid_id := "/abs/a.js"; rid_props := [] |});
    reflexivity.
Defined.

(** The chain of scenario B collapsed once, and once more. *)
Lemma collapse_is_idempotent_witness :
  _getCombinedSourcemap (containerOf false [])
    (contextWith [] (Some (withSource mapB "/f.js" "X")))
  = (Ok (Some (withSource mapB "/f.js" "X")),
     contextWith [] (Some (withSource mapB "/f.js" "X"))) ∧
  combinedMap (contextWith [] (Some (withSource mapB "/f.js" "X")))
  = Some (withSource mapB "/f.js" "X").
Proof.
  apply (collapse_is_idempotent (containerOf false [])
           (contextWith [MapObj mapB] None)).
  reflexivity.
Defined.

(** The sentinel, then the map of scenario B pushed after it. *)
Lemma empty_sentinel_is_final_witness :
  _getCombinedSourcemap (containerOf false [])
    (pushAll [MapObj mapB] (contextWith [] (Some emptyMap)))
  = (Ok (Some emptyMap), contextWith [] (Some emptyMap)).
Proof.
  apply (empty_sentinel_is_final (containerOf false [])
           (contextWith [MapObj emptyMap] None)); reflexivity.
Defined.

(** The map of scenario B, then a second versioned map. *)
Lemma collapse_in_between_is_harmless_witness :
  let E := containerOf false [] in
  let ctx := contextWith [MapObj mapB] None in
  let merged :=
    mergeAll E (filename ctx) (originalCode ctx) ([mapB] ++ [versionedEmptyMap])
      (combinedMap ctx) in
  (_getCombinedSourcemap E
     (pushAll [MapObj versionedEmptyMap] (_getCombinedSourcemap E ctx).2)).1
  = Ok merged ∧
  (_getCombinedSourcemap E (pushAll [MapObj versionedEmptyMap] ctx)).1
  = Ok merged.
Proof.
  intros E ctx.
  apply (collapse_in_between_is_harmless E ctx [mapB] [versionedEmptyMap]
           [MapObj versionedEmptyMap]).
  - intros f m c. eexists. reflexivity.
  - reflexivity.
  - constructor; [|constructor]. split; [reflexivity|]. eexists. reflexivity.
  - constructor; [|constructor]. split; [reflexivity|]. eexists. reflexivity.
Defined.

End MoreExamples.

(* ===================================================================== *)
(** * Error enrichment                                                    *)
(* ===================================================================== *)

Section ErrorFormatProperties.

Import PluginContainer ErrorFormat.

Context (E : PluginContainer.Env) (X : ErrorImports).

Lemma sameReport_refl err : sameReport err err.
Proof. unfold sameReport. done. Qed.

Lemma sameReport_trans a b c :
  sameReport a b → sameReport b c → sameReport a c.
Proof.
  unfold sameReport. intros (-> & -> & -> & ->) (-> & -> & -> & ->). done.
Qed.

Lemma attribute_report c err :
  message (attribute X c err) = message err ∧
  code (attribute X c err) = code err ∧
  pluginCode (attribute X c err) = pluginCode err ∧
  plugin (attribute X c err) = attributedTo X c err.
Proof.
  unfold attribute, attributedTo.
  destruct (_activePlugin c); case_match; done.
Qed.

Lemma frameOr_sameReport new err : sameReport (frameOr new err) err.
Proof. unfold frameOr, sameReport. case_match; done. Qed.

Lemma frameFromLoc_sameReport activeCode l err :
  sameReport (frameFromLoc E X activeCode l err) err.
Proof.
  unfold frameFromLoc, sameReport. repeat case_match; done.
Qed.

Lemma frameFromLocAlone_sameReport l err :
  sameReport (frameFromLocAlone E X l err) err.
Proof.
  unfold frameFromLocAlone, sameReport.
  repeat case_match; simplify_eq; done.
Qed.

Lemma scrub_sameReport err : sameReport (scrub err) err.
Proof. unfold scrub, sameReport. repeat case_match; done. Qed.

Lemma scrub_loc err l : loc (scrub err) = Some l → locSaysSomething l.
Proof.
  unfold scrub, locSaysSomething. intros H.
  destruct (loc err) as [l0|] eqn:Hl; [|congruence].
  destruct (bool_decide (is_Some (loc_column l0))) eqn:Hc;
    destruct (bool_decide (is_Some (loc_line l0))) eqn:Hn;
    destruct (truthy_ostr (loc_file l0)) eqn:Hf;
    simpl in H; try discriminate H;
    rewrite Hl in H; simplify_eq;
    try (apply bool_decide_eq_true in Hc);
    try (apply bool_decide_eq_true in Hn); auto.
Qed.

Lemma traceBack_sameReport ctx err f ctx1 err1 :
  traceBack E X ctx err = (f, ctx1) →
  formattedError f = Some err1 →
  sameReport err1 err.
Proof.
  unfold traceBack, sameReport. intros H Hf.
  repeat case_match; simplify_eq; simpl in Hf; simplify_eq; done.
Qed.

Lemma formatError_early e p ctx :
  truthy_ostr (pluginCode (errorOf e)) = true →
  formatError E X e p ctx = (Returns (errorOf e), ctx, []).
Proof. unfold formatError. fold (errorOf e). intros ->. done. Qed.

(** After the early return, what [formatError] ends with is the error
    with its plugin and plugin code set, and framed, traced and scrubbed:
    nothing of that touches the message, the code, the plugin or the
    plugin code. *)
Lemma formatError_report e p ctx f ctx1 logged err :
  truthy_ostr (pluginCode (errorOf e)) = false →
  formatError E X e p ctx = (f, ctx1, logged) →
  formattedError f = Some err →
  message err = message (errorOf e) ∧ code err = code (errorOf e) ∧
  plugin err = attributedTo X (baseOf ctx) (errorOf e) ∧
  (truthy_ostr (_activeCode (baseOf ctx)) = true →
   pluginCode err = _activeCode (baseOf ctx)).
Proof.
  unfold formatError. fold (errorOf e). intros Hpc H Hf. rewrite Hpc in H.
  pose proof (attribute_report (baseOf ctx) (errorOf e))
    as (Hm & Hc & Hp & Hn).
  set (err0 := attribute X (baseOf ctx) (errorOf e)) in *.
  destruct (_activeCode (baseOf ctx)) as [activeCode|] eqn:Hac; simpl.
  - destruct (truthy_str activeCode) eqn:Hta; simpl.
    + set (err1 := setPluginCode (Some activeCode) err0) in *.
      assert (message err1 = message (errorOf e) ∧ code err1 = code (errorOf e)
              ∧ pluginCode err1 = Some activeCode
              ∧ plugin err1 = attributedTo X (baseOf ctx) (errorOf e))
        as Hrep by done.
      clearbody err1.
      assert (∀ err2 f2 ctx2,
        sameReport err2 err1 →
        match traceBack E X ctx err2 with
        | (Returns err, ctx1) => (Returns (scrub err), ctx1, [])
        | (other, ctx1) => (other, ctx1, [])
        end = (f2, ctx2, logged) →
        formattedError f2 = Some err →
        sameReport err err1) as Hlift.
      { intros err2 f2 ctx2 Hs Ht Hf2.
        destruct (traceBack E X ctx err2) as [g ctx3] eqn:Htb.
        assert (∃ err3, formattedError g = Some err3 ∧ sameReport err err3)
          as (err3 & Hg & Hs3).
        { destruct g; simplify_eq; simpl in Hf2; simplify_eq.
          - eexists; split; [done|]. apply scrub_sameReport.
          - eexists; split; [done|]. apply sameReport_refl. }
        pose proof (traceBack_sameReport _ _ _ _ _ Htb Hg) as Hs4.
        exact (sameReport_trans _ _ _ Hs3 (sameReport_trans _ _ _ Hs4 Hs)). }
      assert (sameReport err err1) as (-> & -> & -> & ->);
        [|destruct Hrep as (? & ? & ? & ?); split_and!; auto].
      match type of H with
      | context [match ?l with inl _ => _ | inr _ => _ end] =>
          destruct l as [err2|msg] eqn:Hloc
      end.
      * eapply Hlift; [|exact H|exact Hf].
        repeat case_match; simplify_eq;
          first [ apply sameReport_refl
                | apply frameOr_sameReport
                | apply frameFromLoc_sameReport
                | eapply sameReport_trans; [apply frameOr_sameReport|done] ].
      * simplify_eq. simpl in Hf. simplify_eq. apply sameReport_refl.
    + assert (sameReport err err0) as (-> & -> & _ & ->);
        [|split_and!; auto; simpl; congruence].
      repeat case_match; simplify_eq; simpl in Hf; simplify_eq;
        first [ apply scrub_sameReport
              | eapply sameReport_trans;
                [apply scrub_sameReport|apply frameFromLocAlone_sameReport] ].
  - assert (sameReport err err0) as (-> & -> & _ & ->);
      [|split_and!; auto; simpl; congruence].
    repeat case_match; simplify_eq; simpl in Hf; simplify_eq;
      first [ apply scrub_sameReport
            | eapply sameReport_trans;
              [apply scrub_sameReport|apply frameFromLocAlone_sameReport] ].
Qed.

(** X21. An error is enriched once: what [formatError] returns or throws
    under an active code comes back unchanged from any later call, with
    whatever position and context, and the context of that call is left
    alone and nothing is logged. *)
Theorem formatError_enriches_once e p ctx f ctx1 logged err :
  truthy_ostr (_activeCode (baseOf ctx)) = true →
  formatError E X e p ctx = (f, ctx1, logged) →
  formattedError f = Some err →
  ∀ p' ctx', formatError E X (inr err) p' ctx' = (Returns err, ctx', []).
Proof.
  intros Hac H Hf p' ctx'.
  apply (formatError_early (inr err)). simpl.
  destruct (truthy_ostr (pluginCode (errorOf e))) eqn:Hpc.
  - rewrite (formatError_early _ _ _ Hpc) in H. simplify_eq.
    simpl in Hf. by simplify_eq.
  - destruct (formatError_report _ _ _ _ _ _ _ Hpc H Hf) as (_ & _ & _ & Hp).
    rewrite (Hp Hac). exact Hac.
Qed.

(** X22. [formatError] never changes the message or the code of the
    error it is given, whichever way it ends: an [ERR_CLOSED_SERVER]
    stays one. *)
Theorem formatError_keeps_message_and_code e p ctx f ctx1 logged err :
  formatError E X e p ctx = (f, ctx1, logged) →
  formattedError f = Some err →
  message err = message (errorOf e) ∧ code err = code (errorOf e).
Proof.
  intros H Hf.
  destruct (truthy_ostr (pluginCode (errorOf e))) eqn:Hpc.
  - rewrite (formatError_early _ _ _ Hpc) in H. simplify_eq.
    simpl in Hf. by simplify_eq.
  - destruct (formatError_report _ _ _ _ _ _ _ Hpc H Hf) as (? & ? & _).
    done.
Qed.

(** X23. An error that has no plugin code yet is attributed to the active
    plugin, whatever plugin it named before; without an active plugin its
    plugin is kept. *)
Theorem formatError_names_active_plugin e p ctx f ctx1 logged err :
  truthy_ostr (pluginCode (errorOf e)) = false →
  formatError E X e p ctx = (f, ctx1, logged) →
  formattedError f = Some err →
  plugin err = attributedTo X (baseOf ctx) (errorOf e).
Proof.
  intros Hpc H Hf.
  destruct (formatError_report _ _ _ _ _ _ _ Hpc H Hf) as (_ & _ & ? & _).
  done.
Qed.

(** X24. An error that has no plugin code yet and that [formatError]
    returns has no [loc], or a [loc] with a numeric line, a numeric column
    or a file. *)
Theorem formatError_loc_says_something e p ctx ctx1 logged err l :
  truthy_ostr (pluginCode (errorOf e)) = false →
  formatError E X e p ctx = (Returns err, ctx1, logged) →
  loc err = Some l →
  locSaysSomething l.
Proof.
  unfold formatError. fold (errorOf e). intros Hpc H Hl. rewrite Hpc in H.
  assert (∃ err', err = scrub err') as [err' ->];
    [|by eapply scrub_loc].
  destruct (_activeCode (baseOf ctx)) as [activeCode|];
    [destruct (truthy_str activeCode)|].
  - match type of H with
    | context [match ?l with inl _ => _ | inr _ => _ end] =>
        destruct l as [err2|msg]
    end; [|discriminate H].
    destruct (traceBack E X ctx err2) as [[]]; simplify_eq. by eexists.
  - destruct (loc (attribute X (baseOf ctx) (errorOf e)));
      simplify_eq; by eexists.
  - destruct (loc (attribute X (baseOf ctx) (errorOf e)));
      simplify_eq; by eexists.
Qed.

End ErrorFormatProperties.

Section ErrorFormatExamples.

Import PluginContainer ErrorFormat Scenarios.

Lemma formatError_enriches_once_witness :
  formatError (containerOf false []) plainErrorImports (inr closedError) None
    cssContext
  = (Returns cssFormatted, cssContext, []) ∧
  formatError (containerOf false []) plainErrorImports (inr cssFormatted)
    (Some (Offset 0)) (PlainContext newContext)
  = (Returns cssFormatted, PlainContext newContext, []).
Proof.
  assert (formatError (containerOf false []) plainErrorImports
            (inr closedError) None cssContext
          = (Returns cssFormatted, cssContext, [])) as H
    by (vm_compute; reflexivity).
  split; [exact H|].
  exact (formatError_enriches_once (containerOf false []) plainErrorImports
           (inr closedError) None cssContext _ _ _ cssFormatted
           eq_refl H eq_refl
           (Some (Offset 0)) (PlainContext newContext)).
Defined.

Lemma formatError_keeps_message_and_code_witness :
  formatError (containerOf false []) plainErrorImports (inr closedError) None
    cssContext
  = (Returns cssFormatted, cssContext, []) ∧
  message cssFormatted = message closedError ∧
  code cssFormatted = Some "ERR_CLOSED_SERVER".
Proof.
  assert (formatError (containerOf false []) plainErrorImports
            (inr closedError) None cssContext
          = (Returns cssFormatted, cssContext, [])) as H
    by (vm_compute; reflexivity).
  split; [exact H|].
  exact (formatError_keeps_message_and_code (containerOf false [])
           plainErrorImports (inr closedError) None cssContext _ _ _
           cssFormatted H eq_refl).
Defined.

Lemma formatError_names_active_plugin_witness :
  formatError (containerOf false []) plainErrorImports (inr closedError) None
    cssContext
  = (Returns cssFormatted, cssContext, []) ∧
  plugin closedError = Some "inner" ∧ plugin cssFormatted = Some "vite:css".
Proof.
  assert (formatError (containerOf false []) plainErrorImports
            (inr closedError) None cssContext
          = (Returns cssFormatted, cssContext, [])) as H
    by (vm_compute; reflexivity).
  split; [exact H|]. split; [reflexivity|].
  exact (formatError_names_active_plugin (containerOf false [])
           plainErrorImports (inr closedError) None cssContext _ _ _
           cssFormatted eq_refl H eq_refl).
Defined.

Lemma formatError_loc_says_something_witness :
  formatError (containerOf false []) plainErrorImports (inr closedError) None
    cssContext
  = (Returns cssFormatted, cssContext, []) ∧
  locSaysSomething
    {| loc_file := Some "/a.css"; loc_line := Some 1%Z;
       loc_column := Some 4%Z |}.
Proof.
  assert (formatError (containerOf false []) plainErrorImports
            (inr closedError) None cssContext
          = (Returns cssFormatted, cssContext, [])) as H
    by (vm_compute; reflexivity).
  split; [exact H|].
  exact (formatError_loc_says_something (containerOf false [])
           plainErrorImports (inr closedError) None cssContext _ _
           cssFormatted _ eq_refl H eq_refl).
Defined.

(** A [loc] that says nothing is deleted. *)
Example empty_loc_is_deleted :
  formatError (containerOf false []) plainErrorImports (inr emptyLocError) None
    (PlainContext newContext)
  = (Returns (setLoc None emptyLocError), PlainContext newContext, []).
Proof. vm_compute. reflexivity. Qed.

(** A position [numberToPos] refuses: the error is thrown with its plugin,
    id and plugin code set, and the refusal is logged. *)
Example bad_position_rethrows :
  formatError (containerOf false []) plainErrorImports (inr closedError)
    (Some (Offset (-1))) cssContext
  = (ThrowsIt (setPluginCode (Some "a { color: red }")
                 (setId (Some "/a.css")
                    (setPlugin (Some "vite:css") closedError))),
     cssContext, ["out of range"]).
Proof. vm_compute. reflexivity. Qed.

End ErrorFormatExamples.

(* ===================================================================== *)
(** * this.load and the keys of a module's meta                           *)
(* ===================================================================== *)

Section ContextLoadProperties.

Import PluginContainer ContainerFrames ContextLoad.

Context (E : Env).

Lemma grows_refl a : grows a a.
Proof. destruct a; simpl; done. Qed.

Lemma grows_trans a b c : grows a b → grows b c → grows a c.
Proof. destruct a, b, c; simpl; try done. set_solver. Qed.

Lemma meta_keys_grow_refl st : meta_keys_grow st st.
Proof. intros id. apply grows_refl. Qed.

Lemma meta_keys_grow_trans st1 st2 st3 :
  meta_keys_grow st1 st2 → meta_keys_grow st2 st3 → meta_keys_grow st1 st3.
Proof. intros H1 H2 id. exact (grows_trans _ _ _ (H1 id) (H2 id)). Qed.

Lemma updateModuleInfo_grow id meta st :
  meta_keys_grow st (_updateModuleInfo id meta st).
Proof.
  unfold _updateModuleInfo.
  destruct meta as [m|]; [|apply meta_keys_grow_refl].
  destruct (moduleGraph st) as [g|] eqn:Hg; [|apply meta_keys_grow_refl].
  destruct (g !! id) as [n|] eqn:Hn; [|apply meta_keys_grow_refl].
  intros id'. unfold metaKeys, getModuleById. simpl. rewrite Hg.
  destruct (decide (id' = id)) as [->|Hne].
  - rewrite lookup_insert_eq, Hn. simpl. unfold spread.
    rewrite dom_union. set_solver.
  - rewrite lookup_insert_ne by done. apply grows_refl.
Qed.

(** With [meta], the keys of [meta] are keys of the module's info. *)
Lemma updateModuleInfo_keys id m st :
  match metaKeys (_updateModuleInfo id (Some m) st) id with
  | Some keys => dom m ⊆ keys
  | None => True
  end.
Proof.
  unfold _updateModuleInfo, metaKeys, getModuleById.
  destruct (moduleGraph st) as [g|] eqn:Hg; simpl; [|by rewrite Hg].
  destruct (g !! id) as [n|] eqn:Hn; simpl.
  - rewrite lookup_insert_eq. simpl. unfold spread. rewrite dom_union.
    set_solver.
  - rewrite Hg, Hn. done.
Qed.

(** [getModuleInfo] gives the info whose keys [metaKeys] counts, and
    leaves them as they are. *)
Lemma getModuleInfo_keys id st :
  metaKeys st id = (λ i, dom (mi_meta i)) <$> (getModuleInfo id st).1 ∧
  meta_keys_grow st (getModuleInfo id st).2.
Proof.
  unfold getModuleInfo, metaKeys, getModuleById.
  destruct (moduleGraph st) as [g|] eqn:Hg; simpl;
    [|split; [done|apply meta_keys_grow_refl]].
  destruct (g !! id) as [n|] eqn:Hn; simpl;
    [|split; [done|apply meta_keys_grow_refl]].
  split; [done|].
  intros id'. unfold metaKeys, getModuleById. simpl. rewrite Hg.
  destruct (decide (id' = id)) as [->|Hne].
  - rewrite lookup_insert_eq, Hn. simpl. done.
  - rewrite lookup_insert_ne by done. apply grows_refl.
Qed.

Lemma load_loop_grow resolve id ssr0 :
  read_only resolve →
  ∀ plugins ctx st,
    meta_keys_grow st (load_loop E resolve ctx id ssr0 plugins st).1.2.
Proof.
  intros Hro. induction plugins as [|p rest IH]; intros ctx st; simpl;
    [apply meta_keys_grow_refl|].
  destruct (closed st && recoverable E); [apply meta_keys_grow_refl|].
  destruct (load p) as [handler|]; [|apply IH].
  pose proof (run_hook_read_only resolve (setActivePlugin (pid p) ctx)
                (handler id ssr0) Hro st) as Hrun.
  destruct (run_hook resolve _ (handler id ssr0) st) as [[res st'] inner].
  simpl in Hrun. subst st'.
  pose proof (IH (setActivePlugin (pid p) ctx) st) as IH'.
  destruct (load_loop E resolve (setActivePlugin (pid p) ctx) _ _ rest st)
    as [[r0 st0] tr0]. simpl in IH'.
  destruct res as [[| |s|o]|e|]; simpl; try apply meta_keys_grow_refl;
    try exact IH'.
  apply updateModuleInfo_grow.
Qed.

Lemma transform_loop_grow resolve id hopts :
  read_only resolve →
  ∀ plugins ctx code st,
    meta_keys_grow st
      (transform_loop E resolve ctx code id hopts plugins st).1.2.
Proof.
  intros Hro. induction plugins as [|p rest IH]; intros ctx code st; simpl;
    [apply meta_keys_grow_refl|].
  destruct (closed st && recoverable E); [apply meta_keys_grow_refl|].
  destruct (transform p) as [handler|]; [|apply IH].
  pose proof (run_hook_read_only resolve
                (base (activate (pid p) id code ctx))
                (handler code id hopts) Hro st) as Hrun.
  simpl in Hrun.
  destruct (run_hook resolve _ (handler code id hopts) st)
    as [[res st'] inner]. simpl in Hrun. subst st'.
  assert (Hgo : ∀ ctx2 code2 st2 ev,
    meta_keys_grow st st2 →
    meta_keys_grow st
      (let '(r, st3, tr) := transform_loop E resolve ctx2 code2 id hopts rest st2
       in (r, st3, ev :: tr)).1.2).
  { intros ctx2 code2 st2 ev H2. pose proof (IH ctx2 code2 st2) as IH'.
    destruct (transform_loop E resolve ctx2 code2 id hopts rest st2)
      as [[r0 st0] tr0]. simpl in *.
    exact (meta_keys_grow_trans _ _ _ H2 IH'). }
  destruct res as [[| |s|o]|e|]; try apply meta_keys_grow_refl;
    try (apply Hgo, meta_keys_grow_refl).
  - destruct (truthy_str s); apply Hgo, meta_keys_grow_refl.
  - destruct (sd_code o) as [c|]; [destruct (truthy_map (sd_map o))|];
      apply Hgo, updateModuleInfo_grow.
Qed.

Lemma container_load_grow fuel st id :
  meta_keys_grow st (container_load E fuel st id).1.2.
Proof. apply load_loop_grow, container_resolveId_read_only. Qed.

Lemma container_transform_grow fuel st code id topts :
  meta_keys_grow st (container_transform E fuel st code id topts).1.2.
Proof.
  unfold container_transform.
  pose proof (transform_loop_grow (container_resolveId E fuel) id
                {| tho_inMap := match topts with
                                | Some o => to_inMap o
                                | None => MapUndefined
                                end;
                   tho_ssr := ssr E |}
                (container_resolveId_read_only E fuel)
                (getSortedPlugins E HTransform)
                (newTransformContext id code
                   match topts with
                   | Some o => to_inMap o
                   | None => MapUndefined
                   end) code st) as H.
  destruct (transform_loop E _ _ _ _ _ _ st) as [[r st1] tr]. simpl in H.
  destruct r as [[ctx1 code1]|e|]; simpl; try exact H.
  destruct (fst (_getCombinedSourcemap E ctx1)); exact H.
Qed.

(** X25. [load] and [transform] never take a key from a module's meta:
    with handlers that use their context through [this.resolve] only,
    whatever they return, every module of the graph is still there after
    the call and has at least the meta keys it had, and no module was
    added. *)
Theorem pipelines_never_drop_meta_keys
    (fuel : nat) (st : St) (id code : string)
    (topts : option TransformOptions) :
  meta_keys_grow st (container_load E fuel st id).1.2 ∧
  meta_keys_grow st (container_transform E fuel st code id topts).1.2.
Proof.
  split; [apply container_load_grow|apply container_transform_grow].
Qed.

Context (G : GraphImports).

(** What [this.load] ends on, from the state the entry was ensured in. *)
Lemma moduleInfoOrFail_keys id st tr :
  match (moduleInfoOrFail id st tr).1.1 with
  | Ok info => metaKeys st id = Some (dom (mi_meta info))
  | Throws e => metaKeys st id = None ∧ e = failedToLoad id
  | OutOfFuel => False
  end.
Proof.
  unfold moduleInfoOrFail.
  destruct (getModuleInfo_keys id st) as [Hk _].
  destruct (getModuleInfo id st) as [[info|] st1]; simpl in *; auto.
Qed.

(** X26. The module info [this.load] returns has every key of the [meta]
    it was called with, whatever the handlers of the two pipelines merged
    in afterwards. *)
Theorem this_load_returns_given_meta_keys
    (fuel : nat) (id : string) (m : Meta) (st st' : St)
    (info : ModuleInfo) (tr : list Event) :
  Context_load E G fuel id (Some m) st = (Ok info, st', tr) →
  dom m ⊆ dom (mi_meta info).
Proof.
  unfold Context_load. intros H.
  destruct (match moduleGraph st with
            | Some _ => ensureEntryFromUrl G (unwrapId G id) st
            | None => (Ok (), st, [])
            end) as [[ensured st0] tr0].
  destruct ensured as [[]|e|]; [|discriminate H|discriminate H].
  pose proof (updateModuleInfo_keys id m st0) as Hk.
  set (st1 := _updateModuleInfo id (Some m) st0) in *.
  pose proof (container_load_grow fuel st1 id id) as H1.
  destruct (container_load E fuel st1 id) as [[loaded st2] tr1].
  simpl in H1.
  destruct loaded as [loadResult|e|]; [|discriminate H|discriminate H].
  assert (∀ st3 tr3, grows (metaKeys st1 id) (metaKeys st3 id) →
            moduleInfoOrFail id st3 tr3 = (Ok info, st', tr) →
            dom m ⊆ dom (mi_meta info)) as Hend.
  { intros st3 tr3 Hg He.
    pose proof (moduleInfoOrFail_keys id st3 tr3) as Hi.
    rewrite He in Hi. simpl in Hi. rewrite Hi in Hg.
    destruct (metaKeys st1 id) as [keys|]; simpl in Hg; [|done].
    set_solver. }
  destruct (codeOf loadResult) as [code|]; [|by eapply Hend].
  pose proof (container_transform_grow fuel st2 code id None id) as H2.
  destruct (container_transform E fuel st2 code id None)
    as [[transformed st3] tr2]. simpl in H2.
  destruct transformed; [|discriminate H|discriminate H].
  eapply Hend; [|exact H]. exact (grows_trans _ _ _ H1 H2).
Qed.








End ContextLoadProperties.

Section ContextLoadExamples.

Import PluginContainer ContextLoad Scenarios.

Lemma this_load_returns_given_meta_keys_witness :
  ∃ info st' tr,
    Context_load (containerOf false metaPlugins) settledGraph 0 "/a.js"
      (Some {[ "given" := "1" ]}) graphWithA = (Ok info, st', tr) ∧
    dom ({[ "given" := "1" ]} : Meta) ⊆ dom (mi_meta info).
Proof.
  eexists _, _, _.
  refine ((λ H, conj H
             (this_load_returns_given_meta_keys
                (containerOf false metaPlugins) settledGraph 0 "/a.js"
                {[ "given" := "1" ]} graphWithA _ _ _ H)) _).
  vm_compute. reflexivity.
Defined.


(** The loader returns an empty code: the transform handlers still run,
    and the info has the keys given to [this.load] and those of both
    handlers. *)
Example this_load_transforms_empty_code :
  ∃ info st',
    Context_load (containerOf false metaPlugins) settledGraph 0 "/a.js"
      (Some {[ "given" := "1" ]}) graphWithA
    = (Ok info, st',
       [HookCall HLoad 1 ["/a.js"] [];
        HookCall HTransform 2 [""; "/a.js"] []]) ∧
    mi_meta info
    = {[ "given" := "1"; "loaded" := "yes"; "seen" := "yes" ]}.
Proof. eexists _, _. split; vm_compute; reflexivity. Qed.

End ContextLoadExamples.

(* ===================================================================== *)
(** * Watch files and added imports                                       *)
(* ===================================================================== *)

Section WatchFilesProperties.

Import WatchFiles.

Context (watcher : bool) (hasNode : string → bool).

Lemma setAdd_elem x y s : y ∈ setAdd x s ↔ y = x ∨ y ∈ s.
Proof.
  unfold setAdd. case_bool_decide.
  - split; [auto|]. intros [->|?]; done.
  - rewrite elem_of_app, list_elem_of_singleton. tauto.
Qed.

Lemma setAdd_NoDup x s : NoDup s → NoDup (setAdd x s).
Proof.
  unfold setAdd. intros Hs. case_bool_decide; [done|].
  apply NoDup_app. split_and!; [done| |apply NoDup_singleton].
  intros y Hy Hx. apply list_elem_of_singleton in Hx. by subst.
Qed.

Lemma addAll_cons file files added s :
  addAll watcher (file :: files) added s
  = addAll watcher files (addWatchFile watcher file added s).1
      (addWatchFile watcher file added s).2.
Proof.
  unfold addAll. simpl. by destruct (addWatchFile watcher file added s).
Qed.

Lemma addAll_watchFiles files :
  ∀ added s,
    (∀ f, f ∈ watchFiles (addAll watcher files added s).2
          ↔ f ∈ files ∨ f ∈ watchFiles s) ∧
    (NoDup (watchFiles s) →
     NoDup (watchFiles (addAll watcher files added s).2)) ∧
    moduleNodeToLoadAddedImports (addAll watcher files added s).2
    = moduleNodeToLoadAddedImports s.
Proof.
  induction files as [|file files IH]; intros added s.
  - simpl. split_and!; [|done|done]. intros f. rewrite elem_of_nil. tauto.
  - rewrite addAll_cons.
    destruct (IH (addWatchFile watcher file added s).1
                 (addWatchFile watcher file added s).2) as (He & Hn & Hm).
    assert (watchFiles (addWatchFile watcher file added s).2
            = setAdd file (watchFiles s)) as Hw
      by (unfold addWatchFile; destruct added; reflexivity).
    assert (moduleNodeToLoadAddedImports (addWatchFile watcher file added s).2
            = moduleNodeToLoadAddedImports s) as Hm'
      by (unfold addWatchFile; destruct added; reflexivity).
    split_and!.
    + intros f. rewrite He, Hw, setAdd_elem, elem_of_cons. tauto.
    + intros Hs. apply Hn. rewrite Hw. by apply setAdd_NoDup.
    + by rewrite Hm, Hm'.
Qed.

(** Adding through a set of the store changes that set only. *)
Lemma addAll_some files :
  ∀ a s,
    (a < length (sets s))%nat →
    (addAll watcher files (Some a) s).1 = Some a ∧
    length (sets (addAll watcher files (Some a) s).2) = length (sets s) ∧
    (∀ b, b ≠ a →
          sets (addAll watcher files (Some a) s).2 !! b = sets s !! b) ∧
    (∀ f, f ∈ default [] (sets (addAll watcher files (Some a) s).2 !! a)
          ↔ f ∈ files ∨ f ∈ default [] (sets s !! a)).
Proof.
  induction files as [|file files IH]; intros a s Ha.
  - simpl. split_and!; try done. intros f. rewrite elem_of_nil. tauto.
  - rewrite addAll_cons. simpl.
    set (s1 := {| watchFiles := setAdd file (watchFiles s);
                  sets := alter (setAdd file) a (sets s);
                  moduleNodeToLoadAddedImports :=
                    moduleNodeToLoadAddedImports s;
                  ensured := if watcher then ensured s ++ [file]
                             else ensured s |}).
    assert (a < length (sets s1))%nat as Ha1
      by (simpl; by rewrite length_alter).
    destruct (IH a s1 Ha1) as (H1 & H2 & H3 & H4).
    split_and!.
    + exact H1.
    + rewrite H2. simpl. by rewrite length_alter.
    + intros b Hb. rewrite (H3 b Hb). simpl.
      by rewrite list_lookup_alter_ne.
    + intros f. rewrite H4. simpl. rewrite list_lookup_alter.
      destruct (lookup_lt_is_Some_2 _ _ Ha) as [old Hold].
      rewrite decide_True by done.
      rewrite Hold. simpl. rewrite setAdd_elem, elem_of_cons. tauto.
Qed.

(** Adding on a context without a set makes a set of the files, at a new
    address. *)
Lemma addAll_none files s :
  files ≠ [] →
  (addAll watcher files None s).1 = Some (length (sets s)) ∧
  length (sets (addAll watcher files None s).2) = S (length (sets s)) ∧
  (∀ b, (b < length (sets s))%nat →
        sets (addAll watcher files None s).2 !! b = sets s !! b) ∧
  (∀ f, f ∈ default [] (sets (addAll watcher files None s).2
                          !! length (sets s))
        ↔ f ∈ files).
Proof.
  destruct files as [|file files]; [done|]. intros _.
  rewrite addAll_cons. simpl.
  set (s1 := {| watchFiles := setAdd file (watchFiles s);
                sets := sets s ++ [setAdd file []];
                moduleNodeToLoadAddedImports :=
                  moduleNodeToLoadAddedImports s;
                ensured := if watcher then ensured s ++ [file]
                           else ensured s |}).
  assert (length (sets s) < length (sets s1))%nat as Ha1
    by (simpl; rewrite length_app; simpl; lia).
  destruct (addAll_some files (length (sets s)) s1 Ha1) as (H1 & H2 & H3 & H4).
  split_and!.
  - exact H1.
  - rewrite H2. simpl. rewrite length_app. simpl. lia.
  - intros b Hb. rewrite H3 by lia. simpl. by rewrite lookup_app_l.
  - intros f. rewrite H4. simpl.
    rewrite lookup_app_r by lia. rewrite Nat.sub_diag. simpl.
    rewrite setAdd_elem, elem_of_cons, elem_of_nil. tauto.
Qed.

Lemma addAll_nil added s : addAll watcher [] added s = (added, s).
Proof. reflexivity. Qed.

(** Whatever the context, the sets of the store it does not hold stay as
    they are, and no set is taken away. *)
Lemma addAll_frame files added s :
  (∀ a, added = Some a → (a < length (sets s))%nat) →
  (length (sets s) ≤ length (sets (addAll watcher files added s).2))%nat ∧
  (∀ b, (b < length (sets s))%nat → added ≠ Some b →
        sets (addAll watcher files added s).2 !! b = sets s !! b).
Proof.
  intros Hv. destruct added as [a|].
  - destruct (addAll_some files a s (Hv a eq_refl)) as (_ & H2 & H3 & _).
    split; [lia|]. intros b _ Hb. apply H3. congruence.
  - destruct files as [|file files]; [rewrite addAll_nil; simpl; by split|].
    destruct (addAll_none (file :: files) s) as (_ & H2 & H3 & _); [done|].
    split; [lia|]. intros b Hb _. by apply H3.
Qed.

Lemma inherited_valid id s a :
  well_formed s → inherited hasNode id s = Some a →
  (a < length (sets s))%nat.
Proof.
  intros [Hb _]. unfold inherited. destruct (hasNode id); [|done].
  destruct (moduleNodeToLoadAddedImports s !! id) as [[b|]|] eqn:Hl;
    simpl; intros ?; simplify_eq. by eapply Hb.
Qed.

Lemma transformRun_wf id files s :
  well_formed s → well_formed (transformRun watcher hasNode id files s).
Proof.
  intros Hwf. unfold transformRun.
  destruct (addAll_watchFiles files (inherited hasNode id s) s)
    as (_ & _ & Hm).
  destruct (addAll_frame files (inherited hasNode id s) s) as [Hlen _].
  { intros a. by apply inherited_valid. }
  destruct Hwf as [Hb Hi]. split.
  - intros id' a. rewrite Hm. intros Hl. specialize (Hb _ _ Hl). lia.
  - intros id1 id2 a. rewrite Hm. apply Hi.
Qed.

Lemma otherRun_wf files s :
  well_formed s → well_formed (otherRun watcher files s).
Proof.
  intros [Hb Hi]. unfold otherRun.
  destruct (addAll_watchFiles files None s) as (_ & _ & Hm).
  destruct (addAll_frame files None s) as [Hlen _]; [done|]. split.
  - intros id' a. rewrite Hm. intros Hl. specialize (Hb _ _ Hl). lia.
  - intros id1 id2 a. rewrite Hm. apply Hi.
Qed.

Lemma loadRun_wf id files s :
  well_formed s → well_formed (loadRun watcher hasNode id files s).
Proof.
  intros [Hb Hi]. unfold loadRun.
  destruct (addAll_watchFiles files None s) as (_ & _ & Hm).
  destruct (addAll_frame files None s) as [Hlen _]; [done|].
  assert ((addAll watcher files None s).1 = None ∨
          (addAll watcher files None s).1 = Some (length (sets s)) ∧
          length (sets (addAll watcher files None s).2)
          = S (length (sets s))) as Hadded.
  { destruct files as [|file files]; [by left|right].
    destruct (addAll_none (file :: files) s) as (H1 & H2 & _); done. }
  destruct (addAll watcher files None s) as [added s1]. simpl in *.
  unfold _updateModuleLoadAddedImports. destruct (hasNode id).
  - split; simpl.
    + intros id' a. rewrite Hm. destruct (decide (id' = id)) as [->|Hne].
      * rewrite lookup_insert_eq. intros ?; simplify_eq.
        destruct Hadded as [?|[? ?]]; simplify_eq. lia.
      * rewrite lookup_insert_ne by done. intros Hl.
        specialize (Hb _ _ Hl). lia.
    + intros id1 id2 a. rewrite Hm.
      destruct (decide (id1 = id)) as [->|Hne1];
        destruct (decide (id2 = id)) as [->|Hne2]; try done.
      * rewrite lookup_insert_eq, lookup_insert_ne by done.
        intros ? Hl; simplify_eq. specialize (Hb _ _ Hl).
        destruct Hadded as [?|[? ?]]; simplify_eq. lia.
      * rewrite lookup_insert_eq, lookup_insert_ne by done.
        intros Hl ?; simplify_eq. specialize (Hb _ _ Hl).
        destruct Hadded as [?|[? ?]]; simplify_eq. lia.
      * rewrite !lookup_insert_ne by done. apply Hi.
  - split.
    + intros id' a. rewrite Hm. intros Hl. specialize (Hb _ _ Hl). lia.
    + intros id1 id2 a. rewrite Hm. apply Hi.
Qed.

Lemma runs_wf rs :
  ∀ s, well_formed s → well_formed (fold_left (runOne watcher hasNode) rs s).
Proof.
  induction rs as [|r rs IH]; intros s Hwf; [done|]. simpl. apply IH.
  destruct r; [by apply loadRun_wf|by apply transformRun_wf|].
  by apply otherRun_wf.
Qed.

Lemma afterRuns_wf rs : well_formed (afterRuns watcher hasNode rs).
Proof.
  apply runs_wf. split; intros *; simpl; by rewrite lookup_empty.
Qed.

Lemma runOne_watchFiles r s :
  (∀ f, f ∈ watchFiles (runOne watcher hasNode s r)
        ↔ f ∈ filesOf [r] ∨ f ∈ watchFiles s) ∧
  (NoDup (watchFiles s) → NoDup (watchFiles (runOne watcher hasNode s r))).
Proof.
  destruct r as [id files|id files|files]; simpl; unfold filesOf; simpl;
    rewrite app_nil_r.
  - unfold loadRun.
    destruct (addAll_watchFiles files None s) as (He & Hn & _).
    destruct (addAll watcher files None s) as [added s1]. simpl in *.
    unfold _updateModuleLoadAddedImports. by destruct (hasNode id).
  - unfold transformRun.
    destruct (addAll_watchFiles files (inherited hasNode id s) s)
      as (He & Hn & _). done.
  - unfold otherRun.
    destruct (addAll_watchFiles files None s) as (He & Hn & _). done.
Qed.

Lemma runs_watchFiles rs :
  ∀ s,
    (∀ f, f ∈ watchFiles (fold_left (runOne watcher hasNode) rs s)
          ↔ f ∈ filesOf rs ∨ f ∈ watchFiles s) ∧
    (NoDup (watchFiles s) →
     NoDup (watchFiles (fold_left (runOne watcher hasNode) rs s))).
Proof.
  induction rs as [|r rs IH]; intros s; simpl.
  - split; [|done]. intros f. unfold filesOf. simpl.
    rewrite elem_of_nil. tauto.
  - destruct (IH (runOne watcher hasNode s r)) as [He Hn].
    destruct (runOne_watchFiles r s) as [He1 Hn1].
    split; [|auto]. intros f. rewrite He, He1.
    unfold filesOf. simpl. rewrite app_nil_r, elem_of_app. tauto.
Qed.

Lemma call_watchFiles c s :
  (∀ f, f ∈ watchFiles (call watcher hasNode s c)
        ↔ f ∈ addedFiles [c] ∨ f ∈ watchFiles s) ∧
  (NoDup (watchFiles s) → NoDup (watchFiles (call watcher hasNode s c))).
Proof.
  destruct c as [added file|id added]; simpl; unfold addedFiles; simpl.
  - assert (watchFiles (addWatchFile watcher file added s).2
            = setAdd file (watchFiles s)) as ->
      by (unfold addWatchFile; destruct added; reflexivity).
    split; [|apply setAdd_NoDup].
    intros f. rewrite setAdd_elem, list_elem_of_singleton. tauto.
  - unfold _updateModuleLoadAddedImports.
    destruct (hasNode id); simpl; (split; [|done]); intros f;
      rewrite elem_of_nil; tauto.
Qed.

Lemma calls_watchFiles cs :
  ∀ s,
    (∀ f, f ∈ watchFiles (fold_left (call watcher hasNode) cs s)
          ↔ f ∈ addedFiles cs ∨ f ∈ watchFiles s) ∧
    (NoDup (watchFiles s) →
     NoDup (watchFiles (fold_left (call watcher hasNode) cs s))).
Proof.
  induction cs as [|c cs IH]; intros s; simpl.
  - split; [|done]. intros f. unfold addedFiles. simpl.
    rewrite elem_of_nil. tauto.
  - destruct (IH (call watcher hasNode s c)) as [He Hn].
    destruct (call_watchFiles c s) as [He1 Hn1].
    split; [|auto]. intros f. rewrite He, He1.
    unfold addedFiles. simpl. rewrite app_nil_r, elem_of_app. tauto.
Qed.

(** X28. [getWatchFiles] lists exactly the files [addWatchFile] was
    called with, each once: whichever contexts the calls were made on, of
    whichever pipelines, and in whatever order the calls of the pipelines
    interleave. *)
Theorem watch_files_are_the_added_files (cs : list Call) :
  NoDup (getWatchFiles (afterCalls watcher hasNode cs)) ∧
  ∀ f, f ∈ getWatchFiles (afterCalls watcher hasNode cs) ↔ f ∈ addedFiles cs.
Proof.
  destruct (calls_watchFiles cs emptyStore) as [He Hn]. split.
  - apply Hn. simpl. apply NoDup_nil_2.
  - intros f. unfold getWatchFiles, afterCalls. rewrite He. simpl.
    rewrite elem_of_nil. tauto.
Qed.

(** The same for whole runs of the pipelines, one after the other. *)
Lemma watch_files_of_runs (rs : list Run) :
  NoDup (getWatchFiles (afterRuns watcher hasNode rs)) ∧
  ∀ f, f ∈ getWatchFiles (afterRuns watcher hasNode rs) ↔ f ∈ filesOf rs.
Proof.
  destruct (runs_watchFiles rs emptyStore) as [He Hn]. split.
  - apply Hn. simpl. apply NoDup_nil_2.
  - intros f. unfold getWatchFiles, afterRuns. rewrite He. simpl.
    rewrite elem_of_nil. tauto.
Qed.

(** X29. The transform context of a module shares the set its [load]
    left: when the handlers of [load] added a file, what a later transform
    context of the module starts with is what [load] and the transforms
    in between added. *)
Theorem transform_adds_to_the_set_of_load
    (s : Store) (id : string) (loaded transformed : list string) :
  hasNode id = true →
  loaded ≠ [] →
  let s' := transformRun watcher hasNode id transformed
              (loadRun watcher hasNode id loaded s) in
  ∀ f, f ∈ importsOf (inherited hasNode id s') s'
       ↔ f ∈ loaded ∨ f ∈ transformed.
Proof.
  intros Hn Hl s' f. subst s'. unfold transformRun, loadRun.
  destruct (addAll_none loaded s Hl) as (H1 & H2 & _ & H4).
  destruct (addAll_watchFiles loaded None s) as (_ & _ & Hm).
  destruct (addAll watcher loaded None s) as [added s1]. simpl in *.
  subst added. unfold _updateModuleLoadAddedImports. rewrite Hn.
  set (s2 := {| watchFiles := watchFiles s1; sets := sets s1;
                moduleNodeToLoadAddedImports :=
                  <[id := Some (length (sets s))]>
                    (moduleNodeToLoadAddedImports s1);
                ensured := ensured s1 |}).
  assert (inherited hasNode id s2 = Some (length (sets s))) as Hi.
  { unfold inherited. rewrite Hn. simpl. by rewrite lookup_insert_eq. }
  rewrite Hi.
  assert (length (sets s) < length (sets s2))%nat as Hlt by (simpl; lia).
  destruct (addAll_some transformed (length (sets s)) s2 Hlt)
    as (_ & _ & _ & H4').
  destruct (addAll_watchFiles transformed (Some (length (sets s))) s2)
    as (_ & _ & Hm').
  assert (inherited hasNode id
            (addAll watcher transformed (Some (length (sets s))) s2).2
          = Some (length (sets s))) as Hi'.
  { unfold inherited. rewrite Hn, Hm'. simpl. by rewrite lookup_insert_eq. }
  rewrite Hi'. unfold importsOf. rewrite H4'. simpl. rewrite H4. tauto.
Qed.

Lemma importsOf_inherited_frame id' s s' :
  well_formed s →
  inherited hasNode id' s' = inherited hasNode id' s →
  (∀ b, (b < length (sets s))%nat → inherited hasNode id' s = Some b →
        sets s' !! b = sets s !! b) →
  importsOf (inherited hasNode id' s') s'
  = importsOf (inherited hasNode id' s) s.
Proof.
  intros Hwf -> Hs. destruct (inherited hasNode id' s) as [b|] eqn:Hi;
    [|done].
  simpl. rewrite Hs; [done| |done]. by eapply inherited_valid.
Qed.

(** X30. No two modules share a set: a [load] or a [transform] of one
    module, whatever its handlers add, leaves what the transform contexts
    of every other module start with. *)
Theorem added_imports_do_not_leak
    (rs : list Run) (id id' : string) (files : list string) :
  id' ≠ id →
  let s := afterRuns watcher hasNode rs in
  importsOf (inherited hasNode id' (loadRun watcher hasNode id files s))
    (loadRun watcher hasNode id files s)
  = importsOf (inherited hasNode id' s) s ∧
  importsOf (inherited hasNode id' (transformRun watcher hasNode id files s))
    (transformRun watcher hasNode id files s)
  = importsOf (inherited hasNode id' s) s.
Proof.
  intros Hne s. pose proof (afterRuns_wf rs) as Hwf. fold s in Hwf.
  clearbody s. split.
  - unfold loadRun.
    destruct (addAll_watchFiles files None s) as (_ & _ & Hm).
    destruct (addAll_frame files None s) as [_ Hf]; [done|].
    destruct (addAll watcher files None s) as [added s1]. simpl in *.
    apply importsOf_inherited_frame; [done| |].
    + unfold inherited, _updateModuleLoadAddedImports.
      destruct (hasNode id'); [|done]. destruct (hasNode id); simpl;
        [rewrite lookup_insert_ne by done|]; by rewrite Hm.
    + intros b Hb _. unfold _updateModuleLoadAddedImports.
      destruct (hasNode id); simpl; by apply Hf.
  - unfold transformRun.
    destruct (addAll_watchFiles files (inherited hasNode id s) s)
      as (_ & _ & Hm).
    destruct (addAll_frame files (inherited hasNode id s) s) as [_ Hf].
    { intros a. by apply inherited_valid. }
    set (c := inherited hasNode id s) in *.
    apply importsOf_inherited_frame; [done| |].
    + unfold inherited. by rewrite Hm.
    + intros b Hb Hi'. apply Hf; [done|]. subst c. intros Hi.
      destruct Hwf as [_ Hinj]. apply Hne. apply (Hinj id' id b).
      * unfold inherited in Hi'. destruct (hasNode id'); [|done].
        destruct (moduleNodeToLoadAddedImports s !! id') as [[?|]|];
          simpl in Hi'; by simplify_eq.
      * unfold inherited in Hi. destruct (hasNode id); [|done].
        destruct (moduleNodeToLoadAddedImports s !! id) as [[?|]|];
          simpl in Hi; by simplify_eq.
Qed.

End WatchFilesProperties.

Section WatchFilesExamples.

Import WatchFiles.

Lemma transform_adds_to_the_set_of_load_witness :
  (λ _ : string, true) "/a.css" = true ∧
  ["/vars.css"] ≠ [] ∧
  ("/mixins.css"
   ∈ importsOf
       (inherited (λ _, true) "/a.css"
          (transformRun true (λ _, true) "/a.css" ["/mixins.css"]
             (loadRun true (λ _, true) "/a.css" ["/vars.css"] emptyStore)))
       (transformRun true (λ _, true) "/a.css" ["/mixins.css"]
          (loadRun true (λ _, true) "/a.css" ["/vars.css"] emptyStore))
   ↔ "/mixins.css" ∈ ["/vars.css"] ∨ "/mixins.css" ∈ ["/mixins.css"]).
Proof.
  split; [reflexivity|]. split; [discriminate|].
  apply (transform_adds_to_the_set_of_load true (λ _, true) emptyStore
           "/a.css" ["/vars.css"] ["/mixins.css"]);
    [reflexivity|discriminate].
Defined.

Lemma added_imports_do_not_leak_witness :
  "/b.css" ≠ "/a.css" ∧
  importsOf
    (inherited (λ _, true) "/b.css"
       (transformRun true (λ _, true) "/a.css" ["/a-dep.css"]
          (afterRuns true (λ _, true)
             [Load "/b.css" ["/b-dep.css"]; Load "/a.css" ["/vars.css"]])))
    (transformRun true (λ _, true) "/a.css" ["/a-dep.css"]
       (afterRuns true (λ _, true)
          [Load "/b.css" ["/b-dep.css"]; Load "/a.css" ["/vars.css"]]))
  = importsOf
      (inherited (λ _, true) "/b.css"
         (afterRuns true (λ _, true)
            [Load "/b.css" ["/b-dep.css"]; Load "/a.css" ["/vars.css"]]))
      (afterRuns true (λ _, true)
         [Load "/b.css" ["/b-dep.css"]; Load "/a.css" ["/vars.css"]]).
Proof.
  split; [discriminate|].
  apply (added_imports_do_not_leak true (λ _, true)
           [Load "/b.css" ["/b-dep.css"]; Load "/a.css" ["/vars.css"]]
           "/a.css" "/b.css" ["/a-dep.css"]).
  discriminate.
Defined.

(** When the handlers of [load] added nothing, the map holds null for the
    module: what a transform adds goes to a set of its own context, and
    the next transform context starts with nothing, while the file is a
    watch file of the container. *)
Example transform_alone_is_not_inherited :
  let s := transformRun true (λ _, true) "/a.css" ["/mixins.css"]
             (loadRun true (λ _, true) "/a.css" [] emptyStore) in
  inherited (λ _, true) "/a.css" s = None ∧
  getWatchFiles s = ["/mixins.css"].
Proof. vm_compute. split; reflexivity. Qed.

End WatchFilesExamples.
